(** * Nexus AI Platform: inference scheduler, model cache and camera pipeline

    A shallow embedding of
      - [backend/services/inference/inference_queue.py] (InferenceQueue),
      - [backend/services/inference/yolo_service.py]    (YOLOService),
      - [backend/api/v1/routes/yolo.py]                 (the routes over both),
      - [backend/services/inference/model_cache.py]     (ModelCache),
      - [backend/services/camera/stream_manager.py]     (StreamSession, StreamManager),
    together with the parts of the Python standard library they rest on
    (heapq under asyncio.PriorityQueue, the FIFO asyncio.Queue, OrderedDict),
    and the properties of the platform specification proved about them.

    Conventions.  Python ints are [Z]; clock readings ([datetime.utcnow()])
    are [Z] microseconds supplied by the caller of each step; object
    identities (jobs, model handles, frames) are names; a Python exception is
    an [outcome] [Raise e].  A [while] loop is a recursion on a bound of its
    number of turns; [NonTermination] is the outcome of a loop that never
    ends. *)

From stdpp Require Import gmap strings list fin_maps pretty.
From Stdlib Require Import Ascii ZArith QArith Lia Sorted.
Close Scope Q_scope.

(** ** Exceptions and outcomes *)

Inductive exn : Type :=
| TypeError
| IndexError
| RuntimeError (msg : string)
| KeyError
| AttributeError
| ZeroDivisionError
| QueueFull
| QueueEmpty
| ProviderError (msg : string)
| NonTermination.

Inductive outcome (X : Type) : Type :=
| Ok (x : X)
| Raise (e : exn).
Arguments Ok {X} x.
Arguments Raise {X} e.

(** ** heapq, the store of asyncio.PriorityQueue

    [Lib/heapq.py] ends with [from _heapq import *]: CPython runs the
    functions of [Modules/_heapqmodule.c], which are the ones embedded
    here.  The heap is a Python list updated in place; every function
    returns the list as it stands when the function returns or raises.  The
    comparison [lt] is Python's [<] on the stored items and may raise. *)

Module Heapq.
Section Heapq.
Context {A : Type}.
Variable lt : A → A → outcome bool.

(** [siftdown(heap, startpos, pos)]: the loop [while (pos > startpos)].
    The item at [pos] is compared with its parent and the two are swapped
    in place while it is below the parent; when the comparison raises the
    list is left as the swaps made so far have it. *)
Fixpoint siftdown_loop (fuel : nat) (heap : list A) (startpos pos : nat)
    : list A * outcome unit :=
  if decide (startpos < pos) then
    match fuel with
    | O => (heap, Raise NonTermination)
    | S fuel' =>
        let parentpos := (pos - 1) / 2 in
        match heap !! pos, heap !! parentpos with
        | Some newitem, Some parent =>
            match lt newitem parent with
            | Raise e => (heap, Raise e)
            | Ok false => (heap, Ok tt)
            | Ok true =>
                siftdown_loop fuel' (<[pos:=parent]> (<[parentpos:=newitem]> heap))
                  startpos parentpos
            end
        | _, _ => (heap, Raise IndexError)
        end
    end
  else (heap, Ok tt).

Definition siftdown (heap : list A) (startpos pos : nat) : list A * outcome unit :=
  if decide (pos < length heap) then siftdown_loop pos heap startpos pos
  else (heap, Raise IndexError).

(** [if (childpos + 1 < endpos)]: the two children are compared and
    [childpos] is incremented when the left one is not below the right
    one. *)
Definition smaller_child (heap : list A) (endpos childpos : nat) : outcome nat :=
  if decide (childpos + 1 < endpos) then
    match heap !! childpos, heap !! (childpos + 1) with
    | Some a, Some b =>
        match lt a b with
        | Raise e => Raise e
        | Ok true => Ok childpos
        | Ok false => Ok (childpos + 1)
        end
    | _, _ => Raise IndexError
    end
  else Ok childpos.

(** [siftup(heap, pos)]: the loop [while (pos < limit)], with
    [limit = endpos >> 1], swaps the item with its smaller child until it
    is at a leaf. *)
Fixpoint siftup_loop (fuel : nat) (heap : list A) (endpos pos : nat)
    : list A * outcome nat :=
  if decide (pos < endpos / 2) then
    match fuel with
    | O => (heap, Raise NonTermination)
    | S fuel' =>
        match smaller_child heap endpos (2 * pos + 1) with
        | Raise e => (heap, Raise e)
        | Ok childpos =>
            match heap !! childpos, heap !! pos with
            | Some tmp1, Some tmp2 =>
                siftup_loop fuel' (<[pos:=tmp1]> (<[childpos:=tmp2]> heap)) endpos childpos
            | _, _ => (heap, Raise IndexError)
            end
        end
    end
  else (heap, Ok pos).

(** [siftup] ends with [return siftdown(heap, startpos, pos)]. *)
Definition siftup (heap : list A) (pos : nat) : list A * outcome unit :=
  let endpos := length heap in
  let startpos := pos in
  if decide (pos < endpos) then
    match siftup_loop endpos heap endpos pos with
    | (heap', Raise e) => (heap', Raise e)
    | (heap', Ok pos') => siftdown heap' startpos pos'
    end
  else (heap, Raise IndexError).

(** [heappush(heap, item)]: [PyList_Append(heap, item)], then
    [siftdown(heap, 0, PyList_GET_SIZE(heap) - 1)]. *)
Definition heappush (heap : list A) (item : A) : list A * outcome unit :=
  let heap1 := heap ++ [item] in
  siftdown heap1 0 (length heap1 - 1).

(** [heappop(heap)]: the last item is taken off the list; when the list is
    then not empty the root is the item to return, the last item is written
    at the root and sifted.  When the sift raises, the item to return is
    dropped with the exception. *)
Definition heappop (heap : list A) : list A * outcome A :=
  match last heap with
  | None => (heap, Raise IndexError)
  | Some lastelt =>
      let heap1 := removelast heap in
      match heap1 with
      | [] => (heap1, Ok lastelt)
      | returnitem :: _ =>
          match siftup (<[0:=lastelt]> heap1) 0 with
          | (heap2, Raise e) => (heap2, Raise e)
          | (heap2, Ok _) => (heap2, Ok returnitem)
          end
      end
  end.
End Heapq.
End Heapq.

(** ** YOLOService (yolo_service.py) *)

Module YOLOService.

(** What a call on the inference path raises: a [ValueError] of the service
    or of the queue, the [TypeError] of a call with a keyword argument the
    function does not take, or whatever the model and the image library
    raise.  Each carries the text of [str(e)]. *)
Inductive error : Type :=
| ValueError (msg : string)
| KeywordError (msg : string)
| LibraryError (msg : string).

Definition str (e : error) : string :=
  match e with
  | ValueError msg | KeywordError msg | LibraryError msg => msg
  end.

Inductive result (X : Type) : Type :=
| Returns (x : X)
| Raises (e : error).
Arguments Returns {X} x.
Arguments Raises {X} e.

(** What the service reads of a model made by [YOLO(model_path)]: its
    identity, the task found by [_detect_task], [model.model.imgsz] and
    [model.names]. *)
Record YOLO : Type := mkYOLO {
  yolo_handle : nat;
  yolo_task : string;
  yolo_imgsz : option Z;
  yolo_names : option (list (Z * string))
}.

Record ModelConfig : Type := mkModelConfig {
  path : string;
  task : string;
  input_size : Z;
  classes : list (Z * string);
  loaded : bool
}.

Record t : Type := mkService {
  models : gmap string YOLO;
  model_configs : gmap string ModelConfig
}.

(** [YOLOService()]. *)
Definition init : t := mkService ∅ ∅.

(** [load_model]; [stem] is [Path(model_path).stem] and [made] what
    [YOLO(model_path)] delivers.  An exception is logged and raised
    again. *)
Definition load_model (s : t) (model_path : string) (model_id : option string)
    (stem : string) (made : result YOLO) : t * result string :=
  let model_id := default stem model_id in
  match made with
  | Raises e => (s, Raises e)
  | Returns model =>
      (mkService (<[model_id:=model]> (models s))
         (<[model_id:=mkModelConfig model_path (yolo_task model)
                        (default 640%Z (yolo_imgsz model))
                        (default [] (yolo_names model)) true]> (model_configs s)),
       Returns model_id)
  end.

(** [unload_model]: [del self.model_configs[model_id]] raises [KeyError]
    when the configuration is missing, after the model has been deleted. *)
Definition unload_model (s : t) (model_id : string) : t * outcome bool :=
  if bool_decide (model_id ∈ dom (models s)) then
    match model_configs s !! model_id with
    | None => (mkService (delete model_id (models s)) (model_configs s), Raise KeyError)
    | Some _ =>
        (mkService (delete model_id (models s)) (delete model_id (model_configs s)), Ok true)
    end
  else (s, Ok false).



(** What one inference call meets outside the service: the text of the
    interpreter's [TypeError] for a keyword argument the function does not
    take, and what the model call and the processing of its results
    deliver. *)
Record CallEnv : Type := mkCallEnv {
  kw_text : string;
  model_out : result string
}.

(** [f(model_id, image, **kwargs)] binds when every key of [kwargs] names a
    parameter of [f] other than the two given by position. *)
Definition takes (keywords : list string) (kwargs : list (string * string)) : bool :=
  forallb (λ kv, bool_decide (kv.1 ∈ keywords)) kwargs.

(** The body shared by [detect], [segment] and [track]: the model must be
    loaded; an exception of the model is logged and raised again. *)
Definition run_loaded (s : t) (model_id : string) (env : CallEnv) : result string :=
  if bool_decide (model_id ∈ dom (models s)) then model_out env
  else Raises (ValueError ("Model " +:+ model_id +:+ " not loaded")).

Definition call (keywords : list string) (s : t) (model_id : string) (image : nat)
    (kwargs : list (string * string)) (env : CallEnv) : result string :=
  if takes keywords kwargs then run_loaded s model_id env
  else Raises (KeywordError (kw_text env)).

Definition detect : t → string → nat → list (string * string) → CallEnv → result string :=
  call ["conf_threshold"; "iou_threshold"; "max_det"; "classes"].

Definition segment : t → string → nat → list (string * string) → CallEnv → result string :=
  call ["conf_threshold"; "iou_threshold"; "max_det"].

Definition track : t → string → nat → list (string * string) → CallEnv → result string :=
  call ["conf_threshold"; "iou_threshold"; "tracker"].

End YOLOService.

(** ** InferenceQueue (inference_queue.py) *)

Module InferenceQueue.

Inductive InferenceStatus : Type := PENDING | PROCESSING | COMPLETED | FAILED.

Record InferenceJob : Type := mkJob {
  job_id : string;
  model_id : string;
  image_data : string;
  inference_type : string;
  parameters : list (string * string);
  created_at : Z;
  started_at : option Z;
  completed_at : option Z;
  status : InferenceStatus;
  result : option string;
  error : option string;
  priority : Z
}.

(** The tuple [(-priority, timestamp, job)] put on the queue.  The third
    component is a reference to the job object, which the registry [jobs]
    holds under the job's id. *)
Definition entry : Type := Z * Z * string.

Definition entry_negprio (e : entry) : Z := e.1.1.
Definition entry_timestamp (e : entry) : Z := e.1.2.
Definition entry_job (e : entry) : string := e.2.
Definition entry_priority (e : entry) : Z := (- entry_negprio e)%Z.

(** Python's [a < b] on these tuples: the first position where the two
    differ decides.  When the first two components agree the jobs are
    compared, and [InferenceJob] (a dataclass without [order=True]) has no
    [<]: distinct jobs raise [TypeError]; a tuple is not below itself. *)
Definition entry_lt (a b : entry) : outcome bool :=
  if decide (entry_negprio a = entry_negprio b) then
    if decide (entry_timestamp a = entry_timestamp b) then
      if decide (entry_job a = entry_job b) then Ok false else Raise TypeError
    else Ok (bool_decide (entry_timestamp a < entry_timestamp b)%Z)
  else Ok (bool_decide (entry_negprio a < entry_negprio b)%Z).

Record Stats : Type := mkStats {
  total_jobs : Z;
  completed_jobs : Z;
  failed_jobs : Z;
  queue_size : Z;
  active_workers : Z
}.

Record t : Type := mkQueue {
  max_workers : nat;
  max_queue_size : Z;
  queue : list entry;              (* asyncio.PriorityQueue(maxsize=max_queue_size) *)
  jobs : gmap string InferenceJob;
  workers : list nat;              (* the tasks "worker-i" *)
  stats : Stats;
  _running : bool
}.

(** [__init__]: [max_workers or settings.INFERENCE_MAX_WORKERS]. *)
Definition init (INFERENCE_MAX_WORKERS : nat) (max_workers : option nat)
    (max_queue_size : Z) : t :=
  {| max_workers :=
       match max_workers with
       | Some (S n) => S n
       | _ => INFERENCE_MAX_WORKERS
       end;
     max_queue_size := max_queue_size;
     queue := [];
     jobs := ∅;
     workers := [];
     stats := mkStats 0 0 0 0 0;
     _running := false |}.

Definition set_running (b : bool) (q : t) : t :=
  mkQueue (max_workers q) (max_queue_size q) (queue q) (jobs q) (workers q) (stats q) b.
Definition set_workers (w : list nat) (q : t) : t :=
  mkQueue (max_workers q) (max_queue_size q) (queue q) (jobs q) w (stats q) (_running q).
Definition set_queue (h : list entry) (q : t) : t :=
  mkQueue (max_workers q) (max_queue_size q) h (jobs q) (workers q) (stats q) (_running q).
Definition set_jobs (j : gmap string InferenceJob) (q : t) : t :=
  mkQueue (max_workers q) (max_queue_size q) (queue q) j (workers q) (stats q) (_running q).
Definition set_stats (s : Stats) (q : t) : t :=
  mkQueue (max_workers q) (max_queue_size q) (queue q) (jobs q) (workers q) s (_running q).

(** [start]: does nothing when running; else spawns [max_workers] workers. *)
Definition start (q : t) : t :=
  if _running q then q
  else set_workers (workers q ++ seq 0 (max_workers q)) (set_running true q).

(** [stop]: does nothing when not running; else clears the flag, cancels
    and awaits the workers, shuts the thread pool down and empties
    [workers].  Neither [queue] nor [jobs] is touched. *)
Definition stop (q : t) : t :=
  if _running q then set_workers [] (set_running false q) else q.

Definition qsize (q : t) : Z := Z.of_nat (length (queue q)).

(** [submit_job].  [uuid] is the value of [uuid4()], [now1] and [now2] the
    two clock readings ([created_at] and the queue timestamp). *)
Definition submit_job (q : t) (uuid model_id image_data inference_type : string)
    (parameters : list (string * string)) (priority : Z) (now1 now2 : Z)
    : t * outcome string :=
  if negb (_running q) then
    (q, Raise (RuntimeError "Inference queue is not running"))
  else if bool_decide (max_queue_size q ≤ qsize q)%Z then
    (q, Raise (RuntimeError ("Queue is full (max size: " +:+ pretty (max_queue_size q) +:+ ")")))
  else
    let job := mkJob uuid model_id image_data inference_type parameters
                 now1 None None PENDING None None priority in
    let st := stats q in
    let q1 := set_stats (mkStats (total_jobs st + 1) (completed_jobs st)
                           (failed_jobs st) (queue_size st) (active_workers st))
                (set_jobs (<[uuid:=job]> (jobs q)) q) in
    match Heapq.heappush entry_lt (queue q1) ((- priority)%Z, now2, uuid) with
    | (h, Raise e) => (set_queue h q1, Raise e)
    | (h, Ok _) => (set_queue h q1, Ok uuid)
    end.

Definition update_job (f : InferenceJob → InferenceJob) (jid : string) (q : t) : t :=
  set_jobs (alter f jid (jobs q)) q.

Definition mark_processing (now : Z) (j : InferenceJob) : InferenceJob :=
  mkJob (job_id j) (model_id j) (image_data j) (inference_type j) (parameters j)
    (created_at j) (Some now) (completed_at j) PROCESSING (result j) (error j)
    (priority j).

Definition mark_completed (r : string) (now : Z) (j : InferenceJob) : InferenceJob :=
  mkJob (job_id j) (model_id j) (image_data j) (inference_type j) (parameters j)
    (created_at j) (started_at j) (Some now) COMPLETED (Some r) (error j)
    (priority j).

Definition mark_failed (msg : string) (now : Z) (j : InferenceJob) : InferenceJob :=
  mkJob (job_id j) (model_id j) (image_data j) (inference_type j) (parameters j)
    (created_at j) (started_at j) (Some now) FAILED (result j) (Some msg)
    (priority j).

(** One turn of [_worker] up to the dispatch: the loop runs while
    [_running]; an empty queue ends the turn by [TimeoutError]; otherwise
    the least tuple is taken and its job marked [PROCESSING].  An exception
    of the queue is caught and logged by the loop, the turn ends. *)
Definition worker_get (q : t) (now : Z) : t * option entry :=
  if negb (_running q) then (q, None)
  else
    match queue q with
    | [] => (q, None)
    | _ :: _ =>
        match Heapq.heappop entry_lt (queue q) with
        | (h, Raise _) => (set_queue h q, None)
        | (h, Ok e) =>
            (update_job (mark_processing now) (entry_job e) (set_queue h q), Some e)
        end
    end.

(** The rest of the turn: the job ran in the thread pool and either
    returned [r] or raised with text [msg]. *)
Definition worker_finish (q : t) (jid : string) (res : string + string) (now : Z) : t :=
  let st := stats q in
  match res with
  | inl r =>
      set_stats (mkStats (total_jobs st) (completed_jobs st + 1) (failed_jobs st)
                   (queue_size st) (active_workers st))
        (update_job (mark_completed r now) jid q)
  | inr msg =>
      set_stats (mkStats (total_jobs st) (completed_jobs st) (failed_jobs st + 1)
                   (queue_size st) (active_workers st))
        (update_job (mark_failed msg now) jid q)
  end.

(** [InferenceStatus.value]. *)
Definition status_value (s : InferenceStatus) : string :=
  match s with
  | PENDING => "pending"
  | PROCESSING => "processing"
  | COMPLETED => "completed"
  | FAILED => "failed"
  end.

#[global] Instance InferenceStatus_eq_dec : EqDecision InferenceStatus.
Proof. solve_decision. Defined.

(** The dictionary returned by [get_job_status]; the dates stay clock
    readings. *)
Record JobStatus : Type := mkJobStatus {
  js_job_id : string;
  js_status : string;
  js_created_at : option Z;
  js_started_at : option Z;
  js_completed_at : option Z;
  js_result : option string;
  js_error : option string
}.

(** [get_job_status]: [None] for an id the registry does not hold. *)
Definition get_job_status (q : t) (jid : string) : option JobStatus :=
  match jobs q !! jid with
  | None => None
  | Some job =>
      Some (mkJobStatus (job_id job) (status_value (status job)) (Some (created_at job))
              (started_at job) (completed_at job) (result job) (error job))
  end.

(** [[j for j in self.jobs.values() if j.status == st]]. *)
Definition jobs_with (st : InferenceStatus) (q : t) : list InferenceJob :=
  filter (λ j, status j = st) (map_to_list (jobs q)).*2.

(** The dictionary returned by [get_queue_stats]: a copy of [stats] whose
    [queue_size] is read off the queue, with the count of the jobs in
    processing added. *)
Record QueueStats : Type := mkQueueStats {
  qs_total_jobs : Z;
  qs_completed_jobs : Z;
  qs_failed_jobs : Z;
  qs_queue_size : Z;
  qs_active_workers : Z;
  qs_active_jobs : Z
}.

Definition get_queue_stats (q : t) : QueueStats :=
  let st := stats q in
  mkQueueStats (total_jobs st) (completed_jobs st) (failed_jobs st) (qsize q)
    (active_workers st) (Z.of_nat (length (jobs_with PROCESSING q))).

(** What [cv2.imdecode] makes of the bytes of a job: an image, [None], or
    an exception of the library. *)
Inductive Decoded : Type :=
| Image (image : nat)
| NoImage
| DecodeRaises (msg : string).

Record JobEnv : Type := mkJobEnv {
  env_imdecode : Decoded;
  env_call : YOLOService.CallEnv
}.

(** [_process_inference_job], run in the thread pool against the global
    [yolo_service].  Every exception is logged and raised again. *)
Definition _process_inference_job (yolo_service : YOLOService.t) (job : InferenceJob)
    (env : JobEnv) : YOLOService.result string :=
  match env_imdecode env with
  | DecodeRaises msg => YOLOService.Raises (YOLOService.LibraryError msg)
  | NoImage => YOLOService.Raises (YOLOService.ValueError "Failed to decode image")
  | Image image =>
      if decide (inference_type job = "detect") then
        YOLOService.detect yolo_service (model_id job) image (parameters job) (env_call env)
      else if decide (inference_type job = "segment") then
        YOLOService.segment yolo_service (model_id job) image (parameters job) (env_call env)
      else if decide (inference_type job = "track") then
        YOLOService.track yolo_service (model_id job) image (parameters job) (env_call env)
      else
        YOLOService.Raises
          (YOLOService.ValueError ("Unknown inference type: " +:+ inference_type job))
  end.

(** What the worker makes of the end of a job: the result, or [str(e)]. *)
Definition job_outcome (r : YOLOService.result string) : string + string :=
  match r with
  | YOLOService.Returns x => inl x
  | YOLOService.Raises e => inr (YOLOService.str e)
  end.

(** *** The worker tasks

    A queue with its [ThreadPoolExecutor] and its worker tasks.  Worker [w]
    is either between two turns or suspended in [run_in_executor] with the
    job named by [holding !! w] in hand.  Jobs are submitted without a
    callback, as the routes do. *)
Record Scheduler : Type := mkScheduler {
  the_queue : t;
  thread_pool_shutdown : bool;
  holding : gmap nat string
}.

(** [InferenceQueue(max_workers, max_queue_size)]. *)
Definition new_scheduler (INFERENCE_MAX_WORKERS : nat) (max_workers : option nat)
    (max_queue_size : Z) : Scheduler :=
  mkScheduler (init INFERENCE_MAX_WORKERS max_workers max_queue_size) false ∅.

Definition sched_start (s : Scheduler) : Scheduler :=
  mkScheduler (start (the_queue s)) (thread_pool_shutdown s) (holding s).

(** [stop] on a running queue cancels every worker where it is suspended
    ([CancelledError] is no [Exception] since Python 3.8: a worker does not
    mark the job it holds) and shuts the thread pool down, for good. *)
Definition sched_stop (s : Scheduler) : Scheduler :=
  if _running (the_queue s) then mkScheduler (stop (the_queue s)) true ∅ else s.

Definition sched_submit (s : Scheduler) (uuid model_id image_data inference_type : string)
    (parameters : list (string * string)) (priority : Z) (now1 now2 : Z)
    : Scheduler * outcome string :=
  let '(q, r) := submit_job (the_queue s) uuid model_id image_data inference_type
                   parameters priority now1 now2 in
  (mkScheduler q (thread_pool_shutdown s) (holding s), r).

(** The text of the [RuntimeError] of [ThreadPoolExecutor.submit] after
    [shutdown]. *)
Definition shutdown_text : string := "cannot schedule new futures after shutdown".

(** Worker [w] runs from the top of its loop to its next suspension: it
    takes the least tuple, marks the job and hands it to the thread pool.
    A thread pool that was shut down refuses the job; the worker catches
    that exception and marks the job failed in the same turn ([now2] is the
    clock reading then). *)
Definition worker_take (s : Scheduler) (w : nat) (now now2 : Z) : Scheduler :=
  if bool_decide (w ∈ workers (the_queue s)) && bool_decide (holding s !! w = None) then
    match worker_get (the_queue s) now with
    | (q, None) => mkScheduler q (thread_pool_shutdown s) (holding s)
    | (q, Some e) =>
        if thread_pool_shutdown s then
          mkScheduler (worker_finish q (entry_job e) (inr shutdown_text) now2)
            (thread_pool_shutdown s) (holding s)
        else
          mkScheduler q (thread_pool_shutdown s) (<[w:=entry_job e]> (holding s))
    end
  else s.

(** Worker [w] is resumed with what [_process_inference_job] made of its
    job, records it and is back at the top of its loop. *)
Definition worker_resume (s : Scheduler) (w : nat) (yolo_service : YOLOService.t)
    (env : JobEnv) (now : Z) : Scheduler :=
  match holding s !! w with
  | None => s
  | Some jid =>
      match jobs (the_queue s) !! jid with
      | None => s
      | Some job =>
          mkScheduler
            (worker_finish (the_queue s) jid
               (job_outcome (_process_inference_job yolo_service job env)) now)
            (thread_pool_shutdown s) (delete w (holding s))
      end
  end.

End InferenceQueue.

(** ** The routes over the queue (api/v1/routes/yolo.py) *)

Module YoloRoutes.

(** What a route hands to FastAPI: the value it returns, or the
    [HTTPException] it raises. *)
Inductive response (X : Type) : Type :=
| Respond (body : X)
| HTTPException (status_code : Z) (detail : string).
Arguments Respond {X} body.
Arguments HTTPException {X} status_code detail.

(** What the body of a route's [try] comes to. *)
Inductive raised (X : Type) : Type :=
| Value (x : X)
| ValueError (text : string)
| OtherException.
Arguments Value {X} x.
Arguments ValueError {X} text.
Arguments OtherException {X}.

(** The handlers of the inference routes: [except ValueError as e] answers
    404 with [str(e)]; [except Exception] answers 500 with the text of the
    route.  An [HTTPException] raised inside the [try] is an [Exception]
    and no [ValueError]. *)
Definition handlers {X} (detail : string) (r : raised X) : response X :=
  match r with
  | Value x => Respond x
  | ValueError text => HTTPException 404 text
  | OtherException => HTTPException 500 detail
  end.

(** The handler of the job and statistics routes: [except Exception]
    alone. *)
Definition handler {X} (detail : string) (r : raised X) : response X :=
  match r with
  | Value x => Respond x
  | _ => HTTPException 500 detail
  end.

(** [await x] on an [int]: [TypeError], an [int] cannot be awaited. *)
Definition await_int (x : Z) : outcome Z := Raise TypeError.

Inductive DetectBody : Type :=
| Submitted (job_id : string) (estimated_wait_time : Q)
| Results (results : string).

Definition of_result (r : YOLOService.result string) : raised DetectBody :=
  match r with
  | YOLOService.Returns x => Value (Results x)
  | YOLOService.Raises (YOLOService.ValueError text) => ValueError text
  | YOLOService.Raises _ => OtherException
  end.

(** [yolo_detect].  [decoded] is what [cv2.imdecode] makes of the upload;
    the three thresholds are the form fields.  With [async_processing] the
    job goes to the queue, and the answer is built from
    [await inference_queue.queue.qsize() * 0.5]. *)
Definition yolo_detect (inference_queue : InferenceQueue.t) (yolo_service : YOLOService.t)
    (image_bytes : string) (decoded : InferenceQueue.Decoded) (model_id : string)
    (confidence_threshold iou_threshold max_detections : string) (priority : Z)
    (async_processing : bool) (uuid : string) (now1 now2 : Z) (env : YOLOService.CallEnv)
    : InferenceQueue.t * response DetectBody :=
  let parameters := [("conf_threshold", confidence_threshold);
                     ("iou_threshold", iou_threshold);
                     ("max_det", max_detections)] in
  match decoded with
  | InferenceQueue.DecodeRaises _ =>
      (inference_queue, handlers "Detection failed" OtherException)
  | InferenceQueue.NoImage =>
      (* raise HTTPException(status_code=400, detail="Invalid image format") *)
      (inference_queue, handlers "Detection failed" OtherException)
  | InferenceQueue.Image img =>
      if async_processing then
        match InferenceQueue.submit_job inference_queue uuid model_id image_bytes "detect"
                parameters priority now1 now2 with
        | (q, Raise _) => (q, handlers "Detection failed" OtherException)
        | (q, Ok job_id) =>
            match await_int (InferenceQueue.qsize q) with
            | Raise _ => (q, handlers "Detection failed" OtherException)
            | Ok n => (q, handlers "Detection failed"
                            (Value (Submitted job_id (inject_Z n * (1 # 2))%Q)))
            end
        end
      else
        (inference_queue,
         handlers "Detection failed"
           (of_result (YOLOService.detect yolo_service model_id img parameters env)))
  end.

(** [get_job_status]: the 404 for an unknown job is raised inside the
    [try]. *)
Definition get_job_status (inference_queue : InferenceQueue.t) (job_id : string)
    : response InferenceQueue.JobStatus :=
  handler "Failed to get job status"
    match InferenceQueue.get_job_status inference_queue job_id with
    | None => OtherException  (* raise HTTPException(status_code=404, detail="Job not found") *)
    | Some job_status => Value job_status
    end.

(** [get_queue_stats]. *)
Definition get_queue_stats (inference_queue : InferenceQueue.t)
    : response InferenceQueue.QueueStats :=
  handler "Failed to get queue stats" (Value (InferenceQueue.get_queue_stats inference_queue)).


End YoloRoutes.

(** ** collections.OrderedDict, as used for [access_order] *)

Module OrderedDict.
Section OrderedDict.
Context {V : Type}.

Definition keys (d : list (string * V)) : list string := d.*1.

(** [d[k] = v]: a present key keeps its place, a new key goes last. *)
Fixpoint setitem (k : string) (v : V) (d : list (string * V)) : list (string * V) :=
  match d with
  | [] => [(k, v)]
  | (k', v') :: d' =>
      if decide (k' = k) then (k, v) :: d' else (k', v') :: setitem k v d'
  end.

Fixpoint getitem (k : string) (d : list (string * V)) : option V :=
  match d with
  | [] => None
  | (k', v') :: d' => if decide (k' = k) then Some v' else getitem k d'
  end.

(** [d.pop(k, None)]. *)
Definition pop (k : string) (d : list (string * V)) : list (string * V) :=
  filter (λ p, p.1 ≠ k) d.

(** [d.move_to_end(k)]; [None] stands for [KeyError]. *)
Definition move_to_end (k : string) (d : list (string * V)) : option (list (string * V)) :=
  match getitem k d with
  | None => None
  | Some v => Some (pop k d ++ [(k, v)])
  end.

(** [next(iter(d))] on a non-empty dictionary. *)
Definition first_key (d : list (string * V)) : option string :=
  match d with
  | [] => None
  | (k, _) :: _ => Some k
  end.
End OrderedDict.
End OrderedDict.

(** ** ModelCache (model_cache.py) *)

Module ModelCache.

(** A loaded model is a Python object; [Handle] names its identity. *)
Definition Handle : Type := nat.

Inductive Loader : Type := ONNXLoader | TensorRTLoader | PyTorchLoader.

(** The keys of the [config] dictionary that the cache reads. *)
Record Config : Type := mkConfig {
  framework : option string;
  file_path : option string
}.

Record CacheStats : Type := mkCacheStats {
  hits : Z;
  misses : Z;
  evictions : Z;
  loads : Z
}.

Record t : Type := mkCache {
  max_models : Z;
  max_memory_mb : Z;
  cache_ttl : Z;
  models : gmap string Handle;
  configs : gmap string Config;
  access_order : list (string * Z);
  load_times : gmap string Z;
  model_sizes : gmap string Z;       (* size in MB *)
  stats : CacheStats
}.

Definition init (max_models max_memory_mb cache_ttl_seconds : Z) : t :=
  mkCache max_models max_memory_mb cache_ttl_seconds ∅ ∅ [] ∅ ∅ (mkCacheStats 0 0 0 0).

(** [ModelCache()] with the defaults of [__init__]. *)
Definition default_cache : t := init 5 4096 3600.

Definition set_stats (s : CacheStats) (c : t) : t :=
  mkCache (max_models c) (max_memory_mb c) (cache_ttl c) (models c) (configs c)
    (access_order c) (load_times c) (model_sizes c) s.
Definition set_access_order (o : list (string * Z)) (c : t) : t :=
  mkCache (max_models c) (max_memory_mb c) (cache_ttl c) (models c) (configs c)
    o (load_times c) (model_sizes c) (stats c).

(** [sum(d.values())]. *)
Definition sum_values (d : gmap string Z) : Z :=
  map_fold (λ _ (s acc : Z), (s + acc)%Z) 0%Z d.

(** [sum(self.model_sizes.values())]. *)
Definition total_memory (c : t) : Z := sum_values (model_sizes c).

(** [len(self.models)]. *)
Definition cached_models (c : t) : Z := Z.of_nat (size (models c)).

(** What the cache asks of the outside world during one [get_model]:
    the outcome of [download_file], the outcome of [loader.load_model], the
    resident set size in MB read by psutil ([None]: psutil raised) and the
    reading of [time.time()]. *)
Record Env : Type := mkEnv {
  env_download : outcome unit;
  env_load : outcome Handle;
  env_rss_mb : option Z;
  env_time : Z
}.

(** The record of one call of [loader.load_model(model_path, config)]. *)
Record LoadCall : Type := mkLoadCall {
  call_loader : Loader;
  call_path : string
}.

(** ASCII part of [str.lower]. *)
Definition lower_ascii (a : ascii) : ascii :=
  let n := nat_of_ascii a in
  if decide (65 ≤ n ∧ n ≤ 90) then ascii_of_nat (n + 32) else a.

Fixpoint lower (s : string) : string :=
  match s with
  | EmptyString => EmptyString
  | String a s' => String (lower_ascii a) (lower s')
  end.

Definition select_loader (fw : string) : Loader :=
  if decide (fw = "onnx") then ONNXLoader
  else if decide (fw = "tensorrt") then TensorRTLoader
  else PyTorchLoader.

(** [_load_model]: picks the loader, downloads a remote file, calls the
    loader and counts the load.  Any exception is logged and raised again.
    A configuration without [file_path] fails on [None.startswith].  The
    second component lists the calls made to the provider. *)
Definition _load_model (c : t) (model_id : string) (config : Config) (env : Env)
    : t * list LoadCall * outcome Handle :=
  let fw := lower (default "pytorch" (framework config)) in
  let loader := select_loader fw in
  match file_path config with
  | None => (c, [], Raise AttributeError)
  | Some model_path =>
      let remote := String.prefix "s3://" model_path || String.prefix "minio://" model_path in
      let local_path := "/tmp/models/" +:+ model_id +:+ "." +:+ fw in
      match (if remote then env_download env else Ok tt) with
      | Raise e => (c, [], Raise e)
      | Ok _ =>
          let path := if remote then local_path else model_path in
          match env_load env with
          | Raise e => (c, [mkLoadCall loader path], Raise e)
          | Ok model =>
              let st := stats c in
              (set_stats (mkCacheStats (hits st) (misses st) (evictions st) (loads st + 1)) c,
               [mkLoadCall loader path], Ok model)
          end
      end
  end.

(** [_estimate_model_memory]: [max(memory_mb // 10, 50)], or 100 when
    psutil raises. *)
Definition _estimate_model_memory (rss_mb : option Z) : Z :=
  match rss_mb with
  | Some memory_mb => Z.max (memory_mb / 10) 50
  | None => 100
  end.

(** [_evict_lru_model]: nothing when [access_order] is empty; else the first
    key of [access_order] leaves all five dictionaries. *)
Definition _evict_lru_model (c : t) : t :=
  match OrderedDict.first_key (access_order c) with
  | None => c
  | Some lru_model_id =>
      let st := stats c in
      mkCache (max_models c) (max_memory_mb c) (cache_ttl c)
        (delete lru_model_id (models c))
        (delete lru_model_id (configs c))
        (OrderedDict.pop lru_model_id (access_order c))
        (delete lru_model_id (load_times c))
        (delete lru_model_id (model_sizes c))
        (mkCacheStats (hits st) (misses st) (evictions st + 1) (loads st))
  end.

(** The loop [while len(self.models) >= self.max_models].  An eviction
    either shortens [access_order] or, when it is empty, changes nothing;
    [n] bounds the evictions by the length of [access_order], and the loop
    still wanting to evict with nothing left is the loop that never ends. *)
Fixpoint evict_by_count (n : nat) (c : t) : outcome t :=
  if bool_decide (max_models c ≤ cached_models c)%Z then
    match n with
    | O => Raise NonTermination
    | S n' => evict_by_count n' (_evict_lru_model c)
    end
  else Ok c.

(** The loop [while (current_memory + new_model_size) > self.max_memory_mb],
    left by [break] when no model is cached. *)
Fixpoint evict_by_memory (n : nat) (c : t) (current_memory new_model_size : Z) : outcome t :=
  if bool_decide (max_memory_mb c < current_memory + new_model_size)%Z then
    if bool_decide (models c = ∅) then Ok c
    else
      match n with
      | O => Raise NonTermination
      | S n' =>
          let c' := _evict_lru_model c in
          evict_by_memory n' c' (total_memory c') new_model_size
      end
  else Ok c.

(** [_ensure_cache_capacity]; [current_memory] is read once before the
    first loop. *)
Definition _ensure_cache_capacity (c : t) (new_model_size : Z) : outcome t :=
  let current_memory := total_memory c in
  match evict_by_count (length (access_order c)) c with
  | Raise e => Raise e
  | Ok c1 => evict_by_memory (length (access_order c1)) c1 current_memory new_model_size
  end.

(** [_add_to_cache]. *)
Definition _add_to_cache (c : t) (model_id : string) (model : Handle) (config : Config)
    (env : Env) : outcome t :=
  let model_size := _estimate_model_memory (env_rss_mb env) in
  match _ensure_cache_capacity c model_size with
  | Raise e => Raise e
  | Ok c1 =>
      Ok (mkCache (max_models c1) (max_memory_mb c1) (cache_ttl c1)
            (<[model_id:=model]> (models c1))
            (<[model_id:=config]> (configs c1))
            (OrderedDict.setitem model_id (env_time env) (access_order c1))
            (<[model_id:=env_time env]> (load_times c1))
            (<[model_id:=model_size]> (model_sizes c1))
            (stats c1))
  end.

(** The first critical section of [get_model]: a cached model is moved to
    the end of [access_order] and returned ([inl]); otherwise the miss is
    counted ([inr]). *)
Definition get_model_lookup (c : t) (model_id : string) : outcome (t * option Handle) :=
  let st := stats c in
  match models c !! model_id with
  | Some model =>
      match OrderedDict.move_to_end model_id (access_order c) with
      | None => Raise KeyError
      | Some o =>
          Ok (set_stats (mkCacheStats (hits st + 1) (misses st) (evictions st) (loads st))
                (set_access_order o c), Some model)
      end
  | None =>
      Ok (set_stats (mkCacheStats (hits st) (misses st + 1) (evictions st) (loads st)) c, None)
  end.

(** [get_model], run without another caller in between: the state after
    the call (as it stands when the call returns or raises; [None] when
    the call does not return), the provider calls made, and the result. *)
Definition get_model (c : t) (model_id : string) (config : Config) (env : Env)
    : option t * list LoadCall * outcome Handle :=
  match get_model_lookup c model_id with
  | Raise e => (Some c, [], Raise e)
  | Ok (c1, Some model) => (Some c1, [], Ok model)
  | Ok (c1, None) =>
      match _load_model c1 model_id config env with
      | (c2, calls, Raise e) => (Some c2, calls, Raise e)
      | (c2, calls, Ok model) =>
          match _add_to_cache c2 model_id model config env with
          | Raise NonTermination => (None, calls, Raise NonTermination)
          | Raise e => (Some c2, calls, Raise e)
          | Ok c3 => (Some c3, calls, Ok model)
          end
      end
  end.

(** [invalidate]. *)
Definition invalidate (c : t) (model_id : string) : t :=
  match models c !! model_id with
  | Some _ =>
      mkCache (max_models c) (max_memory_mb c) (cache_ttl c)
        (delete model_id (models c))
        (delete model_id (configs c))
        (OrderedDict.pop model_id (access_order c))
        (delete model_id (load_times c))
        (delete model_id (model_sizes c))
        (stats c)
  | None => c
  end.

(** [clear]. *)
Definition clear (c : t) : t :=
  mkCache (max_models c) (max_memory_mb c) (cache_ttl c) ∅ ∅ [] ∅ ∅ (stats c).

(** A Python float, named by the operation that makes it: [a / b] on two
    ints is the double nearest to the quotient, [x * n] the double nearest
    to the product.  The doubles are not computed. *)
Inductive pyfloat : Type :=
| IntTrueDiv (a b : Z)
| FloatMulInt (x : pyfloat) (n : Z).

(** [hit_rate] is a float, or the int [0] of its [else] branch. *)
Inductive number : Type :=
| Int (n : Z)
| Float (x : pyfloat).

(** The dictionary returned by [get_stats]. *)
Record StatsView : Type := mkStatsView {
  sv_cached_models : Z;
  sv_max_models : Z;
  sv_total_memory_mb : Z;
  sv_max_memory_mb : Z;
  sv_memory_usage_pct : pyfloat;
  sv_hit_rate : number;
  sv_stats : CacheStats;
  sv_model_list : gset string
}.

(** [a / b] on ints: [ZeroDivisionError] when [b] is 0.  (Counters and
    sizes in MB are far from the ints whose quotient overflows a double.) *)
Definition truediv (a b : Z) : outcome pyfloat :=
  if decide (b = 0%Z) then Raise ZeroDivisionError
  else Ok (IntTrueDiv a b).

(** [get_stats]: [hit_rate] first, then the dictionary, whose entry
    [memory_usage_pct] divides by [max_memory_mb]. *)
Definition get_stats (c : t) : outcome StatsView :=
  let st := stats c in
  let hit_rate : outcome number :=
    if bool_decide (0 < hits st + misses st)%Z
    then match truediv (hits st) (hits st + misses st) with
         | Ok x => Ok (Float x)
         | Raise e => Raise e
         end
    else Ok (Int 0) in
  match hit_rate with
  | Raise e => Raise e
  | Ok hit_rate =>
      let total := total_memory c in
      match truediv total (max_memory_mb c) with
      | Raise e => Raise e
      | Ok ratio =>
          Ok (mkStatsView (cached_models c) (max_models c) total (max_memory_mb c)
                (FloatMulInt ratio 100) hit_rate st (dom (models c)))
      end
  end.

(** The keys of [settings.MODEL_CACHE] that [get_model_cache] reads. *)
Record CacheSettings : Type := mkCacheSettings {
  cfg_max_models : option Z;
  cfg_max_memory_mb : option Z;
  cfg_ttl_seconds : option Z
}.

(** [get_model_cache]: the module's [_model_cache] is made at the first
    call, from [getattr(settings, 'MODEL_CACHE', {})], and returned as it is
    at every later one.  The cache is one shared object: the global after
    the call is the cache returned. *)
Definition get_model_cache (_model_cache : option t) (MODEL_CACHE : option CacheSettings) : t :=
  match _model_cache with
  | Some cache => cache
  | None =>
      let cache_config := default (mkCacheSettings None None None) MODEL_CACHE in
      init (default 5%Z (cfg_max_models cache_config))
        (default 4096%Z (cfg_max_memory_mb cache_config))
        (default 3600%Z (cfg_ttl_seconds cache_config))
  end.

(** [get_cached_model]: [get_model] on the global cache.  The first
    component is [_model_cache] after the call, [None] when the call does
    not return. *)
Definition get_cached_model (_model_cache : option t) (MODEL_CACHE : option CacheSettings)
    (model_id : string) (config : Config) (env : Env)
    : option t * list LoadCall * outcome Handle :=
  get_model (get_model_cache _model_cache MODEL_CACHE) model_id config env.

End ModelCache.

(** ** asyncio.Queue, the FIFO queue between capture and processing *)

Module AsyncQueue.
Section AsyncQueue.
Context {X : Type}.

Record t : Type := mkAsyncQueue {
  maxsize : Z;
  items : list X
}.

Definition qsize (q : t) : Z := Z.of_nat (length (items q)).

(** [full()]: a queue with [maxsize <= 0] is never full. *)
Definition full (q : t) : bool :=
  if bool_decide (maxsize q ≤ 0)%Z then false
  else bool_decide (maxsize q ≤ qsize q)%Z.

Definition put_nowait (q : t) (x : X) : outcome t :=
  if full q then Raise QueueFull
  else Ok (mkAsyncQueue (maxsize q) (items q ++ [x])).

Definition get_nowait (q : t) : outcome (X * t) :=
  match items q with
  | [] => Raise QueueEmpty
  | x :: rest => Ok (x, mkAsyncQueue (maxsize q) rest)
  end.
End AsyncQueue.
Arguments t : clear implicits.
End AsyncQueue.

(** ** StreamSession (stream_manager.py) *)

Module StreamSession.

(** A decoded frame is a numpy array; [Frame] names it. *)
Definition Frame : Type := nat.

Record t : Type := mkSession {
  is_active : bool;
  cap_opened : bool;                         (* self.cap and self.cap.isOpened() *)
  frame_queue : AsyncQueue.t (Frame * Z);
  frame_buffer_maxlen : nat;
  frame_buffer : list Frame;                 (* deque(maxlen=frame_buffer_maxlen) *)
  last_frame_time : option Z;
  reconnect_attempts : Z;
  frame_count : Z;
  dropped_frames : Z;
  fps_counter : list Q;                      (* deque(maxlen=30) *)
  processing_times : list Q                  (* deque(maxlen=100) *)
}.

(** [deque.append] with a [maxlen]: the oldest items fall off the left. *)
Definition deque_append {X} (maxlen : nat) (d : list X) (x : X) : list X :=
  let d' := d ++ [x] in drop (length d' - maxlen) d'.

(** [__init__]; [max_frame_buffer] is
    [config.cameras_config.get("max_frame_buffer", 60)]. *)
Definition init (max_frame_buffer : option nat) : t :=
  mkSession false false (AsyncQueue.mkAsyncQueue 30 []) (default 60 max_frame_buffer) []
    None 0 0 0 [] [].

(** [connect]; [opened] tells whether the capture opened.  On success the
    session is active and its reconnect counter is reset. *)
Definition connect (s : t) (opened : bool) : t * bool :=
  if opened then
    (mkSession true true (frame_queue s) (frame_buffer_maxlen s) (frame_buffer s)
       (last_frame_time s) 0 (frame_count s) (dropped_frames s) (fps_counter s)
       (processing_times s), true)
  else
    (mkSession false false (frame_queue s) (frame_buffer_maxlen s) (frame_buffer s)
       (last_frame_time s) (reconnect_attempts s) (frame_count s) (dropped_frames s)
       (fps_counter s) (processing_times s), false).

(** [_read_frame_sync]; [read] is what [self.cap.read()] delivers ([None]:
    no frame, or an exception, which the function swallows). *)
Definition _read_frame_sync (s : t) (read : option Frame) : t * option Frame :=
  if negb (cap_opened s) then (s, None)
  else
    match read with
    | Some frame =>
        (mkSession (is_active s) (cap_opened s) (frame_queue s) (frame_buffer_maxlen s)
           (deque_append (frame_buffer_maxlen s) (frame_buffer s) frame)
           (last_frame_time s) (reconnect_attempts s) (frame_count s) (dropped_frames s)
           (fps_counter s) (processing_times s), Some frame)
    | None => (s, None)
    end.

(** [1.0 / frame_interval if frame_interval > 0 else 0], the interval being
    [now - last] microseconds. *)
Definition fps_sample (last now : Z) : Q :=
  if bool_decide (0 < now - last)%Z then (inject_Z 1000000 / inject_Z (now - last))%Q
  else 0%Q.

(** One turn of [_capture_loop].  A frame that was read is counted, times
    the FPS estimate and is put on [frame_queue]; on [QueueFull] the oldest
    queued frame is taken off, the new one put, and the drop counted. *)
Definition capture_step (s : t) (read : option Frame) (now : Z) : t :=
  if negb (is_active s) then s
  else
    match _read_frame_sync s read with
    | (s1, None) => s1
    | (s1, Some frame) =>
        let fps :=
          match last_frame_time s1 with
          | Some last => deque_append 30 (fps_counter s1) (fps_sample last now)
          | None => fps_counter s1
          end in
        let with_queue (q : AsyncQueue.t (Frame * Z)) (dropped : Z) : t :=
          mkSession (is_active s1) (cap_opened s1) q (frame_buffer_maxlen s1)
            (frame_buffer s1) (Some now) (reconnect_attempts s1) (frame_count s1 + 1)%Z
            dropped fps (processing_times s1) in
        match AsyncQueue.put_nowait (frame_queue s1) (frame, now) with
        | Ok q => with_queue q (dropped_frames s1)
        | Raise _ =>
            match AsyncQueue.get_nowait (frame_queue s1) with
            | Raise _ => with_queue (frame_queue s1) (dropped_frames s1)
            | Ok (_, q1) =>
                match AsyncQueue.put_nowait q1 (frame, now) with
                | Raise _ => with_queue q1 (dropped_frames s1)
                | Ok q2 => with_queue q2 (dropped_frames s1 + 1)%Z
                end
            end
        end
    end.

(** One turn of [_processing_loop]: an empty queue ends the turn by
    [TimeoutError]; otherwise the oldest queued frame is taken.  The class
    defines no [_process_frame], so the call that follows raises
    [AttributeError], which the loop logs: nothing else changes. *)
Definition processing_step (s : t) : t * option (Frame * Z) :=
  if negb (is_active s) then (s, None)
  else
    match AsyncQueue.get_nowait (frame_queue s) with
    | Raise _ => (s, None)
    | Ok (item, q) =>
        (mkSession (is_active s) (cap_opened s) q (frame_buffer_maxlen s)
           (frame_buffer s) (last_frame_time s) (reconnect_attempts s) (frame_count s)
           (dropped_frames s) (fps_counter s) (processing_times s), Some item)
    end.

(** The capture loop fed with the frames [reads] at the given times. *)
Fixpoint capture_all (s : t) (reads : list (Frame * Z)) : t :=
  match reads with
  | [] => s
  | (f, now) :: rest => capture_all (capture_step s (Some f) now) rest
  end.

(** [n] turns of the processing loop and the frames they took, in order. *)
Fixpoint process_n (n : nat) (s : t) : t * list Frame :=
  match n with
  | O => (s, [])
  | S n' =>
      match processing_step s with
      | (s1, Some (f, _)) => let '(s2, fs) := process_n n' s1 in (s2, f :: fs)
      | (s1, None) => process_n n' s1
      end
  end.

(** [disconnect]: the capture is released and forgotten. *)
Definition disconnect (s : t) : t :=
  mkSession false false (frame_queue s) (frame_buffer_maxlen s) (frame_buffer s)
    (last_frame_time s) (reconnect_attempts s) (frame_count s) (dropped_frames s)
    (fps_counter s) (processing_times s).

(** [start_processing]: nothing on an active session; else [connect], and
    on success the two loops start. *)
Definition start_processing (s : t) (opened : bool) : t :=
  if is_active s then s else (connect s opened).1.

(** [stop_processing]: the flag is cleared, the two tasks are cancelled,
    the camera is disconnected.  The frame queue is left as it is. *)
Definition stop_processing (s : t) : t := disconnect s.

(** [reconnect]; [max_reconnect_attempts] is
    [config.cameras_config.get("max_reconnect_attempts", 5)]. *)
Definition reconnect (s : t) (max_reconnect_attempts : Z) (opened : bool) : t :=
  if bool_decide (max_reconnect_attempts ≤ reconnect_attempts s)%Z then disconnect s
  else
    let s1 :=
      mkSession (is_active s) (cap_opened s) (frame_queue s) (frame_buffer_maxlen s)
        (frame_buffer s) (last_frame_time s) (reconnect_attempts s + 1)%Z (frame_count s)
        (dropped_frames s) (fps_counter s) (processing_times s) in
    (connect (disconnect s1) opened).1.

(** [get_latest_frame]: [frame_buffer[-1]], or [None] on an empty buffer. *)
Definition get_latest_frame (s : t) : option Frame := last (frame_buffer s).

End StreamSession.

(** ** StreamManager._process_frame (stream_manager.py) *)

Module StreamManager.

(** What [cv2] reports of a contour: [contourArea] and [boundingRect]. *)
Record Contour : Type := mkContour {
  contourArea : Q;
  boundingRect : Z * Z * Z * Z
}.

(** What the [cv2] calls compute from the previous and the current frame:
    the count of non-zero pixels of the dilated difference mask and the
    external contours of that mask. *)
Record Vision : Type := mkVision {
  countNonZero : Z;
  findContours : list Contour
}.

Record AnalyticsConfig : Type := mkAnalytics {
  motion_threshold : option Z;
  detection_enabled : bool;
  analytics_model_id : option string
}.

(** The keys of the camera document read by [_process_frame]. *)
Record Camera : Type := mkCamera {
  motion_detection_enabled : option bool;
  analytics_config : option AnalyticsConfig
}.

Record BoundingBox : Type := mkBox {
  box_x : Z;
  box_y : Z;
  box_width : Z;
  box_height : Z;
  box_area : Z
}.

Record Event : Type := mkEvent {
  event_id : string;
  event_camera_id : string;
  event_type : string;
  event_timestamp : Z;
  motion_pixels : Z;
  contour_count : Z;
  bounding_boxes : list BoundingBox;
  event_created_at : Z
}.

(** [int(x)] on a float: truncation towards zero. *)
Definition int_of_Q (q : Q) : Z := Z.quot (Qnum q) (Zpos (Qden q)).

(** [cv2.contourArea(c) > 500]. *)
Definition significant (c : Contour) : bool :=
  match (500 ?= contourArea c)%Q with
  | Lt => true
  | _ => false
  end.

Definition box_of (c : Contour) : BoundingBox :=
  let '(x, y, w, h) := boundingRect c in
  mkBox x y w h (int_of_Q (contourArea c)).

(** [camera.get("analytics_config", {}).get("motion_threshold", 5000)]. *)
Definition get_motion_threshold (camera : Camera) : Z :=
  default 5000%Z
    (motion_threshold (default (mkAnalytics None false None) (analytics_config camera))).

(** [_process_frame], as far as motion detection goes: the events inserted
    into [db.camera_events].  [db_ok] tells whether [get_database()] and
    [insert_one] succeed; their exception is logged and the event lost. *)
Definition _process_frame (camera : Camera) (camera_id : string) (prev_frame : option nat)
    (cv : Vision) (uuid : string) (now : Z) (db_ok : bool) : list Event :=
  if negb (default false (motion_detection_enabled camera)) then []
  else
    match prev_frame with
    | None => []
    | Some _ =>
        let motion_pixels := countNonZero cv in
        let motion_threshold := get_motion_threshold camera in
        if bool_decide (motion_threshold < motion_pixels)%Z then
          if db_ok then
            let significant_contours := filter (λ c, significant c = true) (findContours cv) in
            [mkEvent uuid camera_id "motion_detected" now motion_pixels
               (Z.of_nat (length significant_contours))
               (box_of <$> take 10 significant_contours)
               now]
          else []
        else []
    end.

(** *** The registry of sessions

    [_sessions] holds each session with the camera document it was made
    for; [_capture_tasks] is kept by the ids of its tasks. *)
Record t : Type := mkManager {
  _sessions : gmap string (Camera * StreamSession.t);
  _capture_tasks : gset string;
  _running : bool
}.

(** [StreamManager()]. *)
Definition init : t := mkManager ∅ ∅ false.

Definition start (m : t) : t := mkManager (_sessions m) (_capture_tasks m) true.

(** [stop]: every task is cancelled, every session disconnected, both
    dictionaries are cleared. *)
Definition stop (m : t) : t := mkManager ∅ ∅ false.

(** [add_camera]; [camera_id] is [str(camera["_id"])], [max_frame_buffer]
    the configured buffer length, [opened] whether the capture opens. *)
Definition add_camera (m : t) (camera_id : string) (camera : Camera)
    (max_frame_buffer : option nat) (opened : bool) : t * bool :=
  if bool_decide (camera_id ∈ dom (_sessions m)) then (m, false)
  else
    match StreamSession.connect (StreamSession.init max_frame_buffer) opened with
    | (_, false) => (m, false)
    | (session, true) =>
        (mkManager (<[camera_id:=(camera, session)]> (_sessions m))
           ({[camera_id]} ∪ _capture_tasks m) (_running m), true)
    end.

(** [remove_camera]. *)
Definition remove_camera (m : t) (camera_id : string) : t :=
  mkManager (delete camera_id (_sessions m)) (_capture_tasks m ∖ {[camera_id]}) (_running m).

(** [get_session]. *)
Definition get_session (m : t) (camera_id : string) : option StreamSession.t :=
  snd <$> _sessions m !! camera_id.

(** How a capture task ended, and the frames it handed to
    [_process_frame]: it returned, it logged an exception caught by its
    [except Exception], or an exception left it. *)
Inductive task_end : Type :=
| TaskReturned
| TaskLogged (e : exn)
| TaskRaised (e : exn).

(** [StreamManager._capture_loop]: without a session the task returns.
    [default_fps] is the entry of that name in [config.cameras_config], a
    number; [1.0 / config.cameras_config.get("default_fps", 30)] is
    evaluated before the [try], so a configured 0 ends the task with
    [ZeroDivisionError].  The first turn of the loop calls
    [session.read_frame()], a method that [StreamSession] does not have:
    the [AttributeError] is caught by [except Exception], logged, and the
    task ends.  Neither the manager nor the session is changed. *)
Definition _capture_loop (m : t) (camera_id : string) (default_fps : option Z)
    : task_end * list StreamSession.Frame :=
  match get_session m camera_id with
  | None => (TaskReturned, [])
  | Some session =>
      if bool_decide (default 30%Z default_fps = 0%Z) then (TaskRaised ZeroDivisionError, [])
      else if _running m && bool_decide (camera_id ∈ dom (_sessions m))
      then (TaskLogged AttributeError, [])
      else (TaskReturned, [])
  end.

(** [get_frame_jpeg]; [imencode] is the JPEG encoder. *)
Definition get_frame_jpeg (m : t) (camera_id : string)
    (imencode : StreamSession.Frame → string) : option string :=
  match get_session m camera_id with
  | None => None
  | Some session =>
      match StreamSession.get_latest_frame session with
      | None => None
      | Some frame => Some (imencode frame)
      end
  end.

End StreamManager.

(** * Properties

    ** The vocabulary of the statements *)

(** Binary heaps stored in a list: the parent of position [i] is
    [(i - 1) >> 1]. *)
Module HeapOrder.
Section HeapOrder.
Context {A K : Type}.
Variable key : A → K.
Variable le : A → A → Prop.

Definition parent (i : nat) : nat := (i - 1) / 2.

(** Every item is at or above its parent: the heap invariant of heapq. *)
Definition heap_ok (h : list A) : Prop :=
  ∀ i x p, 0 < i → h !! i = Some x → h !! parent i = Some p → le p x.

Definition distinct_keys (h : list A) : Prop := NoDup (key <$> h).

(** While an item is sifted the list has a hole at [pos].  The three
    parts of the invariant of both loops: order away from the hole, the
    sifted item against the children of the hole, and the parent of the
    hole against the children of the hole. *)
Definition away_ok (h : list A) (pos : nat) : Prop :=
  ∀ i x p, 0 < i → i ≠ pos → parent i ≠ pos →
           h !! i = Some x → h !! parent i = Some p → le p x.

Definition below_ok (h : list A) (pos : nat) (newitem : A) : Prop :=
  ∀ c x, 0 < c → parent c = pos → h !! c = Some x → le newitem x.

Definition skip_ok (h : list A) (pos : nat) : Prop :=
  ∀ c x g, 0 < c → parent c = pos → 0 < pos →
           h !! c = Some x → h !! parent pos = Some g → le g x.
End HeapOrder.
End HeapOrder.

Module InferenceQueueSpec.
Import InferenceQueue.

(** The part of a queue tuple that orders it. *)
Definition entry_key (e : entry) : Z * Z := (entry_negprio e, entry_timestamp e).

Definition entry_le (a b : entry) : Prop :=
  (entry_negprio a < entry_negprio b)%Z
  ∨ (entry_negprio a = entry_negprio b ∧ entry_timestamp a ≤ entry_timestamp b)%Z.

(** [a] is due before [b]: higher priority, or the same priority and an
    earlier submission timestamp. *)
Definition dispatches_before (a b : entry) : Prop :=
  (entry_priority b < entry_priority a)%Z
  ∨ (entry_priority a = entry_priority b ∧ entry_timestamp a < entry_timestamp b)%Z.

Definition queue_wf (h : list entry) : Prop :=
  HeapOrder.heap_ok entry_le h ∧ HeapOrder.distinct_keys entry_key h.

(** The calls made on a queue, with what the outside world hands to each. *)
Inductive op : Type :=
| OpStart
| OpStop
| OpSubmit (uuid model_id image_data inference_type : string)
    (parameters : list (string * string)) (priority : Z) (now1 now2 : Z)
| OpWorkerGet (now : Z)
| OpWorkerFinish (jid : string) (res : string + string) (now : Z).

Definition step (q : t) (o : op) : t :=
  match o with
  | OpStart => start q
  | OpStop => stop q
  | OpSubmit uuid m img ty ps prio now1 now2 =>
      (submit_job q uuid m img ty ps prio now1 now2).1
  | OpWorkerGet now => (worker_get q now).1
  | OpWorkerFinish jid res now => worker_finish q jid res now
  end.

Definition run (q : t) (ops : list op) : t := foldl step q ops.

(** The queue timestamps read by the submissions of [ops], in order. *)
Fixpoint submit_times (ops : list op) : list Z :=
  match ops with
  | [] => []
  | OpSubmit _ _ _ _ _ _ _ now2 :: ops' => now2 :: submit_times ops'
  | _ :: ops' => submit_times ops'
  end.

(** The queue timestamp read by one call, if it is a submission. *)
Definition submit_time_of (o : op) : option Z :=
  match o with
  | OpSubmit _ _ _ _ _ _ _ now2 => Some now2
  | _ => None
  end.

(** The clock ticks between two submissions. *)
Definition clock_ticks (ops : list op) : Prop :=
  StronglySorted Z.lt (submit_times ops).

(** The jobs handed to workers by [n] successive turns, in order. *)
Fixpoint dispatch_n (n : nat) (q : t) (now : Z) : list string :=
  match n with
  | O => []
  | S n' =>
      match worker_get q now with
      | (q', Some e) => entry_job e :: dispatch_n n' q' now
      | (q', None) => dispatch_n n' q' now
      end
  end.

End InferenceQueueSpec.

Module ModelCacheSpec.
Import ModelCache.

(** The five dictionaries of a cache speak of the same models, and no
    size is negative. *)
Definition consistent (c : t) : Prop :=
  NoDup (OrderedDict.keys (access_order c))
  ∧ dom (models c) = list_to_set (OrderedDict.keys (access_order c))
  ∧ dom (model_sizes c) = dom (models c)
  ∧ map_Forall (λ _ s, 0 ≤ s)%Z (model_sizes c).

(** A consistent cache of the given limits that respects them: at most
    [mm] models, and more than [mem] MB only while it holds one model. *)
Definition within_bounds (mm mem : Z) (c : t) : Prop :=
  consistent c
  ∧ max_models c = mm ∧ max_memory_mb c = mem
  ∧ (cached_models c ≤ mm)%Z
  ∧ ((total_memory c ≤ mem)%Z ∨ ∃ k s, model_sizes c = {[k := s]}).

(** The counters of hits, misses and loads agree. *)
Definition same_counts (c c' : t) : Prop :=
  hits (stats c') = hits (stats c)
  ∧ misses (stats c') = misses (stats c)
  ∧ loads (stats c') = loads (stats c).

(** The calls made on a cache.  [OpAdd] is [_add_to_cache] on its own, the
    second critical section of a [get_model] whose first one lies further
    back in the sequence. *)
Inductive op : Type :=
| OpGet (model_id : string) (config : Config) (env : Env)
| OpAdd (model_id : string) (model : Handle) (config : Config) (env : Env)
| OpInvalidate (model_id : string)
| OpClear.

(** The cache after a call; [None] when the call does not return. *)
Definition step (c : t) (o : op) : option t :=
  match o with
  | OpGet model_id config env => (get_model c model_id config env).1.1
  | OpAdd model_id model config env =>
      match _add_to_cache c model_id model config env with
      | Ok c' => Some c'
      | Raise _ => None
      end
  | OpInvalidate model_id => Some (invalidate c model_id)
  | OpClear => Some (clear c)
  end.

Fixpoint run (c : t) (ops : list op) : option t :=
  match ops with
  | [] => Some c
  | o :: ops' =>
      match step c o with
      | Some c' => run c' ops'
      | None => None
      end
  end.

(** *** Callers of [get_model] that overlap

    The lock is held for the lookup and again for the installation; a
    caller is between the two while its model loads, and another caller may
    take the lock then.  A caller is in one of these phases. *)
Inductive phase : Type :=
| Called                                  (* get_model entered *)
| Missed                                  (* miss counted, lock released *)
| Loaded (model : Handle)                 (* _load_model returned *)
| Returned (model : Handle) (loaded : bool)
| Raised (e : exn) (provider_called : bool)
| Stuck.                                  (* _add_to_cache does not return *)

Record world : Type := mkWorld {
  cache : t;
  provider_calls : list LoadCall;
  callers : list phase
}.

(** Caller [i] of [get_model(model_id, config)] runs up to its next
    release of the lock. *)
Definition caller_step (model_id : string) (config : Config) (w : world)
    (i : nat) (env : Env) : world :=
  match callers w !! i with
  | Some Called =>
      match get_model_lookup (cache w) model_id with
      | Raise e => mkWorld (cache w) (provider_calls w) (<[i:=Raised e false]> (callers w))
      | Ok (c1, Some model) =>
          mkWorld c1 (provider_calls w) (<[i:=Returned model false]> (callers w))
      | Ok (c1, None) => mkWorld c1 (provider_calls w) (<[i:=Missed]> (callers w))
      end
  | Some Missed =>
      match _load_model (cache w) model_id config env with
      | (c2, calls, Raise e) =>
          mkWorld c2 (provider_calls w ++ calls)
            (<[i:=Raised e (bool_decide (calls ≠ []))]> (callers w))
      | (c2, calls, Ok model) =>
          mkWorld c2 (provider_calls w ++ calls) (<[i:=Loaded model]> (callers w))
      end
  | Some (Loaded model) =>
      match _add_to_cache (cache w) model_id model config env with
      | Ok c3 => mkWorld c3 (provider_calls w) (<[i:=Returned model true]> (callers w))
      | Raise NonTermination => mkWorld (cache w) (provider_calls w) (<[i:=Stuck]> (callers w))
      | Raise e => mkWorld (cache w) (provider_calls w) (<[i:=Raised e true]> (callers w))
      end
  | _ => w
  end.

(** A schedule names, turn by turn, the caller that runs and what the
    outside world hands to it. *)
Definition run_schedule (model_id : string) (config : Config) (w : world)
    (sched : list (nat * Env)) : world :=
  foldl (λ w turn, caller_step model_id config w turn.1 turn.2) w sched.

(** [K] callers enter [get_model] on cache [c]. *)
Definition entered (c : t) (K : nat) : world := mkWorld c [] (replicate K Called).

Definition returned (p : phase) : bool :=
  match p with Returned _ _ => true | _ => false end.

Definition calls_of (p : phase) : nat :=
  match p with
  | Loaded _ | Returned _ true | Raised _ true | Stuck => 1
  | _ => 0
  end.

(** Every provider call is accounted for by a caller, a cached model was
    loaded by one of the callers, and so was a model returned on a hit. *)
Definition accounted (model_id : string) (w : world) : Prop :=
  length (provider_calls w) = sum_list (calls_of <$> callers w)
  ∧ (∀ h, models (cache w) !! model_id = Some h → Returned h true ∈ callers w)
  ∧ (∀ h, Returned h false ∈ callers w → Returned h true ∈ callers w).

(** The callers one after the other: each makes its three turns before the
    next one starts. *)
Fixpoint one_by_one_from (i : nat) (envs : list Env) : list (nat * Env) :=
  match envs with
  | [] => []
  | env :: rest => (i, env) :: (i, env) :: (i, env) :: one_by_one_from (S i) rest
  end.

Definition one_by_one (envs : list Env) : list (nat * Env) := one_by_one_from 0 envs.

(** Two callers whose loads overlap: both look the key up before either
    has installed its model. *)
Definition overlapped (env0 env1 : Env) : list (nat * Env) :=
  [(0, env0); (1, env1); (0, env0); (1, env1); (0, env0); (1, env1)].

End ModelCacheSpec.

Module StreamSpec.
Import StreamSession.

(** A session whose frame queue was made with another capacity. *)
Definition with_capacity (maxsize : Z) (s : t) : t :=
  mkSession (is_active s) (cap_opened s) (AsyncQueue.mkAsyncQueue maxsize [])
    (frame_buffer_maxlen s) (frame_buffer s) (last_frame_time s) (reconnect_attempts s)
    (frame_count s) (dropped_frames s) (fps_counter s) (processing_times s).

(** The frames [F first], ..., [F (first + n - 1)], frame [F i] read at
    time [i]. *)
Definition frames (first n : nat) : list (Frame * Z) :=
  (λ i, (i, Z.of_nat i)) <$> seq first n.

End StreamSpec.

(** ** Runs of the scheduler, the registries, the cache and the sessions *)

Module SchedulerSpec.
Import InferenceQueue.

(** The events of a scheduler: the calls of its methods and the turns of
    its worker tasks, with what the outside world hands to each. *)
Inductive event : Type :=
| Start
| Stop
| Submit (uuid model_id image_data inference_type : string)
    (parameters : list (string * string)) (priority : Z) (now1 now2 : Z)
| Take (w : nat) (now now2 : Z)
| Resume (w : nat) (yolo_service : YOLOService.t) (env : JobEnv) (now : Z).

Definition sched_step (s : Scheduler) (ev : event) : Scheduler :=
  match ev with
  | Start => sched_start s
  | Stop => sched_stop s
  | Submit uuid m img ty ps prio now1 now2 =>
      (sched_submit s uuid m img ty ps prio now1 now2).1
  | Take w now now2 => worker_take s w now now2
  | Resume w yolo_service env now => worker_resume s w yolo_service env now
  end.

Definition sched_run (s : Scheduler) (evs : list event) : Scheduler :=
  foldl sched_step s evs.

(** The queue timestamp and the [uuid4()] read by an event, if it is a
    submission. *)
Definition stamp_of (ev : event) : option Z :=
  match ev with
  | Submit _ _ _ _ _ _ _ now2 => Some now2
  | _ => None
  end.

Definition uuid_of (ev : event) : option string :=
  match ev with
  | Submit uuid _ _ _ _ _ _ _ => Some uuid
  | _ => None
  end.

Definition stamps (evs : list event) : list Z := omap stamp_of evs.
Definition uuids (evs : list event) : list string := omap uuid_of evs.

(** The scheduler made by [InferenceQueue(mw, mq)] under the setting [iw],
    after the events [evs]. *)
Definition reached (iw : nat) (mw : option nat) (mq : Z) (evs : list event) : Scheduler :=
  sched_run (new_scheduler iw mw mq) evs.

(** [uuid4()] never repeats. *)
Definition fresh_ids (evs : list event) : Prop := NoDup (uuids evs).

(** Besides, the queue timestamps read by the submissions strictly
    increase: the clock ticks between two submissions. *)
Definition well_fed (evs : list event) : Prop :=
  StronglySorted Z.lt (stamps evs) ∧ fresh_ids evs.

(** The number of registered jobs in a status. *)
Definition count (st : InferenceStatus) (q : t) : nat := length (jobs_with st q).

(** The fields of a job agree with its status. *)
Definition job_coherent (j : InferenceJob) : Prop :=
  match status j with
  | PENDING =>
      started_at j = None ∧ completed_at j = None ∧ result j = None ∧ error j = None
  | PROCESSING =>
      is_Some (started_at j) ∧ completed_at j = None ∧ result j = None ∧ error j = None
  | COMPLETED =>
      is_Some (started_at j) ∧ is_Some (completed_at j) ∧ is_Some (result j) ∧ error j = None
  | FAILED =>
      is_Some (started_at j) ∧ is_Some (completed_at j) ∧ result j = None ∧ is_Some (error j)
  end.

(** What holds of every scheduler between two events, whatever the clock
    reads. *)
Record sched_inv (s : Scheduler) : Prop := mkSchedInv {
  inv_queued_once : NoDup (entry_job <$> queue (the_queue s));
  inv_queued_pending :
    ∀ e, e ∈ queue (the_queue s) →
         status <$> jobs (the_queue s) !! entry_job e = Some PENDING;
  inv_pending_queued : length (queue (the_queue s)) ≤ count PENDING (the_queue s);
  inv_held_processing :
    ∀ w jid, holding s !! w = Some jid →
             status <$> jobs (the_queue s) !! jid = Some PROCESSING;
  inv_held_once :
    ∀ w w' jid, holding s !! w = Some jid → holding s !! w' = Some jid → w = w';
  inv_held_worker : ∀ w, is_Some (holding s !! w) → w ∈ workers (the_queue s);
  inv_workers :
    workers (the_queue s)
    = if _running (the_queue s) then seq 0 (max_workers (the_queue s)) else [];
  inv_shutdown : thread_pool_shutdown s = true → holding s = ∅;
  inv_in_flight :
    thread_pool_shutdown s = false → count PROCESSING (the_queue s) = size (holding s);
  inv_bound : count PROCESSING (the_queue s) ≤ max_workers (the_queue s);
  inv_ids : ∀ jid j, jobs (the_queue s) !! jid = Some j → job_id j = jid;
  inv_coherent : ∀ jid j, jobs (the_queue s) !! jid = Some j → job_coherent j;
  inv_total : total_jobs (stats (the_queue s)) = Z.of_nat (size (jobs (the_queue s)));
  inv_completed :
    completed_jobs (stats (the_queue s)) = Z.of_nat (count COMPLETED (the_queue s));
  inv_failed : failed_jobs (stats (the_queue s)) = Z.of_nat (count FAILED (the_queue s));
  inv_active_workers : active_workers (stats (the_queue s)) = 0%Z
}.

(** What holds besides while the clock ticks: the heap is ordered, and
    every pending job is queued. *)
Definition sched_tidy (s : Scheduler) : Prop :=
  InferenceQueueSpec.queue_wf (queue (the_queue s))
  ∧ length (queue (the_queue s)) = count PENDING (the_queue s).

(** After the thread pool was shut down, a job is as it was then, or
    pending, or failed for the shutdown. *)
Definition since_shutdown (s0 s : Scheduler) : Prop :=
  ∀ jid j, jobs (the_queue s) !! jid = Some j →
    jobs (the_queue s0) !! jid = Some j
    ∨ status j = PENDING
    ∨ (status j = FAILED ∧ error j = Some shutdown_text ∧ result j = None).

(** The place of a status in the life of a job. *)
Definition rank (st : InferenceStatus) : nat :=
  match st with
  | PENDING => 0
  | PROCESSING => 1
  | COMPLETED | FAILED => 2
  end.

(** What a job was submitted with. *)
Definition request (j : InferenceJob)
    : string * string * string * string * list (string * string) * Z * Z :=
  (job_id j, model_id j, image_data j, inference_type j, parameters j, created_at j,
   priority j).

(** Job [j'] is job [j] later in its life. *)
Definition moved_on (j j' : InferenceJob) : Prop :=
  request j' = request j
  ∧ rank (status j) ≤ rank (status j')
  ∧ (rank (status j) = 2 → j' = j).

(** A run that leaves two workers at work on two of three jobs, and a
    continuation that stops the queue, starts it again and takes a job. *)
Definition sample_busy : list event :=
  [Start;
   Submit "J1" "yolov8n" "img" "detect" [] 1 100 101;
   Submit "J2" "yolov8n" "img" "detect" [] 5 102 103;
   Submit "J3" "yolov8n" "img" "classify" [] 1 104 105;
   Take 0 200 201;
   Take 1 202 203].

Definition sample_restart : list event :=
  [Start; Submit "J4" "yolov8n" "img" "detect" [] 1 300 301; Take 0 400 401].

(** Two jobs of priority [p] whose submissions read the same queue
    timestamp [t], and a job of higher priority [pb] submitted between
    them. *)
Definition tied (p pb t tb : Z) : list event :=
  [Start;
   Submit "JA" "yolov8n" "img" "detect" [] p t t;
   Submit "JB" "yolov8n" "img" "detect" [] pb tb tb;
   Submit "JC" "yolov8n" "img" "detect" [] p t t].

End SchedulerSpec.

Module YOLOServiceSpec.
Import YOLOService.

(** The calls that change the registry of a YOLO service. *)
Inductive registry_call : Type :=
| Load (model_path : string) (model_id : option string) (stem : string) (made : result YOLO)
| Unload (model_id : string).

Definition step (s : t) (c : registry_call) : t :=
  match c with
  | Load model_path model_id stem made => (load_model s model_path model_id stem made).1
  | Unload model_id => (unload_model s model_id).1
  end.

Definition run (s : t) (cs : list registry_call) : t := foldl step s cs.


End YOLOServiceSpec.

Module EvictionSpec.
Import ModelCache ModelCacheSpec.

(** [n] evictions of the least recently used model, one after the other. *)
Definition evict_n (n : nat) (c : t) : t := Nat.iter n _evict_lru_model c.

(** The calls of [get_model] among the calls made on a cache. *)
Fixpoint gets (ops : list op) : Z :=
  match ops with
  | [] => 0
  | OpGet _ _ _ :: ops' => 1 + gets ops'
  | _ :: ops' => gets ops'
  end%Z.

(** A sequence made of whole calls: [get_model], [invalidate], [clear]. *)
Definition whole_calls (ops : list op) : Prop :=
  Forall (λ o, match o with OpAdd _ _ _ _ => False | _ => True end) ops.

(** The counters of a cache are in order: every load follows a miss, and
    every model that is cached or was evicted was loaded. *)
Definition counters_ok (c : t) : Prop :=
  (0 ≤ hits (stats c) ∧ 0 ≤ evictions (stats c)
   ∧ 0 ≤ loads (stats c) ≤ misses (stats c)
   ∧ cached_models c + evictions (stats c) ≤ loads (stats c))%Z.

(** Loads of 100 MB models from local files: what the outside world hands
    to a [get_model] that loads handle [h] at time [now]. *)
Definition loading (h : Handle) (now : Z) : Env := mkEnv (Ok tt) (Ok h) None now.

Definition local_file (k : string) : Config := mkConfig None (Some ("/models/" +:+ k)).

(** A new cache after the calls [ops] (the new cache itself, should a call
    not return), and a cache after one more [get_model]. *)
Definition after (mm mem : Z) (ops : list op) : t :=
  default (init mm mem 3600) (run (init mm mem 3600) ops).

Definition got (c : t) (k : string) (h : Handle) (now : Z) : t :=
  default c (get_model c k (local_file k) (loading h now)).1.1.

(** Two models loaded into a cache with room for two models and 300 MB:
    the first takes 200 MB, the second 100 MB. *)
Definition sample_full : list op :=
  [OpGet "m1" (local_file "m1") (mkEnv (Ok tt) (Ok 1) (Some 2000%Z) 10);
   OpGet "m2" (local_file "m2") (loading 2 11)].

(** Calls that hit, miss, fail to load, evict and invalidate. *)
Definition sample_calls : list op :=
  [OpGet "m1" (local_file "m1") (loading 1 10);
   OpGet "m2" (local_file "m2") (loading 2 11);
   OpGet "m1" (local_file "m1") (loading 3 12);
   OpGet "m3" (local_file "m3") (mkEnv (Ok tt) (Raise (ProviderError "corrupt")) None 13);
   OpGet "m3" (local_file "m3") (loading 4 14);
   OpInvalidate "m1"].

(** Two callers of [get_model("m1")] whose loads overlap, on a cache with
    room for three models: both miss before either installs its model.  The
    first installs, a [get_model("m2")] follows, then the second installs. *)
Definition overlap_world : world :=
  let w1 := run_schedule "m1" (local_file "m1") (entered (init 3 4096 3600) 2)
              [(0, loading 1 10); (1, loading 2 11); (0, loading 1 10); (0, loading 1 10)] in
  run_schedule "m1" (local_file "m1")
    (mkWorld (got (cache w1) "m2" 3 12) (provider_calls w1) (callers w1))
    [(1, loading 2 13); (1, loading 2 13)].

(** Two more models are loaded then. *)
Definition overlap_then_two : t := got (got (cache overlap_world) "m3" 4 14) "m4" 5 15.

(** The run of the specification: room for 100 models and 300 MB, three
    loads of 100 MB, a hit on the first model and a fourth load. *)
Definition sample_lru : list op :=
  [OpGet "m1" (local_file "m1") (loading 1 10);
   OpGet "m2" (local_file "m2") (loading 2 11);
   OpGet "m3" (local_file "m3") (loading 3 12);
   OpGet "m1" (local_file "m1") (loading 4 13);
   OpGet "m4" (local_file "m4") (loading 5 14)].


End EvictionSpec.

Module SessionSpec.
Import StreamSession.

(** The events of a session: the calls of its methods and the turns of its
    two loops, with what the outside world hands to each. *)
Inductive event : Type :=
| Connect (opened : bool)
| Disconnect
| StartProcessing (opened : bool)
| StopProcessing
| Reconnect (max_reconnect_attempts : Z) (opened : bool)
| Capture (read : option Frame) (now : Z)
| Process.

(** The session after an event, and the frame that the processing loop
    took off the queue, if it took one. *)
Definition step (s : t) (ev : event) : t * option Frame :=
  match ev with
  | Connect opened => ((connect s opened).1, None)
  | Disconnect => (disconnect s, None)
  | StartProcessing opened => (start_processing s opened, None)
  | StopProcessing => (stop_processing s, None)
  | Reconnect max_reconnect_attempts opened => (reconnect s max_reconnect_attempts opened, None)
  | Capture read now => (capture_step s read now, None)
  | Process => let '(s', item) := processing_step s in (s', fst <$> item)
  end.

(** The frame that the capture loop counted at an event, if it counted
    one: the frame read, when the turn raised [frame_count]. *)
Definition counted (s : t) (ev : event) : option Frame :=
  match ev with
  | Capture (Some frame) now =>
      if bool_decide (frame_count (capture_step s (Some frame) now) = frame_count s + 1)%Z
      then Some frame else None
  | _ => None
  end.

Record trace : Type := mkTrace {
  session : t;
  captured : list Frame;     (* the frames counted, in order *)
  processed : list Frame     (* the frames taken by the processing loop, in order *)
}.

Definition trace_step (tr : trace) (ev : event) : trace :=
  let '(s', taken) := step (session tr) ev in
  mkTrace s' (captured tr ++ option_list (counted (session tr) ev))
    (processed tr ++ option_list taken).

Definition run (s : t) (evs : list event) : trace :=
  foldl trace_step (mkTrace s [] []) evs.

(** The frames waiting in the queue, oldest first. *)
Definition queued (s : t) : list Frame := fst <$> AsyncQueue.items (frame_queue s).


End SessionSpec.

Module ManagerSpec.
Import StreamManager.

(** The calls made on the stream manager by the application and the
    camera routes, and the runs of its capture tasks. *)
Inductive event : Type :=
| Start
| Stop
| AddCamera (camera_id : string) (camera : Camera) (max_frame_buffer : option nat)
    (opened : bool)
| RemoveCamera (camera_id : string)
| CaptureTask (camera_id : string).

Definition step (m : t) (ev : event) : t :=
  match ev with
  | Start => start m
  | Stop => stop m
  | AddCamera camera_id camera max_frame_buffer opened =>
      (add_camera m camera_id camera max_frame_buffer opened).1
  | RemoveCamera camera_id => remove_camera m camera_id
  | CaptureTask camera_id => m
  end.

Definition run (m : t) (evs : list event) : t := foldl step m evs.

(** Every session of the registry has its capture task, is connected and
    has never read a frame. *)
Definition registry_ok (m : t) : Prop :=
  dom (_sessions m) = _capture_tasks m
  ∧ map_Forall (λ _ cs,
      StreamSession.is_active cs.2 = true
      ∧ StreamSession.cap_opened cs.2 = true
      ∧ StreamSession.frame_buffer cs.2 = []
      ∧ StreamSession.frame_count cs.2 = 0%Z) (_sessions m).

End ManagerSpec.

(** ** heapq keeps its heap ordered *)

Module HeapqFacts.
Import Heapq HeapOrder.
Section HeapqFacts.
Context {A K : Type}.
Variable lt : A → A → outcome bool.
Variable key : A → K.
Variable le : A → A → Prop.
Hypothesis le_refl : ∀ a, le a a.
Hypothesis le_trans : ∀ a b c, le a b → le b c → le a c.
Hypothesis lt_true : ∀ a b, lt a b = Ok true → le a b.
Hypothesis lt_false : ∀ a b, lt a b = Ok false → le b a.
Hypothesis lt_defined : ∀ a b, key a ≠ key b → ∃ r, lt a b = Ok r.

Lemma parent_lt i : 0 < i → parent i < i.
Proof.
  intros Hi. unfold parent.
  assert ((i - 1) / 2 ≤ i - 1) by (apply Nat.Div0.div_le_upper_bound; lia).
  lia.
Qed.

Lemma parent_children c pos : 0 < c → parent c = pos → c = 2 * pos + 1 ∨ c = 2 * pos + 2.
Proof.
  unfold parent. intros Hc <-.
  pose proof (Nat.div_mod_eq (c - 1) 2) as E.
  pose proof (Nat.mod_upper_bound (c - 1) 2). lia.
Qed.

Lemma parent_left pos : parent (2 * pos + 1) = pos.
Proof.
  unfold parent. replace (2 * pos + 1 - 1) with (pos * 2) by lia.
  apply Nat.div_mul. lia.
Qed.

Lemma parent_right pos : parent (2 * pos + 1 + 1) = pos.
Proof.
  unfold parent. replace (2 * pos + 1 + 1 - 1) with (1 + pos * 2) by lia.
  rewrite Nat.div_add by lia. reflexivity.
Qed.

(** The root of an ordered heap is below every item. *)
Lemma heap_ok_root_min (h : list A) r :
  heap_ok le h → h !! 0 = Some r → ∀ i x, h !! i = Some x → le r x.
Proof.
  intros Hh Hr i. induction (lt_wf i) as [i _ IH]. intros x Hx.
  destruct (decide (i = 0)) as [->|Hi].
  - rewrite Hr in Hx. injection Hx as <-. apply le_refl.
  - assert (Hp : parent i < i) by (apply parent_lt; lia).
    destruct (lookup_lt_is_Some_2 h (parent i)) as [p Hpx].
    { apply lookup_lt_Some in Hx. lia. }
    eapply le_trans; [apply (IH _ Hp _ Hpx)|].
    apply (Hh i x p); [lia|done..].
Qed.

(** Writing [x] at [i] where [j] holds [y], and [y] at ... : a swap. *)
Lemma insert_cons_Permutation (l : list A) j x y :
  l !! j = Some y → y :: <[j:=x]> l ≡ₚ x :: l.
Proof.
  revert j. induction l as [|a l IH]; intros [|j] Hj; simplify_eq/=.
  - apply Permutation_swap.
  - etransitivity; [apply Permutation_swap|].
    etransitivity; [|apply Permutation_swap].
    constructor. by apply IH.
Qed.

Lemma hole_move_Permutation (h : list A) i j x y :
  i ≠ j → i < length h → h !! j = Some y →
  <[j:=x]> (<[i:=y]> h) ≡ₚ <[i:=x]> h.
Proof.
  revert i j. induction h as [|a h IH]; intros i j Hij Hi Hj; [simpl in Hi; lia|].
  destruct i as [|i], j as [|j]; simplify_eq/=.
  - apply insert_cons_Permutation; done.
  - rewrite <-(list_insert_insert_eq h i y x).
    apply insert_cons_Permutation, list_lookup_insert_eq. lia.
  - constructor. apply IH; [congruence|lia|done].
Qed.

Lemma distinct_keys_lookup (v : list A) i j x y :
  distinct_keys key v → i ≠ j → v !! i = Some x → v !! j = Some y → key x ≠ key y.
Proof.
  intros Hnd Hij Hi Hj Heq. apply Hij.
  apply (NoDup_lookup (key <$> v) i j (key x) Hnd).
  - by rewrite list_lookup_fmap, Hi.
  - by rewrite list_lookup_fmap, Hj, Heq.
Qed.

Lemma distinct_keys_Permutation (v w : list A) :
  v ≡ₚ w → distinct_keys key v → distinct_keys key w.
Proof. unfold distinct_keys. intros Hp. by rewrite Hp. Qed.

(** The hole at [pos] may be filled: the heap is ordered. *)
Lemma fill_hole_heap_ok (h : list A) pos newitem :
  pos < length h →
  away_ok le h pos → below_ok le h pos newitem →
  (0 < pos → ∀ p, h !! parent pos = Some p → le p newitem) →
  heap_ok le (<[pos:=newitem]> h).
Proof.
  intros Hlen Ha Hb Hp i x p Hi Hx Hpx.
  destruct (decide (i = pos)) as [->|Hne].
  - rewrite list_lookup_insert_eq in Hx by done. injection Hx as <-.
    rewrite list_lookup_insert_ne in Hpx by (pose proof (parent_lt pos Hi); lia).
    by apply Hp.
  - rewrite list_lookup_insert_ne in Hx by done.
    destruct (decide (parent i = pos)) as [Hpi|Hpi].
    + rewrite Hpi, list_lookup_insert_eq in Hpx by done. injection Hpx as <-.
      by apply (Hb i).
    + rewrite list_lookup_insert_ne in Hpx by done. by apply (Ha i).
Qed.

Lemma swap_Permutation (h : list A) i j x y :
  h !! i = Some x → h !! j = Some y → <[i:=y]> (<[j:=x]> h) ≡ₚ h.
Proof.
  intros Hi Hj. destruct (decide (i = j)) as [->|Hij].
  - rewrite list_insert_insert_eq. simplify_eq. by rewrite list_insert_id.
  - rewrite (hole_move_Permutation h j i y x); [|done| |done].
    + by rewrite list_insert_id.
    + by apply lookup_lt_Some in Hj.
Qed.

Lemma siftdown_loop_0 (h : list A) startpos pos :
  siftdown_loop lt 0 h startpos pos =
  if decide (startpos < pos) then (h, Raise NonTermination) else (h, Ok tt).
Proof. reflexivity. Qed.

Lemma siftdown_loop_S fuel (h : list A) startpos pos :
  siftdown_loop lt (S fuel) h startpos pos =
  if decide (startpos < pos) then
    match h !! pos, h !! parent pos with
    | Some newitem, Some p =>
        match lt newitem p with
        | Raise e => (h, Raise e)
        | Ok false => (h, Ok tt)
        | Ok true =>
            siftdown_loop lt fuel (<[pos:=p]> (<[parent pos:=newitem]> h))
              startpos (parent pos)
        end
    | _, _ => (h, Raise IndexError)
    end
  else (h, Ok tt).
Proof. reflexivity. Qed.

(** Whatever the comparisons answer, sifting only swaps items. *)
Lemma siftdown_loop_Permutation fuel : ∀ (h : list A) startpos pos h' r,
  siftdown_loop lt fuel h startpos pos = (h', r) → h' ≡ₚ h.
Proof.
  induction fuel as [|fuel IH]; intros h startpos pos h' r.
  - rewrite siftdown_loop_0. case_decide; intros [= <- _]; done.
  - rewrite siftdown_loop_S. case_decide; [|intros [= <- _]; done].
    destruct (h !! pos) as [newitem|] eqn:Hn; [|intros [= <- _]; done].
    destruct (h !! parent pos) as [p|] eqn:Hp; [|intros [= <- _]; done].
    destruct (lt newitem p) as [[|]|e]; [|intros [= <- _]; done..].
    intros Hrun. rewrite (IH _ _ _ _ _ Hrun). by apply swap_Permutation.
Qed.

Lemma siftdown_Permutation (h : list A) startpos pos h' r :
  siftdown lt h startpos pos = (h', r) → h' ≡ₚ h.
Proof.
  unfold siftdown. case_decide; [|intros [= <- _]; done].
  apply siftdown_loop_Permutation.
Qed.

Lemma limit_children endpos pos : pos < endpos / 2 ↔ 2 * pos + 1 < endpos.
Proof.
  pose proof (Nat.div_mod_eq endpos 2) as E.
  pose proof (Nat.mod_upper_bound endpos 2). lia.
Qed.

Lemma siftup_loop_leaf fuel (h : list A) endpos pos :
  endpos ≤ 2 * pos + 1 → siftup_loop lt fuel h endpos pos = (h, Ok pos).
Proof.
  intros Hle. assert (Hn : ¬ pos < endpos / 2) by (rewrite limit_children; lia).
  destruct fuel; cbn -[Nat.div Nat.mul]; rewrite decide_False by done; done.
Qed.

Lemma siftup_loop_S fuel (h : list A) endpos pos :
  2 * pos + 1 < endpos →
  siftup_loop lt (S fuel) h endpos pos =
  match smaller_child lt h endpos (2 * pos + 1) with
  | Raise e => (h, Raise e)
  | Ok c =>
      match h !! c, h !! pos with
      | Some tmp1, Some tmp2 =>
          siftup_loop lt fuel (<[pos:=tmp1]> (<[c:=tmp2]> h)) endpos c
      | _, _ => (h, Raise IndexError)
      end
  end.
Proof.
  intros Hlt. change (siftup_loop lt (S fuel) h endpos pos) with
    (if decide (pos < endpos / 2) then
       match smaller_child lt h endpos (2 * pos + 1) with
       | Raise e => (h, Raise e)
       | Ok c =>
           match h !! c, h !! pos with
           | Some tmp1, Some tmp2 =>
               siftup_loop lt fuel (<[pos:=tmp1]> (<[c:=tmp2]> h)) endpos c
           | _, _ => (h, Raise IndexError)
           end
       end
     else (h, Ok pos)).
  rewrite decide_True; [done|]. by apply limit_children.
Qed.

Lemma siftup_loop_Permutation fuel : ∀ (h : list A) endpos pos h' r,
  siftup_loop lt fuel h endpos pos = (h', r) → h' ≡ₚ h.
Proof.
  induction fuel as [|fuel IH]; intros h endpos pos h' r.
  - cbn -[Nat.div Nat.mul]. case_decide; intros [= <- _]; done.
  - destruct (decide (2 * pos + 1 < endpos)) as [Hchild|Hleaf]; cycle 1.
    { rewrite siftup_loop_leaf by lia. intros [= <- _]; done. }
    rewrite siftup_loop_S by done.
    destruct (smaller_child lt h endpos (2 * pos + 1)) as [c|e];
      [|intros [= <- _]; done].
    destruct (h !! c) as [tmp1|] eqn:Hc; [|intros [= <- _]; done].
    destruct (h !! pos) as [tmp2|] eqn:Hp; [|intros [= <- _]; done].
    intros Hrun. rewrite (IH _ _ _ _ _ Hrun). by apply swap_Permutation.
Qed.

Lemma siftup_Permutation (h : list A) pos h' r :
  siftup lt h pos = (h', r) → h' ≡ₚ h.
Proof.
  unfold siftup. case_decide; [|intros [= <- _]; done].
  destruct (siftup_loop lt (length h) h (length h) pos) as [h1 [pos'|e]] eqn:Hloop.
  - intros Hd. rewrite (siftdown_Permutation _ _ _ _ _ Hd).
    by apply (siftup_loop_Permutation _ _ _ _ _ _ Hloop).
  - intros [= <- _]. by apply (siftup_loop_Permutation _ _ _ _ _ _ Hloop).
Qed.

(** [heappush] leaves the heap with the item added, also when it
    raises. *)
Lemma heappush_Permutation (h : list A) item h' r :
  heappush lt h item = (h', r) → h' ≡ₚ item :: h.
Proof.
  unfold heappush. intros Hd. rewrite (siftdown_Permutation _ _ _ _ _ Hd).
  by rewrite Permutation_app_comm.
Qed.

(** [heappop] takes one item off the heap whenever the heap is not
    empty, also when it raises: the item it was about to return is then
    lost. *)
Lemma heappop_Permutation (h : list A) h' r :
  heappop lt h = (h', r) → h ≠ [] →
  ∃ x, h !! 0 = Some x ∧ h ≡ₚ x :: h' ∧ ∀ y, r = Ok y → y = x.
Proof.
  unfold heappop. intros Hpop Hne.
  destruct (last h) as [lastelt|] eqn:Hlast; [|by apply last_None in Hlast].
  apply last_Some in Hlast as [rest ->].
  rewrite removelast_last in Hpop.
  destruct rest as [|x tl].
  { injection Hpop as <- <-. exists lastelt. split; [done|]. split; [done|].
    by intros y [= <-]. }
  exists x. split; [done|].
  change (<[0:=lastelt]> (x :: tl)) with (lastelt :: tl) in Hpop.
  destruct (siftup lt (lastelt :: tl) 0) as [h2 r2] eqn:Hs.
  apply siftup_Permutation in Hs.
  assert (h' = h2) as -> by (by destruct r2; injection Hpop as <- _).
  split.
  - rewrite Hs. simpl. constructor. by rewrite Permutation_app_comm.
  - intros y ->. destruct r2; by simplify_eq.
Qed.

(** The first comparison of a sift decides alone when it raises. *)
Lemma siftdown_first_raises (h : list A) pos newitem p e :
  0 < pos → h !! pos = Some newitem → h !! parent pos = Some p →
  lt newitem p = Raise e →
  siftdown lt h 0 pos = (h, Raise e).
Proof.
  intros Hpos Hn Hp Hlt. unfold siftdown.
  rewrite decide_True by (by apply lookup_lt_Some in Hn).
  destruct pos as [|pos]; [lia|].
  rewrite siftdown_loop_S, decide_True by lia. by rewrite Hn, Hp, Hlt.
Qed.

Lemma swap_hole (h : list A) i j x y :
  i ≠ j → <[i:=y]> (<[j:=x]> (<[i:=x]> h)) = <[j:=x]> (<[i:=y]> h).
Proof.
  intros Hij. rewrite list_insert_insert_ne by done.
  by rewrite list_insert_insert_eq.
Qed.

Lemma siftdown_loop_spec fuel (h : list A) pos newitem :
  pos ≤ fuel → pos < length h →
  distinct_keys key (<[pos:=newitem]> h) →
  away_ok le h pos → below_ok le h pos newitem → skip_ok le h pos →
  ∃ h', siftdown_loop lt fuel (<[pos:=newitem]> h) 0 pos = (h', Ok tt)
        ∧ heap_ok le h' ∧ h' ≡ₚ <[pos:=newitem]> h.
Proof.
  revert h pos. induction fuel as [|fuel IH]; intros h pos Hfuel Hlen Hnd Ha Hb Hc.
  - assert (pos = 0) as -> by lia. rewrite siftdown_loop_0, decide_False by lia.
    eexists; split; [done|]. split; [|done].
    apply fill_hole_heap_ok; [done..|lia].
  - rewrite siftdown_loop_S.
    destruct (decide (0 < pos)) as [Hpos|Hpos]; cycle 1.
    { eexists; split; [done|]. split; [|done].
      apply fill_hole_heap_ok; [done..|lia]. }
    pose proof (parent_lt pos Hpos) as Hpp.
    destruct (lookup_lt_is_Some_2 h (parent pos)) as [p Hp]; [lia|].
    rewrite list_lookup_insert_eq by done.
    rewrite list_lookup_insert_ne by lia. rewrite Hp.
    destruct (lt_defined newitem p) as [r Hr].
    { apply (distinct_keys_lookup (<[pos:=newitem]> h) pos (parent pos)); [done|lia|..].
      - by apply list_lookup_insert_eq.
      - rewrite list_lookup_insert_ne by lia. done. }
    rewrite Hr. destruct r.
    + apply lt_true in Hr.
      rewrite swap_hole by lia.
      destruct (IH (<[pos:=p]> h) (parent pos)) as (h' & Hrun & Hok & Hperm).
      * lia.
      * rewrite length_insert. lia.
      * eapply distinct_keys_Permutation; [|exact Hnd].
        symmetry. apply hole_move_Permutation; [lia|done..].
      * intros i x q Hi Hne Hpne Hx Hq.
        assert (i ≠ pos) by (intros ->; done).
        rewrite list_lookup_insert_ne in Hx by done.
        destruct (decide (parent i = pos)) as [Hpi|Hpi].
        -- rewrite Hpi, list_lookup_insert_eq in Hq by done. injection Hq as <-.
           by apply (Hc i x p).
        -- rewrite list_lookup_insert_ne in Hq by done. by apply (Ha i).
      * intros c x Hc0 Hpc Hx.
        destruct (decide (c = pos)) as [->|Hne].
        -- rewrite list_lookup_insert_eq in Hx by done. by injection Hx as <-.
        -- rewrite list_lookup_insert_ne in Hx by done.
           eapply le_trans; [exact Hr|].
           apply (Ha c x p); [done|done|lia|done|by rewrite Hpc].
      * intros c x g Hc0 Hpc Hpp0 Hx Hg.
        pose proof (parent_lt _ Hpp0).
        rewrite list_lookup_insert_ne in Hg by lia.
        assert (Hgp : le g p) by (apply (Ha (parent pos) p g); [done|lia|lia|done..]).
        destruct (decide (c = pos)) as [->|Hne].
        -- rewrite list_lookup_insert_eq in Hx by done. by injection Hx as <-.
        -- rewrite list_lookup_insert_ne in Hx by done.
           eapply le_trans; [exact Hgp|].
           apply (Ha c x p); [done|done|lia|done|by rewrite Hpc].
      * exists h'. split; [done|]. split; [done|].
        rewrite Hperm. apply hole_move_Permutation; [lia|done..].
    + apply lt_false in Hr.
      eexists; split; [done|]. split; [|done].
      apply fill_hole_heap_ok; [done..|].
      intros _ q Hq. congruence.
Qed.

(** The children of [pos] are read, not the item at [pos]. *)
Lemma smaller_child_insert (h : list A) endpos pos x :
  smaller_child lt (<[pos:=x]> h) endpos (2 * pos + 1)
  = smaller_child lt h endpos (2 * pos + 1).
Proof.
  unfold smaller_child. by rewrite !list_lookup_insert_ne by lia.
Qed.

(** The chosen child exists, is a child of [pos] and is below its sibling. *)
Lemma smaller_child_spec (h : list A) pos newitem :
  2 * pos + 1 < length h →
  distinct_keys key (<[pos:=newitem]> h) →
  ∃ c x, smaller_child lt h (length h) (2 * pos + 1) = Ok c
         ∧ h !! c = Some x ∧ parent c = pos ∧ pos < c
         ∧ ∀ s y, 0 < s → parent s = pos → h !! s = Some y → le x y.
Proof.
  intros Hlen Hnd. unfold smaller_child.
  destruct (lookup_lt_is_Some_2 h (2 * pos + 1)) as [l Hl]; [lia|].
  destruct (decide (2 * pos + 1 + 1 < length h)) as [Hr|Hr].
  - destruct (lookup_lt_is_Some_2 h (2 * pos + 1 + 1)) as [r Hrx]; [lia|].
    rewrite Hl, Hrx.
    destruct (lt_defined l r) as [b Hb].
    { apply (distinct_keys_lookup (<[pos:=newitem]> h) (2 * pos + 1) (2 * pos + 1 + 1));
        [done|lia|rewrite list_lookup_insert_ne by lia; done..]. }
    rewrite Hb. destruct b.
    + exists (2 * pos + 1), l. split; [done|]. split; [done|].
      split; [apply parent_left|]. split; [lia|].
      intros s y Hs Hps Hy. destruct (parent_children s pos Hs Hps) as [->| ->].
      * rewrite Hl in Hy. injection Hy as <-. apply le_refl.
      * replace (2 * pos + 2) with (2 * pos + 1 + 1) in Hy by lia.
        rewrite Hrx in Hy. injection Hy as <-. by apply lt_true.
    + exists (2 * pos + 1 + 1), r. split; [done|]. split; [done|].
      split; [apply parent_right|]. split; [lia|].
      intros s y Hs Hps Hy. destruct (parent_children s pos Hs Hps) as [->| ->].
      * rewrite Hl in Hy. injection Hy as <-. by apply lt_false.
      * replace (2 * pos + 2) with (2 * pos + 1 + 1) in Hy by lia.
        rewrite Hrx in Hy. injection Hy as <-. apply le_refl.
  - exists (2 * pos + 1), l. split; [done|]. split; [done|].
    split; [apply parent_left|]. split; [lia|].
    intros s y Hs Hps Hy. destruct (parent_children s pos Hs Hps) as [->| ->].
    + rewrite Hl in Hy. injection Hy as <-. apply le_refl.
    + apply lookup_lt_Some in Hy. lia.
Qed.

Lemma siftup_loop_spec fuel (h : list A) pos newitem :
  length h - pos ≤ fuel → pos < length h →
  distinct_keys key (<[pos:=newitem]> h) →
  away_ok le h pos → skip_ok le h pos →
  ∃ h' pos', siftup_loop lt fuel (<[pos:=newitem]> h) (length h) pos
             = (<[pos':=newitem]> h', Ok pos')
    ∧ length h' = length h ∧ pos' < length h ∧ length h ≤ 2 * pos' + 1
    ∧ <[pos':=newitem]> h' ≡ₚ <[pos:=newitem]> h
    ∧ away_ok le h' pos' ∧ skip_ok le h' pos'.
Proof.
  revert h pos. induction fuel as [|fuel IH]; intros h pos Hfuel Hlen Hnd Ha Hc.
  { lia. }
  destruct (decide (2 * pos + 1 < length h)) as [Hchild|Hleaf]; cycle 1.
  { rewrite siftup_loop_leaf by lia. exists h, pos. repeat split; try done; lia. }
  rewrite siftup_loop_S by done. rewrite smaller_child_insert.
  destruct (smaller_child_spec h pos newitem Hchild Hnd)
    as (c & x & -> & Hx & Hpc & Hlt & Hmin).
  rewrite list_lookup_insert_ne by lia. rewrite Hx.
  rewrite list_lookup_insert_eq by done.
  assert (Hclen : c < length h) by (by apply lookup_lt_Some in Hx).
  rewrite swap_hole by lia.
  destruct (IH (<[pos:=x]> h) c) as (h' & pos' & Hrun & Hl' & Hp' & Hleaf' & Hperm & Ha' & Hc').
  - rewrite length_insert. lia.
  - rewrite length_insert. lia.
  - eapply distinct_keys_Permutation; [|exact Hnd].
    symmetry. apply hole_move_Permutation; [lia|done..].
  - intros i a b Hi Hne Hpne Hia Hib.
    destruct (decide (i = pos)) as [->|Hip].
    + rewrite list_lookup_insert_eq in Hia by done. injection Hia as <-.
      pose proof (parent_lt pos Hi).
      rewrite list_lookup_insert_ne in Hib by lia.
      apply (Hc c x b); [lia|done..].
    + rewrite list_lookup_insert_ne in Hia by done.
      destruct (decide (parent i = pos)) as [Hpi|Hpi].
      * rewrite Hpi, list_lookup_insert_eq in Hib by done. injection Hib as <-.
        by apply (Hmin i).
      * rewrite list_lookup_insert_ne in Hib by done. by apply (Ha i).
  - intros d a g Hd Hpd Hc0 Hda Hg.
    rewrite Hpc, list_lookup_insert_eq in Hg by done. injection Hg as <-.
    pose proof (parent_lt d Hd).
    rewrite list_lookup_insert_ne in Hda by lia.
    apply (Ha d a x); [done|lia|lia|done|by rewrite Hpd].
  - rewrite length_insert in *. exists h', pos'. rewrite Hrun.
    repeat split; try done.
    rewrite Hperm. apply hole_move_Permutation; [lia|done..].
Qed.

Lemma leaf_below_ok (h : list A) pos newitem :
  length h ≤ 2 * pos + 1 → below_ok le h pos newitem.
Proof.
  intros Hleaf c x Hc Hpc Hx. apply lookup_lt_Some in Hx.
  destruct (parent_children c pos Hc Hpc); lia.
Qed.

Lemma leaf_skip_ok (h : list A) pos :
  length h ≤ 2 * pos + 1 → skip_ok le h pos.
Proof.
  intros Hleaf c x g Hc Hpc _ Hx _. apply lookup_lt_Some in Hx.
  destruct (parent_children c pos Hc Hpc); lia.
Qed.

(** [heappush] succeeds on an ordered heap when the new key is not yet
    queued: the heap stays ordered and gains exactly the item. *)
Lemma heappush_spec (h : list A) item :
  heap_ok le h → distinct_keys key (h ++ [item]) →
  ∃ h', heappush lt h item = (h', Ok tt) ∧ heap_ok le h' ∧ h' ≡ₚ item :: h.
Proof.
  intros Hok Hnd. unfold heappush, siftdown.
  rewrite length_app, Nat.add_sub. simpl length.
  rewrite decide_True by lia.
  assert (Hid : <[length h:=item]> (h ++ [item]) = h ++ [item]).
  { apply list_insert_id. by apply list_lookup_middle. }
  destruct (siftdown_loop_spec (length h) (h ++ [item]) (length h) item)
    as (h' & Hrun & Hok' & Hperm).
  - done.
  - rewrite length_app. simpl. lia.
  - by rewrite Hid.
  - intros i x p Hi Hne Hpne Hx Hp.
    assert (i < length h).
    { apply lookup_lt_Some in Hx. rewrite length_app in Hx. simpl in Hx. lia. }
    pose proof (parent_lt i Hi).
    rewrite lookup_app_l in Hx by lia. rewrite lookup_app_l in Hp by lia.
    by apply (Hok i).
  - apply leaf_below_ok. rewrite length_app. simpl. lia.
  - apply leaf_skip_ok. rewrite length_app. simpl. lia.
  - rewrite Hid in Hrun, Hperm. exists h'. split; [done|]. split; [done|].
    by rewrite Hperm, Permutation_app_comm.
Qed.

(** [heappop] on a non-empty ordered heap with distinct keys returns the
    root, which is below every queued item, and leaves an ordered heap of
    the other items. *)
Lemma heappop_spec (h : list A) :
  h ≠ [] → heap_ok le h → distinct_keys key h →
  ∃ x h', heappop lt h = (h', Ok x) ∧ h !! 0 = Some x
          ∧ h ≡ₚ x :: h' ∧ heap_ok le h'.
Proof.
  intros Hne Hok Hnd. unfold heappop.
  destruct (last h) as [lastelt|] eqn:Hlast; [|by apply last_None in Hlast].
  apply last_Some in Hlast as [rest ->].
  rewrite removelast_last.
  destruct rest as [|r tl].
  { exists lastelt, []. repeat split; try done;
      intros [|i] x p Hi Hx; simplify_eq/=. }
  change (<[0:=lastelt]> (r :: tl)) with (lastelt :: tl).
  set (h0 := lastelt :: tl).
  assert (Hperm0 : (r :: tl) ++ [lastelt] ≡ₚ r :: h0).
  { simpl. constructor. unfold h0. by rewrite Permutation_app_comm. }
  assert (Hnd0 : distinct_keys key h0).
  { unfold distinct_keys in *. rewrite Hperm0, fmap_cons in Hnd.
    by apply NoDup_cons in Hnd as [_ ?]. }
  unfold siftup. rewrite decide_True by (simpl; lia).
  destruct (siftup_loop_spec (length h0) h0 0 lastelt)
    as (h1 & pos1 & Hrun & Hl1 & Hp1 & Hleaf & Hperm1 & Ha1 & Hc1).
  - lia.
  - simpl. lia.
  - done.
  - intros i x p Hi _ Hpne Hx Hp.
    pose proof (parent_lt i Hi).
    assert (Hilen : i < length (r :: tl)).
    { apply lookup_lt_Some in Hx. simpl in *. lia. }
    apply (Hok i x p); [done|..].
    + rewrite lookup_app_l by done. destruct i; [lia|]. exact Hx.
    + rewrite lookup_app_l by lia. destruct (parent i); [done|]. exact Hp.
  - intros c x g _ _ Hpos. lia.
  - change (<[0:=lastelt]> h0) with h0 in Hrun. rewrite Hrun. unfold siftdown.
    rewrite decide_True by (rewrite length_insert; lia).
    destruct (siftdown_loop_spec pos1 h1 pos1 lastelt)
      as (h2 & Hrun2 & Hok2 & Hperm2).
    + done.
    + lia.
    + eapply distinct_keys_Permutation; [symmetry; exact Hperm1|done].
    + done.
    + apply leaf_below_ok. lia.
    + apply leaf_skip_ok. lia.
    + rewrite Hrun2. exists r, h2. split; [done|]. split; [done|].
      split; [|done].
      rewrite Hperm0, Hperm2, Hperm1. done.
Qed.

(** The three smallest heaps, whatever the comparison answers. *)
Lemma heappush_1 a b :
  heappush lt [a] b
  = match lt b a with
    | Ok true => ([b; a], Ok tt)
    | Ok false => ([a; b], Ok tt)
    | Raise e => ([a; b], Raise e)
    end.
Proof. unfold heappush, siftdown. simpl. by destruct (lt b a) as [[|]|e]. Qed.

Lemma heappush_2 a b c :
  heappush lt [a; b] c
  = match lt c a with
    | Ok true => ([c; b; a], Ok tt)
    | Ok false => ([a; b; c], Ok tt)
    | Raise e => ([a; b; c], Raise e)
    end.
Proof. unfold heappush, siftdown. simpl. by destruct (lt c a) as [[|]|e]. Qed.

Lemma heappop_3 a b c :
  heappop lt [a; b; c]
  = match lt c b with
    | Ok true => ([c; b], Ok a)
    | Ok false => ([b; c], Ok a)
    | Raise e => ([b; c], Raise e)
    end.
Proof.
  unfold heappop, siftup, siftdown. simpl. by destruct (lt c b) as [[|]|e].
Qed.

Lemma heappop_min (h : list A) x h' :
  heap_ok le h → heappop lt h = (h', Ok x) → h !! 0 = Some x →
  ∀ y, y ∈ h → le x y.
Proof.
  intros Hok _ Hx y [i Hy]%list_elem_of_lookup.
  by apply (heap_ok_root_min h x Hok Hx i).
Qed.
End HeapqFacts.
End HeapqFacts.

Module InferenceQueueFacts.
Import InferenceQueue InferenceQueueSpec HeapOrder.

Lemma entry_le_refl a : entry_le a a.
Proof. unfold entry_le. lia. Qed.

Lemma entry_le_trans a b c : entry_le a b → entry_le b c → entry_le a c.
Proof. unfold entry_le. lia. Qed.

Lemma entry_lt_true a b : entry_lt a b = Ok true → entry_le a b.
Proof.
  unfold entry_lt, entry_le. intros H.
  repeat case_decide; simplify_eq; lia.
Qed.

Lemma entry_lt_false a b : entry_lt a b = Ok false → entry_le b a.
Proof.
  unfold entry_lt, entry_le. intros H.
  repeat case_decide; simplify_eq; lia.
Qed.

Lemma entry_lt_defined a b : entry_key a ≠ entry_key b → ∃ r, entry_lt a b = Ok r.
Proof.
  unfold entry_lt, entry_key. intros H.
  repeat case_decide; eauto. destruct H. congruence.
Qed.

Lemma entry_le_strict a b :
  entry_le a b → entry_key a ≠ entry_key b → dispatches_before a b.
Proof.
  unfold entry_le, entry_key, dispatches_before, entry_priority. intros H Hne.
  destruct H as [H|[H1 H2]]; [lia|]. right. split; [lia|].
  destruct (decide (entry_timestamp a = entry_timestamp b)); [|lia].
  destruct Hne. congruence.
Qed.

Lemma push_wf (h : list entry) e :
  queue_wf h → entry_key e ∉ entry_key <$> h →
  ∃ h', Heapq.heappush entry_lt h e = (h', Ok tt) ∧ queue_wf h' ∧ h' ≡ₚ e :: h.
Proof.
  intros [Hok Hnd] Hfresh.
  assert (Hnd' : distinct_keys entry_key (h ++ [e])).
  { unfold distinct_keys in *. rewrite fmap_app. apply NoDup_app.
    split; [done|]. split; [|apply NoDup_singleton].
    intros k Hk ->%list_elem_of_singleton. done. }
  destruct (HeapqFacts.heappush_spec entry_lt entry_key entry_le
              entry_le_trans entry_lt_true entry_lt_false entry_lt_defined h e Hok Hnd')
    as (h' & Hrun & Hok' & Hperm).
  exists h'. split; [done|]. split; [|done]. split; [done|].
  unfold distinct_keys in *. rewrite Hperm. rewrite Permutation_app_comm in Hnd'. done.
Qed.

Lemma pop_wf (h : list entry) :
  queue_wf h → h ≠ [] →
  ∃ x h', Heapq.heappop entry_lt h = (h', Ok x) ∧ h ≡ₚ x :: h' ∧ queue_wf h'
          ∧ ∀ y, y ∈ h → y ≠ x → dispatches_before x y.
Proof.
  intros [Hok Hnd] Hne.
  destruct (HeapqFacts.heappop_spec entry_lt entry_key entry_le entry_le_refl
              entry_le_trans entry_lt_true entry_lt_false entry_lt_defined h Hne Hok Hnd)
    as (x & h' & Hrun & Hroot & Hperm & Hok').
  exists x, h'. split; [done|]. split; [done|]. split.
  - split; [done|]. unfold distinct_keys in *. rewrite Hperm, fmap_cons in Hnd.
    by apply NoDup_cons in Hnd as [_ ?].
  - intros y Hy Hyx.
    apply entry_le_strict.
    + apply list_elem_of_lookup in Hy as [i Hi].
      by apply (HeapqFacts.heap_ok_root_min entry_le entry_le_refl entry_le_trans h x Hok Hroot i).
    + intros Hk. unfold distinct_keys in Hnd. rewrite Hperm, fmap_cons in Hnd.
      apply NoDup_cons in Hnd as [Hnotin _].
      rewrite Hperm in Hy. apply elem_of_cons in Hy as [->|Hy]; [done|].
      apply Hnotin. rewrite Hk. by apply list_elem_of_fmap_2.
Qed.

Lemma submit_times_cons o ops :
  submit_times (o :: ops) = from_option (λ t, [t]) [] (submit_time_of o) ++ submit_times ops.
Proof. by destruct o. Qed.

Lemma submit_times_app ops1 ops2 :
  submit_times (ops1 ++ ops2) = submit_times ops1 ++ submit_times ops2.
Proof.
  induction ops1 as [|o ops1 IH]; [done|].
  rewrite <-app_comm_cons, !submit_times_cons, IH. by rewrite app_assoc.
Qed.

Lemma fresh_key (h : list entry) prio now2 uuid :
  (∀ e, e ∈ h → (entry_timestamp e < now2)%Z) →
  entry_key ((- prio)%Z, now2, uuid) ∉ entry_key <$> h.
Proof.
  intros Hlt [e [Hk He]]%list_elem_of_fmap. specialize (Hlt e He).
  unfold entry_key, entry_timestamp in *. simpl in *. injection Hk as _ Hk. lia.
Qed.

(** A submission to a running queue with room and a fresh timestamp. *)
Lemma submit_job_ok q uuid m img ty ps prio now1 now2 :
  _running q = true → (qsize q < max_queue_size q)%Z →
  queue_wf (queue q) → (∀ e, e ∈ queue q → (entry_timestamp e < now2)%Z) →
  ∃ q', submit_job q uuid m img ty ps prio now1 now2 = (q', Ok uuid)
        ∧ queue q' ≡ₚ ((- prio)%Z, now2, uuid) :: queue q
        ∧ queue_wf (queue q')
        ∧ jobs q' = <[uuid := mkJob uuid m img ty ps now1 None None PENDING None None prio]> (jobs q)
        ∧ total_jobs (stats q') = (total_jobs (stats q) + 1)%Z
        ∧ _running q' = true ∧ max_queue_size q' = max_queue_size q.
Proof.
  intros Hrun Hroom Hwf Hfresh. unfold submit_job.
  rewrite Hrun. simpl negb. cbv iota.
  rewrite bool_decide_eq_false_2 by lia.
  destruct (push_wf (queue q) ((- prio)%Z, now2, uuid) Hwf (fresh_key _ _ _ _ Hfresh))
    as (h' & Hpush & Hwf' & Hperm).
  simpl. rewrite Hpush. eexists. split; [done|]. simpl. done.
Qed.

Lemma submit_job_not_running q uuid m img ty ps prio now1 now2 :
  _running q = false →
  submit_job q uuid m img ty ps prio now1 now2
  = (q, Raise (RuntimeError "Inference queue is not running")).
Proof. intros Hrun. unfold submit_job. by rewrite Hrun. Qed.

Lemma submit_job_full q uuid m img ty ps prio now1 now2 :
  _running q = true → (max_queue_size q ≤ qsize q)%Z →
  submit_job q uuid m img ty ps prio now1 now2
  = (q, Raise (RuntimeError ("Queue is full (max size: " +:+ pretty (max_queue_size q) +:+ ")"))).
Proof.
  intros Hrun Hfull. unfold submit_job. rewrite Hrun. simpl.
  by rewrite bool_decide_eq_true_2.
Qed.

(** A turn of a worker on a running, non-empty, well-formed queue. *)
Lemma worker_get_ok q now :
  _running q = true → queue q ≠ [] → queue_wf (queue q) →
  ∃ e h', worker_get q now
          = (update_job (mark_processing now) (entry_job e) (set_queue h' q), Some e)
          ∧ queue q ≡ₚ e :: h' ∧ queue_wf h'
          ∧ ∀ e', e' ∈ queue q → e' ≠ e → dispatches_before e e'.
Proof.
  intros Hrun Hne Hwf. unfold worker_get. rewrite Hrun. simpl.
  destruct (pop_wf (queue q) Hwf Hne) as (e & h' & Hpop & Hperm & Hwf' & Hmin).
  destruct (queue q) eqn:Hq; [done|]. rewrite Hpop.
  exists e, h'. done.
Qed.

Lemma step_inv q o :
  queue_wf (queue q) →
  (∀ t, submit_time_of o = Some t → ∀ e, e ∈ queue q → (entry_timestamp e < t)%Z) →
  queue_wf (queue (step q o))
  ∧ (∀ e, e ∈ queue (step q o) → e ∈ queue q ∨ submit_time_of o = Some (entry_timestamp e))
  ∧ max_queue_size (step q o) = max_queue_size q
  ∧ ((qsize q ≤ max_queue_size q)%Z → (qsize (step q o) ≤ max_queue_size q)%Z).
Proof.
  intros Hwf Hfresh.
  destruct o as [| |uuid m img ty ps prio now1 now2|now|jid res now]; cbn [step submit_time_of].
  - unfold start. destruct (_running q); simpl; auto.
  - unfold stop. destruct (_running q); simpl; auto.
  - destruct (_running q) eqn:Hrun; cycle 1.
    { rewrite submit_job_not_running by done. simpl. auto. }
    destruct (decide (max_queue_size q ≤ qsize q)%Z) as [Hfull|Hroom].
    { rewrite submit_job_full by done. simpl. auto. }
    destruct (submit_job_ok q uuid m img ty ps prio now1 now2)
      as (q' & -> & Hperm & Hwf' & _ & _ & _ & Hmax); [done|lia|done|by apply Hfresh|].
    simpl. split; [done|]. split; [|split; [done|]].
    + intros e He. rewrite Hperm in He. apply elem_of_cons in He as [->|He]; auto.
    + intros _. unfold qsize in *. rewrite Hperm. simpl length. lia.
  - destruct (_running q) eqn:Hrun; cycle 1.
    { unfold worker_get. rewrite Hrun. simpl. auto. }
    destruct (decide (queue q = [])) as [Hq|Hq].
    { assert (worker_get q now = (q, None)) as ->
        by (unfold worker_get; rewrite Hrun, Hq; done).
      simpl. auto. }
    destruct (worker_get_ok q now Hrun Hq Hwf) as (e & h' & -> & Hperm & Hwf' & _).
    simpl. split; [done|]. split; [|split; [done|]].
    + intros e' He'. left. rewrite Hperm. by apply elem_of_cons; right.
    + unfold qsize. simpl. rewrite Hperm. simpl length. lia.
  - destruct res; simpl; auto.
Qed.

Lemma run_inv ops : ∀ q,
  queue_wf (queue q) →
  (∀ e t, e ∈ queue q → t ∈ submit_times ops → (entry_timestamp e < t)%Z) →
  clock_ticks ops →
  queue_wf (queue (run q ops))
  ∧ (∀ e, e ∈ queue (run q ops) → e ∈ queue q ∨ entry_timestamp e ∈ submit_times ops)
  ∧ max_queue_size (run q ops) = max_queue_size q
  ∧ ((qsize q ≤ max_queue_size q)%Z → (qsize (run q ops) ≤ max_queue_size q)%Z).
Proof.
  induction ops as [|o ops IH]; intros q Hwf Hfresh Hclock; [simpl; auto|].
  unfold clock_ticks in Hclock. rewrite submit_times_cons in *.
  destruct (step_inv q o Hwf) as (Hwf1 & Hsub1 & Hmax1 & Hlen1).
  { intros t Ht e He. apply Hfresh; [done|]. rewrite Ht. simpl. left. }
  assert (Hsorted : clock_ticks ops ∧
            ∀ t t', submit_time_of o = Some t → t' ∈ submit_times ops → (t < t')%Z).
  { destruct (submit_time_of o) as [t|]; simpl in Hclock.
    - apply StronglySorted_inv in Hclock as [Hs Hall]. split; [done|].
      intros ? t' [= <-] Ht'. rewrite Forall_forall in Hall. by apply Hall.
    - split; [done|]. intros ? ? [=]. }
  destruct Hsorted as [Hclock' Hlater].
  destruct (IH (step q o)) as (Hwf2 & Hsub2 & Hmax2 & Hlen2); [done| |done|].
  { intros e t He Ht. destruct (Hsub1 e He) as [Hq|Hs].
    - apply Hfresh; [done|]. apply elem_of_app. by right.
    - by apply (Hlater (entry_timestamp e)). }
  change (run q (o :: ops)) with (run (step q o) ops).
  split; [done|]. split; [|split].
  - intros e He. destruct (Hsub2 e He) as [Hq|Hs].
    + destruct (Hsub1 e Hq) as [?|Hs]; [by left|]. right.
      rewrite Hs. simpl. left.
    + right. apply elem_of_app. by right.
  - congruence.
  - intros Hle. rewrite <-Hmax1. apply Hlen2. rewrite Hmax1. by apply Hlen1.
Qed.

Lemma init_wf iw mw mq : queue_wf (queue (init iw mw mq)).
Proof.
  split.
  - intros i x p _ Hx. by destruct i.
  - apply NoDup_nil_2.
Qed.

(** Every state reached from a new queue while the clock ticks between
    submissions holds a well-formed heap whose timestamps were all read by
    those submissions, and no more than [max_queue_size] tuples. *)
Lemma reachable_inv iw mw mq ops :
  clock_ticks ops →
  let q := run (init iw mw mq) ops in
  queue_wf (queue q)
  ∧ (∀ e, e ∈ queue q → entry_timestamp e ∈ submit_times ops)
  ∧ max_queue_size q = mq
  ∧ ((0 ≤ mq)%Z → (qsize q ≤ mq)%Z).
Proof.
  intros Hclock q.
  destruct (run_inv ops (init iw mw mq) (init_wf iw mw mq)) as (Hwf & Hsub & Hmax & Hlen).
  { intros e t He. by apply elem_of_nil in He. }
  { done. }
  split; [done|]. split; [|split; [done|]].
  - intros e He. destruct (Hsub e He) as [Hin|?]; [|done]. by apply elem_of_nil in Hin.
  - intros Hmq. by apply Hlen.
Qed.

(** X1.  While the queue timestamps read by submit_job strictly increase
    from one submission to the next, jobs leave the queue in priority
    order: in every state that calls of start, stop, submit_job and worker
    turns reach from a new queue, a worker turn on the running, non-empty
    queue takes a tuple that is due before every other queued tuple (higher
    priority, or equal priority and earlier timestamp), marks its job as
    processing and leaves the other tuples queued.  With one worker and
    J1(p=1), J2(p=1), J3(p=5), J4(p=3) submitted in this order before the
    worker runs, the jobs are handed out in the order J3, J4, J1, J2. *)
Theorem dispatch_in_priority_order :
  (∀ iw mw mq ops now,
     clock_ticks ops →
     _running (run (init iw mw mq) ops) = true →
     queue (run (init iw mw mq) ops) ≠ [] →
     ∃ e, (worker_get (run (init iw mw mq) ops) now).2 = Some e
          ∧ e ∈ queue (run (init iw mw mq) ops)
          ∧ (∀ e', e' ∈ queue (run (init iw mw mq) ops) → e' ≠ e → dispatches_before e e')
          ∧ queue (run (init iw mw mq) ops)
              ≡ₚ e :: queue (worker_get (run (init iw mw mq) ops) now).1
          ∧ jobs (worker_get (run (init iw mw mq) ops) now).1
              = alter (mark_processing now) (entry_job e) (jobs (run (init iw mw mq) ops)))
  ∧ dispatch_n 4
      (run (init 4 (Some 1) 10)
         [OpStart;
          OpSubmit "J1" "m" "img" "detect" [] 1 100 101;
          OpSubmit "J2" "m" "img" "detect" [] 1 102 103;
          OpSubmit "J3" "m" "img" "detect" [] 5 104 105;
          OpSubmit "J4" "m" "img" "detect" [] 3 106 107]) 200
    = ["J3"; "J4"; "J1"; "J2"].
Proof.
  split; [|by vm_compute].
  intros iw mw mq ops now Hclock Hrun Hne.
  destruct (reachable_inv iw mw mq ops Hclock) as (Hwf & _).
  destruct (worker_get_ok _ now Hrun Hne Hwf) as (e & h' & Hget & Hperm & _ & Hmin).
  exists e. rewrite Hget. simpl. split; [done|]. split; [|done].
  rewrite Hperm. by left.
Qed.

Lemma dispatch_in_priority_order_witness :
  ∃ e, (worker_get (run (init 4 (Some 1) 10)
          [OpStart; OpSubmit "J1" "m" "img" "detect" [] 1 100 101;
           OpSubmit "J3" "m" "img" "detect" [] 5 104 105]) 200).2 = Some e
       ∧ e ∈ queue (run (init 4 (Some 1) 10)
          [OpStart; OpSubmit "J1" "m" "img" "detect" [] 1 100 101;
           OpSubmit "J3" "m" "img" "detect" [] 5 104 105])
       ∧ (∀ e', e' ∈ queue (run (init 4 (Some 1) 10)
          [OpStart; OpSubmit "J1" "m" "img" "detect" [] 1 100 101;
           OpSubmit "J3" "m" "img" "detect" [] 5 104 105]) → e' ≠ e → dispatches_before e e')
       ∧ queue (run (init 4 (Some 1) 10)
          [OpStart; OpSubmit "J1" "m" "img" "detect" [] 1 100 101;
           OpSubmit "J3" "m" "img" "detect" [] 5 104 105])
           ≡ₚ e :: queue (worker_get (run (init 4 (Some 1) 10)
          [OpStart; OpSubmit "J1" "m" "img" "detect" [] 1 100 101;
           OpSubmit "J3" "m" "img" "detect" [] 5 104 105]) 200).1
       ∧ jobs (worker_get (run (init 4 (Some 1) 10)
          [OpStart; OpSubmit "J1" "m" "img" "detect" [] 1 100 101;
           OpSubmit "J3" "m" "img" "detect" [] 5 104 105]) 200).1
           = alter (mark_processing 200) (entry_job e) (jobs (run (init 4 (Some 1) 10)
          [OpStart; OpSubmit "J1" "m" "img" "detect" [] 1 100 101;
           OpSubmit "J3" "m" "img" "detect" [] 5 104 105])).
Proof.
  apply (proj1 dispatch_in_priority_order 4 (Some 1) 10%Z).
  - repeat constructor.
  - reflexivity.
  - discriminate.
Defined.

(** X2.  submit_job is where capacity is enforced.  On a running queue
    that holds [max_queue_size] tuples or more it raises RuntimeError
    "Queue is full (max size: N)" and changes nothing, so the job is not
    registered; on a queue that is not running it raises "Inference queue
    is not running" and changes nothing.  While the queue timestamps read
    by submit_job strictly increase, a submission to a running queue that
    holds exactly [max_queue_size - 1] tuples returns the job id, registers
    the job as pending and queues its tuple, filling the queue, and no
    queue reached from a new one holds more than [max_queue_size]
    tuples. *)
Theorem submit_job_admission :
  (∀ iw mw mq ops uuid m img ty ps prio now1 now2,
     clock_ticks (ops ++ [OpSubmit uuid m img ty ps prio now1 now2]) →
     _running (run (init iw mw mq) ops) = true →
     qsize (run (init iw mw mq) ops) = (max_queue_size (run (init iw mw mq) ops) - 1)%Z →
     ∃ q', submit_job (run (init iw mw mq) ops) uuid m img ty ps prio now1 now2 = (q', Ok uuid)
           ∧ jobs q' !! uuid
               = Some (mkJob uuid m img ty ps now1 None None PENDING None None prio)
           ∧ queue q' ≡ₚ ((- prio)%Z, now2, uuid) :: queue (run (init iw mw mq) ops)
           ∧ qsize q' = max_queue_size q')
  ∧ (∀ q uuid m img ty ps prio now1 now2,
       _running q = true → (max_queue_size q ≤ qsize q)%Z →
       submit_job q uuid m img ty ps prio now1 now2
       = (q, Raise (RuntimeError
                      ("Queue is full (max size: " +:+ pretty (max_queue_size q) +:+ ")"))))
  ∧ (∀ q uuid m img ty ps prio now1 now2,
       _running q = false →
       submit_job q uuid m img ty ps prio now1 now2
       = (q, Raise (RuntimeError "Inference queue is not running")))
  ∧ (∀ iw mw mq ops,
       clock_ticks ops → (0 ≤ mq)%Z → (qsize (run (init iw mw mq) ops) ≤ mq)%Z).
Proof.
  split; [|split; [|split]].
  - intros iw mw mq ops uuid m img ty ps prio now1 now2 Hclock Hrun Hsize.
    unfold clock_ticks in Hclock. rewrite submit_times_app in Hclock. simpl in Hclock.
    assert (Hclock' : clock_ticks ops ∧ ∀ t, t ∈ submit_times ops → (t < now2)%Z).
    { clear -Hclock. unfold clock_ticks.
      induction (submit_times ops) as [|t ts IH]; simpl in *.
      - split; [constructor|]. intros t Ht. by apply elem_of_nil in Ht.
      - apply StronglySorted_inv in Hclock as [Hs Hall].
        destruct (IH Hs) as [Hs' Hlt]. split.
        + constructor; [done|]. rewrite Forall_app in Hall. by destruct Hall.
        + intros t' [->|Ht']%elem_of_cons; [|by apply Hlt].
          rewrite Forall_app, Forall_singleton in Hall. by destruct Hall. }
    destruct Hclock' as [Hticks Hbefore].
    destruct (reachable_inv iw mw mq ops Hticks) as (Hwf & Hsub & _ & _).
    destruct (submit_job_ok (run (init iw mw mq) ops) uuid m img ty ps prio now1 now2)
      as (q' & Hsubmit & Hperm & _ & Hjobs & _ & _ & Hmax); [done|lia|done| |].
    { intros e He. by apply Hbefore, Hsub. }
    exists q'. split; [done|]. split; [|split; [done|]].
    + by rewrite Hjobs, lookup_insert_eq.
    + unfold qsize in *. rewrite Hperm, Hmax. simpl length. lia.
  - intros q uuid m img ty ps prio now1 now2 Hrun Hsize.
    by apply submit_job_full.
  - intros q uuid m img ty ps prio now1 now2 Hrun. by apply submit_job_not_running.
  - intros iw mw mq ops Hclock Hmq.
    destruct (reachable_inv iw mw mq ops Hclock) as (_ & _ & _ & Hlen). by apply Hlen.
Qed.

Lemma submit_job_admission_witness :
  ∃ q', submit_job
          (run (init 4 (Some 1) 2) [OpStart; OpSubmit "J1" "m" "img" "detect" [] 1 100 101])
          "J2" "m" "img" "detect" [] 1 102 103 = (q', Ok "J2")
        ∧ jobs q' !! "J2"
            = Some (mkJob "J2" "m" "img" "detect" [] 102 None None PENDING None None 1)
        ∧ queue q' ≡ₚ ((- 1)%Z, 103%Z, "J2")
            :: queue (run (init 4 (Some 1) 2)
                 [OpStart; OpSubmit "J1" "m" "img" "detect" [] 1 100 101])
        ∧ qsize q' = max_queue_size q'.
Proof.
  apply (proj1 submit_job_admission 4 (Some 1) 2%Z
           [OpStart; OpSubmit "J1" "m" "img" "detect" [] 1 100 101]).
  - repeat constructor.
  - reflexivity.
  - reflexivity.
Defined.

(** C4 fails on the code.  A submission to a running queue with room,
    also one that holds exactly [max_queue_size - 1] tuples, does not
    succeed when its tuple has the priority and the timestamp of the tuple
    it is first compared with (the one at the parent of the new last
    place of the heap): the comparison goes on to the two job objects and
    raises TypeError.  By then the job is registered as pending and counted
    in total_jobs, and its tuple stays in the queue, where the list had
    appended it. *)
Theorem submit_job_raises_on_a_tie q e0 uuid m img ty ps prio now1 now2 :
  _running q = true → (qsize q < max_queue_size q)%Z →
  0 < length (queue q) → queue q !! parent (length (queue q)) = Some e0 →
  entry_negprio e0 = (- prio)%Z → entry_timestamp e0 = now2 → entry_job e0 ≠ uuid →
  ∃ q', submit_job q uuid m img ty ps prio now1 now2 = (q', Raise TypeError)
        ∧ jobs q' = <[uuid := mkJob uuid m img ty ps now1 None None PENDING None None prio]>
                      (jobs q)
        ∧ total_jobs (stats q') = (total_jobs (stats q) + 1)%Z
        ∧ queue q' = queue q ++ [((- prio)%Z, now2, uuid)]
        ∧ qsize q' = (qsize q + 1)%Z.
Proof.
  intros Hrun Hroom Hlen He0 Hprio Hts Hjob. unfold submit_job.
  rewrite Hrun. simpl negb. cbv iota.
  rewrite bool_decide_eq_false_2 by lia.
  assert (Hlt : entry_lt ((- prio)%Z, now2, uuid) e0 = Raise TypeError).
  { unfold entry_lt. rewrite Hprio, Hts. simpl.
    rewrite !decide_True by done. by rewrite decide_False by congruence. }
  unfold Heapq.heappush. simpl queue.
  rewrite length_app, Nat.add_sub. simpl length.
  set (new := ((- prio)%Z, now2, uuid) : entry).
  assert (Hsift : Heapq.siftdown entry_lt (queue q ++ [new]) 0 (length (queue q))
                  = (queue q ++ [new], Raise TypeError)).
  { apply (HeapqFacts.siftdown_first_raises entry_lt _ _ new e0); [done| | |done].
    - by apply list_lookup_middle.
    - rewrite lookup_app_l; [done|]. by apply lookup_lt_Some in He0. }
  rewrite Hsift. eexists. split; [done|]. simpl. split_and!; try done.
  unfold qsize. simpl. rewrite length_app. simpl. lia.
Qed.

Lemma submit_job_raises_on_a_tie_witness :
  ∃ q', submit_job
          (run (init 4%nat (Some 1%nat) 2%Z) [OpStart; OpSubmit "J1" "m" "img" "detect" [] 1 100 101])
          "J2" "m" "img" "detect" [] 1 102 101 = (q', Raise TypeError)
        ∧ jobs q'
          = <["J2" := mkJob "J2" "m" "img" "detect" [] 102 None None PENDING None None 1]>
              (jobs (run (init 4%nat (Some 1%nat) 2%Z)
                       [OpStart; OpSubmit "J1" "m" "img" "detect" [] 1 100 101]))
        ∧ total_jobs (stats q')
          = (total_jobs (stats (run (init 4%nat (Some 1%nat) 2%Z)
                                  [OpStart; OpSubmit "J1" "m" "img" "detect" [] 1 100 101])) + 1)%Z
        ∧ queue q'
          = queue (run (init 4%nat (Some 1%nat) 2%Z)
                     [OpStart; OpSubmit "J1" "m" "img" "detect" [] 1 100 101])
            ++ [((- 1)%Z, 101%Z, "J2")]
        ∧ qsize q'
          = (qsize (run (init 4%nat (Some 1%nat) 2%Z)
                      [OpStart; OpSubmit "J1" "m" "img" "detect" [] 1 100 101]) + 1)%Z.
Proof.
  apply (submit_job_raises_on_a_tie
           (run (init 4%nat (Some 1%nat) 2%Z) [OpStart; OpSubmit "J1" "m" "img" "detect" [] 1 100 101])
           ((- 1)%Z, 101%Z, "J1")).
  - reflexivity.
  - reflexivity.
  - vm_compute. lia.
  - reflexivity.
  - reflexivity.
  - reflexivity.
  - discriminate.
Defined.

(** C7 as it stands fails: a job submitted and never handed to a worker is
    still pending, without an error, and still queued after stop. *)
Lemma stop_leaves_pending_job :
  let q := run (init 4 (Some 1) 10)
             [OpStart; OpSubmit "J1" "m" "img" "detect" [] 1 100 101; OpStop] in
  _running q = false
  ∧ status <$> jobs q !! "J1" = Some PENDING
  ∧ error <$> jobs q !! "J1" = Some None
  ∧ queue q = [((- 1)%Z, 101%Z, "J1")].
Proof. by vm_compute. Qed.

(** C7, amended.  stop ends admission and dismisses the workers, and that
    is all: the queue is not running afterwards, the workers of a running
    queue are gone, and the registry, the queued tuples and the counters
    are as before; a job that was pending stays pending and queued.  A
    second stop changes nothing. *)
Theorem stop_keeps_registry_and_queue :
  ∀ q,
    _running (stop q) = false
    ∧ workers (stop q) = (if _running q then [] else workers q)
    ∧ jobs (stop q) = jobs q
    ∧ queue (stop q) = queue q
    ∧ stats (stop q) = stats q
    ∧ stop (stop q) = stop q.
Proof.
  intros q. unfold stop. destruct (_running q) eqn:Hrun; simpl; rewrite ?Hrun; done.
Qed.
End InferenceQueueFacts.

(** ** The model cache *)

Module OrderedDictFacts.
Import OrderedDict.
Section OrderedDictFacts.
Context {V : Type}.
Implicit Types (d : list (string * V)) (k : string) (v : V).

Lemma keys_pop k d : keys (pop k d) = filter (λ k', k' ≠ k) (keys d).
Proof.
  unfold keys, pop. induction d as [|[k' v'] d IH]; [done|].
  rewrite fmap_cons, !filter_cons. simpl.
  destruct (decide (k' ≠ k)); simpl; [f_equal|]; exact IH.
Qed.

Lemma keys_setitem_in k v d : k ∈ keys d → keys (setitem k v d) = keys d.
Proof.
  unfold keys. induction d as [|[k' v'] d IH]; simpl.
  - by intros ?%elem_of_nil.
  - intros Hin. case_decide; simplify_eq/=; [done|].
    apply elem_of_cons in Hin as [?|Hin]; [done|]. f_equal. by apply IH.
Qed.

Lemma keys_setitem_notin k v d : k ∉ keys d → keys (setitem k v d) = keys d ++ [k].
Proof.
  unfold keys. induction d as [|[k' v'] d IH]; simpl; [done|].
  intros Hnotin. apply not_elem_of_cons in Hnotin as [Hne Hnotin].
  rewrite decide_False by done. simpl. f_equal. by apply IH.
Qed.

Lemma getitem_in k d : k ∈ keys d → is_Some (getitem k d).
Proof.
  unfold keys. induction d as [|[k' v'] d IH]; simpl.
  - by intros ?%elem_of_nil.
  - intros Hin. case_decide; [by eexists|].
    apply elem_of_cons in Hin as [?|Hin]; [done|]. by apply IH.
Qed.

Lemma keys_move_to_end k d d' :
  move_to_end k d = Some d' → keys d' = filter (λ k', k' ≠ k) (keys d) ++ [k].
Proof.
  unfold move_to_end. destruct (getitem k d); [|done]. intros [= <-].
  unfold keys at 1. rewrite fmap_app. fold (keys (pop k d)). by rewrite keys_pop.
Qed.

Lemma first_key_keys d k : first_key d = Some k → ∃ rest, keys d = k :: rest.
Proof. destruct d as [|[k' v'] d]; [done|]. intros [= <-]. by eexists. Qed.

Lemma first_key_None d : first_key d = None → d = [].
Proof. by destruct d as [|[k' v'] d]. Qed.

Lemma filter_ne_notin (k : string) (l : list string) :
  k ∉ l → filter (λ k', k' ≠ k) l = l.
Proof.
  induction l as [|a l IH]; [done|]. intros [Hne Hnotin]%not_elem_of_cons.
  rewrite filter_cons_True by done. by rewrite IH.
Qed.

Lemma filter_ne_head (k : string) (l : list string) :
  NoDup (k :: l) → filter (λ k', k' ≠ k) (k :: l) = l.
Proof.
  intros [Hnotin _]%NoDup_cons. rewrite filter_cons_False by (intros Hk; by apply Hk).
  by apply filter_ne_notin.
Qed.

Lemma list_to_set_filter_ne (k : string) (l : list string) :
  list_to_set (C:=gset string) (filter (λ k', k' ≠ k) l) = list_to_set l ∖ {[k]}.
Proof.
  apply set_eq. intros x.
  rewrite elem_of_difference, !elem_of_list_to_set, list_elem_of_filter,
    elem_of_singleton.
  tauto.
Qed.
End OrderedDictFacts.
End OrderedDictFacts.

Module ModelCacheFacts.
Import ModelCache ModelCacheSpec.
Local Open Scope Z_scope.

Lemma sum_values_empty : sum_values ∅ = 0.
Proof. unfold sum_values. by rewrite map_fold_empty. Qed.

Lemma sum_values_delete (m : gmap string Z) k s :
  m !! k = Some s → sum_values m = s + sum_values (delete k m).
Proof.
  intros Hk. unfold sum_values.
  apply (map_fold_delete_L (λ _ (s acc : Z), s + acc)); [|done]. intros. lia.
Qed.

Lemma sum_values_insert_fresh (m : gmap string Z) k s :
  m !! k = None → sum_values (<[k:=s]> m) = s + sum_values m.
Proof.
  intros Hk. unfold sum_values.
  apply (map_fold_insert_L (λ _ (s acc : Z), s + acc)); [|done]. intros. lia.
Qed.

Lemma sum_values_insert (m : gmap string Z) k s :
  sum_values (<[k:=s]> m) = s + sum_values (delete k m).
Proof.
  rewrite <-insert_delete_eq. apply sum_values_insert_fresh, lookup_delete_eq.
Qed.

Lemma sum_values_nonneg (m : gmap string Z) :
  map_Forall (λ _ s, 0 ≤ s) m → 0 ≤ sum_values m.
Proof.
  induction m as [|k s m Hk IH] using map_ind.
  - by rewrite sum_values_empty.
  - intros [Hs Hm]%map_Forall_insert; [|done].
    rewrite sum_values_insert_fresh by done. specialize (IH Hm). lia.
Qed.

Lemma sum_values_delete_le (m : gmap string Z) k :
  map_Forall (λ _ s, 0 ≤ s) m → sum_values (delete k m) ≤ sum_values m.
Proof.
  intros Hm. destruct (m !! k) as [s|] eqn:Hk.
  - rewrite (sum_values_delete m k s Hk). specialize (Hm k s Hk). simpl in Hm. lia.
  - by rewrite delete_id.
Qed.

Lemma sum_values_singleton k s : sum_values {[k := s]} = s.
Proof.
  rewrite <-insert_empty, sum_values_insert_fresh, sum_values_empty by done. lia.
Qed.

Lemma estimate_lower rss : 50 ≤ _estimate_model_memory rss.
Proof. destruct rss; simpl; lia. Qed.

Lemma init_consistent mm mem ttl : consistent (init mm mem ttl).
Proof.
  unfold consistent, init. simpl. split; [apply NoDup_nil_2|].
  split; [by rewrite dom_empty_L|]. split; [done|]. apply map_Forall_empty.
Qed.

Lemma consistent_size c :
  consistent c → size (models c) = length (access_order c).
Proof.
  intros (Hnd & Hdom & _). rewrite <-size_dom, Hdom, size_list_to_set by done.
  unfold OrderedDict.keys. by rewrite length_fmap.
Qed.

Lemma consistent_sizes_empty c : consistent c → models c = ∅ → model_sizes c = ∅.
Proof.
  intros (_ & _ & Hdom & _) Hm. apply dom_empty_iff_L. by rewrite Hdom, Hm, dom_empty_L.
Qed.

(** An eviction from a consistent, non-empty cache removes exactly the
    first key of [access_order]. *)
Lemma evict_lru_spec c :
  consistent c → access_order c ≠ [] →
  consistent (_evict_lru_model c)
  ∧ length (access_order (_evict_lru_model c)) = pred (length (access_order c))
  ∧ total_memory (_evict_lru_model c) ≤ total_memory c
  ∧ max_models (_evict_lru_model c) = max_models c
  ∧ max_memory_mb (_evict_lru_model c) = max_memory_mb c.
Proof.
  intros (Hnd & Hdom & Hsz & Hpos) Hne. unfold _evict_lru_model.
  destruct (OrderedDict.first_key (access_order c)) as [k|] eqn:Hk;
    [|by apply OrderedDictFacts.first_key_None in Hk].
  destruct (OrderedDictFacts.first_key_keys _ _ Hk) as [rest Hkeys].
  assert (Hpop : OrderedDict.keys (OrderedDict.pop k (access_order c)) = rest).
  { rewrite OrderedDictFacts.keys_pop, Hkeys.
    apply OrderedDictFacts.filter_ne_head. by rewrite <-Hkeys. }
  unfold consistent, total_memory. simpl. rewrite Hpop.
  rewrite Hkeys in Hnd, Hdom. apply NoDup_cons in Hnd as [Hnotin Hnd].
  split; [|split; [|split; [|done]]].
  - split; [done|]. split; [|split].
    + rewrite dom_delete_L, Hdom. simpl. apply set_eq. intros x.
      rewrite elem_of_difference, elem_of_union, elem_of_singleton, elem_of_list_to_set.
      destruct (decide (x = k)) as [->|]; tauto.
    + by rewrite !dom_delete_L, Hsz.
    + by apply map_Forall_delete.
  - assert (length (OrderedDict.keys (OrderedDict.pop k (access_order c))) = length rest)
      as Hl1 by (by rewrite Hpop).
    assert (length (OrderedDict.keys (access_order c)) = S (length rest))
      as Hl2 by (by rewrite Hkeys).
    unfold OrderedDict.keys in Hl1, Hl2. rewrite !length_fmap in *. lia.
  - by apply sum_values_delete_le.
Qed.

Lemma evict_by_count_unfold n c :
  evict_by_count n c =
  if bool_decide (max_models c ≤ cached_models c) then
    match n with
    | O => Raise NonTermination
    | S n' => evict_by_count n' (_evict_lru_model c)
    end
  else Ok c.
Proof. by destruct n. Qed.

Lemma evict_by_memory_unfold n c cur new :
  evict_by_memory n c cur new =
  if bool_decide (max_memory_mb c < cur + new) then
    if bool_decide (models c = ∅) then Ok c
    else
      match n with
      | O => Raise NonTermination
      | S n' => evict_by_memory n' (_evict_lru_model c)
                  (total_memory (_evict_lru_model c)) new
      end
  else Ok c.
Proof. by destruct n. Qed.

Lemma evict_by_count_spec n c :
  consistent c → (0 < max_models c) → n = length (access_order c) →
  ∃ c', evict_by_count n c = Ok c'
        ∧ consistent c'
        ∧ cached_models c' < max_models c
        ∧ total_memory c' ≤ total_memory c
        ∧ max_models c' = max_models c ∧ max_memory_mb c' = max_memory_mb c.
Proof.
  revert c. induction n as [|n IH]; intros c Hc Hmm Hn; rewrite evict_by_count_unfold.
  - assert (cached_models c = 0) as Hzero.
    { unfold cached_models. rewrite (consistent_size c Hc), <-Hn. done. }
    rewrite bool_decide_eq_false_2 by lia.
    exists c. split_and!; try done; lia.
  - destruct (bool_decide (max_models c ≤ cached_models c)) eqn:Hfull.
    + destruct (evict_lru_spec c Hc) as (Hc1 & Hlen & Htot & Hmm1 & Hmem1).
      { intros Hnil. rewrite Hnil in Hn. done. }
      destruct (IH (_evict_lru_model c)) as (c' & Hrun & Hc' & Hcnt & Htot' & Hmm' & Hmem');
        [done|lia|lia|].
      exists c'. split; [done|]. split_and!; try done; lia.
    + apply bool_decide_eq_false in Hfull.
      exists c. split_and!; try done; lia.
Qed.

Lemma evict_by_memory_spec n c cur new :
  consistent c → n = length (access_order c) → total_memory c ≤ cur →
  ∃ c', evict_by_memory n c cur new = Ok c'
        ∧ consistent c'
        ∧ (total_memory c' + new ≤ max_memory_mb c ∨ models c' = ∅)
        ∧ (size (models c') ≤ size (models c))%nat
        ∧ max_models c' = max_models c ∧ max_memory_mb c' = max_memory_mb c.
Proof.
  revert c cur. induction n as [|n IH]; intros c cur Hc Hn Hcur;
    rewrite evict_by_memory_unfold.
  - assert (Hempty : models c = ∅).
    { apply map_size_empty_iff. rewrite (consistent_size c Hc). lia. }
    destruct (bool_decide (max_memory_mb c < cur + new)) eqn:Hover.
    + rewrite bool_decide_eq_true_2 by done. exists c. split_and!; try done. by right.
    + apply bool_decide_eq_false in Hover. exists c. split_and!; try done. left. lia.
  - destruct (bool_decide (max_memory_mb c < cur + new)) eqn:Hover.
    + destruct (bool_decide (models c = ∅)) eqn:Hempty.
      * apply bool_decide_eq_true in Hempty. exists c. split_and!; try done. by right.
      * destruct (evict_lru_spec c Hc) as (Hc1 & Hlen & Htot & Hmm1 & Hmem1).
        { intros Hnil. rewrite Hnil in Hn. done. }
        destruct (IH (_evict_lru_model c) (total_memory (_evict_lru_model c)))
          as (c' & Hrun & Hc' & Hfit & Hsz & Hmm' & Hmem'); [done|lia|lia|].
        exists c'. split; [done|]. split; [done|]. split; [by rewrite <-Hmem1|].
        split; [|split; congruence].
        rewrite (consistent_size _ Hc1) in Hsz. rewrite (consistent_size _ Hc). lia.
    + apply bool_decide_eq_false in Hover. exists c. split_and!; try done. left. lia.
Qed.

Lemma ensure_cache_capacity_spec c new :
  consistent c → 0 < max_models c →
  ∃ c', _ensure_cache_capacity c new = Ok c'
        ∧ consistent c'
        ∧ cached_models c' < max_models c
        ∧ (total_memory c' + new ≤ max_memory_mb c ∨ models c' = ∅)
        ∧ max_models c' = max_models c ∧ max_memory_mb c' = max_memory_mb c.
Proof.
  intros Hc Hmm. unfold _ensure_cache_capacity.
  destruct (evict_by_count_spec (length (access_order c)) c Hc Hmm eq_refl)
    as (c1 & -> & Hc1 & Hcnt & Htot & Hmm1 & Hmem1).
  destruct (evict_by_memory_spec (length (access_order c1)) c1 (total_memory c) new
              Hc1 eq_refl Htot) as (c2 & -> & Hc2 & Hfit & Hsz & Hmm2 & Hmem2).
  exists c2. split; [done|]. split; [done|]. split; [|split; [|split; congruence]].
  - unfold cached_models in *. lia.
  - by rewrite <-Hmem1.
Qed.

Lemma same_counts_refl c : same_counts c c.
Proof. by unfold same_counts. Qed.

Lemma same_counts_trans c1 c2 c3 :
  same_counts c1 c2 → same_counts c2 c3 → same_counts c1 c3.
Proof. unfold same_counts. intuition congruence. Qed.

Lemma evict_lru_counts c : same_counts c (_evict_lru_model c).
Proof.
  unfold _evict_lru_model, same_counts.
  by destruct (OrderedDict.first_key (access_order c)).
Qed.

Lemma evict_by_count_counts n c c' : evict_by_count n c = Ok c' → same_counts c c'.
Proof.
  revert c. induction n as [|n IH]; intros c; rewrite evict_by_count_unfold;
    case_bool_decide; try done; try (intros [= <-]; apply same_counts_refl).
  intros Hrun. eapply same_counts_trans; [apply evict_lru_counts|by apply IH].
Qed.

Lemma evict_by_memory_counts n c cur new c' :
  evict_by_memory n c cur new = Ok c' → same_counts c c'.
Proof.
  revert c cur. induction n as [|n IH]; intros c cur; rewrite evict_by_memory_unfold;
    repeat case_bool_decide; try done; try (intros [= <-]; apply same_counts_refl).
  intros Hrun. eapply same_counts_trans; [apply evict_lru_counts|by eapply IH].
Qed.

Lemma add_to_cache_counts c k h cfg env c' :
  _add_to_cache c k h cfg env = Ok c' → same_counts c c'.
Proof.
  unfold _add_to_cache, _ensure_cache_capacity.
  destruct (evict_by_count _ c) as [c1|] eqn:H1; [|done].
  destruct (evict_by_memory _ c1 _ _) as [c2|] eqn:H2; [|done].
  intros [= <-]. apply evict_by_count_counts in H1. apply evict_by_memory_counts in H2.
  unfold same_counts in *. simpl. intuition congruence.
Qed.

(** Evictions do not bring a model in. *)
Lemma evict_lru_absent c k :
  models c !! k = None → models (_evict_lru_model c) !! k = None.
Proof.
  unfold _evict_lru_model. destruct (OrderedDict.first_key (access_order c)); [|done].
  simpl. intros Hk. rewrite lookup_delete_None. by right.
Qed.

Lemma evict_by_count_absent n c c' k :
  evict_by_count n c = Ok c' → models c !! k = None → models c' !! k = None.
Proof.
  revert c. induction n as [|n IH]; intros c; rewrite evict_by_count_unfold;
    case_bool_decide; try done; try (by intros [= <-]).
  intros Hrun Hk. eapply IH; [done|]. by apply evict_lru_absent.
Qed.

Lemma evict_by_memory_absent n c cur new c' k :
  evict_by_memory n c cur new = Ok c' → models c !! k = None → models c' !! k = None.
Proof.
  revert c cur. induction n as [|n IH]; intros c cur; rewrite evict_by_memory_unfold;
    repeat case_bool_decide; try done; try (by intros [= <-]).
  intros Hrun Hk. eapply IH; [done|]. by apply evict_lru_absent.
Qed.

Lemma ensure_cache_capacity_absent c new c' k :
  _ensure_cache_capacity c new = Ok c' → models c !! k = None → models c' !! k = None.
Proof.
  unfold _ensure_cache_capacity.
  destruct (evict_by_count _ c) as [c1|] eqn:H1; [|done].
  intros H2 Hk. eapply evict_by_memory_absent; [done|].
  by eapply evict_by_count_absent.
Qed.

(** [_add_to_cache] on a consistent cache with room for at least one
    model returns; the cache then holds the model, is consistent, holds at
    most [max_models] models, and is over its memory budget only if the
    new model is its only entry. *)
Lemma add_to_cache_spec c k h cfg env :
  consistent c → 0 < max_models c →
  ∃ c', _add_to_cache c k h cfg env = Ok c'
        ∧ consistent c'
        ∧ max_models c' = max_models c ∧ max_memory_mb c' = max_memory_mb c
        ∧ cached_models c' ≤ max_models c
        ∧ (total_memory c' ≤ max_memory_mb c
           ∨ model_sizes c' = {[k := _estimate_model_memory (env_rss_mb env)]})
        ∧ (0 ≤ max_memory_mb c →
           total_memory c' ≤ max_memory_mb c + _estimate_model_memory (env_rss_mb env))
        ∧ models c' !! k = Some h
        ∧ (models c !! k = None → last (OrderedDict.keys (access_order c')) = Some k).
Proof.
  intros Hc Hmm. unfold _add_to_cache.
  pose proof (estimate_lower (env_rss_mb env)) as Hest.
  set (new := _estimate_model_memory (env_rss_mb env)) in *.
  destruct (ensure_cache_capacity_spec c new Hc Hmm)
    as (c1 & Hens & (Hnd & Hdom & Hsz & Hpos) & Hcnt & Hfit & Hmm1 & Hmem1).
  pose proof (ensure_cache_capacity_absent c new c1 k Hens) as Habsent.
  rewrite Hens.
  eexists. split; [done|]. unfold consistent, cached_models, total_memory in *. simpl.
  split_and!; try done.
  - destruct (decide (k ∈ OrderedDict.keys (access_order c1))) as [Hin|Hnotin].
    + by rewrite OrderedDictFacts.keys_setitem_in.
    + rewrite OrderedDictFacts.keys_setitem_notin by done.
      apply NoDup_app. split; [done|]. split; [|apply NoDup_singleton].
      intros x Hx ->%list_elem_of_singleton. done.
  - rewrite dom_insert_L, Hdom.
    destruct (decide (k ∈ OrderedDict.keys (access_order c1))) as [Hin|Hnotin].
    + rewrite OrderedDictFacts.keys_setitem_in by done.
      apply set_eq. intros x. rewrite elem_of_union, elem_of_singleton, !elem_of_list_to_set.
      split; [intros [->|?]; done|by right].
    + rewrite OrderedDictFacts.keys_setitem_notin by done.
      rewrite list_to_set_app_L. simpl.
      apply set_eq. intros x.
      rewrite !elem_of_union, elem_of_singleton, elem_of_empty. tauto.
  - by rewrite !dom_insert_L, Hsz.
  - apply map_Forall_insert_2; [lia|done].
  - destruct (models c1 !! k) eqn:Hk.
    + rewrite map_size_insert_Some by (by eexists). lia.
    + rewrite map_size_insert_None by done. lia.
  - rewrite sum_values_insert.
    pose proof (sum_values_delete_le (model_sizes c1) k Hpos).
    destruct Hfit as [Hfit|Hempty].
    + left. lia.
    + right. assert (model_sizes c1 = ∅) as ->; [|by rewrite insert_empty].
      apply dom_empty_iff_L. by rewrite Hsz, Hempty, dom_empty_L.
  - intros Hmem. rewrite sum_values_insert.
    pose proof (sum_values_delete_le (model_sizes c1) k Hpos).
    destruct Hfit as [Hfit|Hempty].
    + lia.
    + assert (model_sizes c1 = ∅) as ->.
      { apply dom_empty_iff_L. by rewrite Hsz, Hempty, dom_empty_L. }
      rewrite delete_empty, sum_values_empty. lia.
  - apply lookup_insert_eq.
  - intros Hk. rewrite OrderedDictFacts.keys_setitem_notin; [apply last_snoc|].
    intros Hin. apply (elem_of_list_to_set (C:=gset string)) in Hin.
    rewrite <-Hdom in Hin. apply elem_of_dom in Hin as [h' Hh'].
    rewrite (Habsent Hk) in Hh'. done.
Qed.

(** The lookup of [get_model] on a consistent cache never raises; it
    returns what [models] holds and counts a hit or a miss. *)
Lemma get_model_lookup_spec c k :
  consistent c →
  ∃ c', get_model_lookup c k = Ok (c', models c !! k)
        ∧ consistent c'
        ∧ models c' = models c ∧ model_sizes c' = model_sizes c
        ∧ max_models c' = max_models c ∧ max_memory_mb c' = max_memory_mb c
        ∧ loads (stats c') = loads (stats c)
        ∧ hits (stats c') = hits (stats c) + (if models c !! k is Some _ then 1 else 0)
        ∧ misses (stats c') = misses (stats c) + (if models c !! k is Some _ then 0 else 1).
Proof.
  intros (Hnd & Hdom & Hsz & Hpos). unfold get_model_lookup.
  destruct (models c !! k) as [h|] eqn:Hk; cycle 1.
  { eexists. split; [done|]. unfold consistent. simpl. split_and!; try done; lia. }
  assert (Hin : k ∈ OrderedDict.keys (access_order c)).
  { apply (elem_of_list_to_set (C:=gset string)). rewrite <-Hdom.
    apply elem_of_dom. by eexists. }
  destruct (OrderedDict.move_to_end k (access_order c)) as [o|] eqn:Hmove; cycle 1.
  { unfold OrderedDict.move_to_end in Hmove.
    destruct (OrderedDictFacts.getitem_in k _ Hin) as [v Hv]. by rewrite Hv in Hmove. }
  apply OrderedDictFacts.keys_move_to_end in Hmove.
  eexists. split; [done|]. unfold consistent. simpl. rewrite Hmove.
  split_and!; try done; try lia.
  - apply NoDup_app. split; [by apply NoDup_filter|]. split; [|apply NoDup_singleton].
    intros x [Hx _]%list_elem_of_filter ->%list_elem_of_singleton. done.
  - rewrite Hdom, list_to_set_app_L, OrderedDictFacts.list_to_set_filter_ne. simpl.
    apply set_eq. intros x.
    rewrite !elem_of_union, elem_of_difference, elem_of_singleton, elem_of_empty,
      elem_of_list_to_set.
    destruct (decide (x = k)) as [->|]; tauto.
Qed.

Lemma invalidate_spec c k :
  consistent c →
  consistent (invalidate c k)
  ∧ models (invalidate c k) = delete k (models c)
  ∧ model_sizes (invalidate c k) = delete k (model_sizes c)
  ∧ max_models (invalidate c k) = max_models c
  ∧ max_memory_mb (invalidate c k) = max_memory_mb c
  ∧ stats (invalidate c k) = stats c.
Proof.
  intros (Hnd & Hdom & Hsz & Hpos). unfold invalidate.
  destruct (models c !! k) as [h|] eqn:Hk; cycle 1.
  { split_and!; try done.
    - by rewrite delete_id.
    - rewrite delete_id; [done|]. apply not_elem_of_dom. rewrite Hsz.
      by apply not_elem_of_dom. }
  unfold consistent. simpl. rewrite OrderedDictFacts.keys_pop.
  split_and!; try done.
  - by apply NoDup_filter.
  - by rewrite dom_delete_L, Hdom, OrderedDictFacts.list_to_set_filter_ne.
  - by rewrite !dom_delete_L, Hsz.
  - by apply map_Forall_delete.
Qed.

Lemma clear_consistent c : consistent (clear c).
Proof.
  unfold consistent, clear. simpl. split; [apply NoDup_nil_2|].
  split; [by rewrite dom_empty_L|]. split; [done|]. apply map_Forall_empty.
Qed.

(** [_load_model] touches nothing but the counters. *)
Lemma load_model_frame c k cfg env :
  ∃ st, (_load_model c k cfg env).1.1 = set_stats st c.
Proof.
  unfold _load_model. exists (stats (_load_model c k cfg env).1.1).
  destruct c as [? ? ? ? ? ? ? ? st]. unfold _load_model, set_stats. simpl.
  destruct (file_path cfg); [|done].
  destruct (_ || _); simpl.
  - destruct (env_download env); [|done]. by destruct (env_load env).
  - by destruct (env_load env).
Qed.

Lemma within_bounds_set_stats mm mem st c :
  within_bounds mm mem c → within_bounds mm mem (set_stats st c).
Proof. by unfold within_bounds, consistent, cached_models, total_memory. Qed.

Lemma consistent_set_stats st c : consistent c → consistent (set_stats st c).
Proof. by unfold consistent. Qed.

Lemma step_within_bounds mm mem c o :
  0 < mm → 0 ≤ mem → within_bounds mm mem c →
  ∃ c', step c o = Some c' ∧ within_bounds mm mem c'.
Proof.
  intros Hmm Hmem (Hc & Hcmm & Hcmem & Hcnt & Hbytes).
  destruct o as [k cfg env|k h cfg env|k|]; cbn [step].
  - unfold get_model.
    destruct (get_model_lookup_spec c k Hc)
      as (c1 & -> & Hc1 & Hm1 & Hs1 & Hmm1 & Hmem1 & _).
    assert (Hb1 : within_bounds mm mem c1).
    { unfold within_bounds, cached_models, total_memory in *.
      rewrite Hm1, Hs1, Hmm1, Hmem1. done. }
    destruct (models c !! k) as [h|]; [by exists c1|].
    destruct (load_model_frame c1 k cfg env) as [st Hframe].
    destruct (_load_model c1 k cfg env) as [[c2 calls] [h|e]]; simpl in Hframe; subst c2.
    + destruct (add_to_cache_spec (set_stats st c1) k h cfg env)
        as (c3 & -> & Hc3 & Hmm3 & Hmem3 & Hcnt3 & Hbytes3 & _).
      { by apply consistent_set_stats. }
      { simpl. lia. }
      exists c3. split; [done|]. simpl in *.
      unfold within_bounds. split_and!; try done; try lia.
      destruct Hbytes3 as [?|?]; [left; lia|right; by eauto].
    + eexists. split; [done|]. by apply within_bounds_set_stats.
  - destruct (add_to_cache_spec c k h cfg env Hc)
      as (c3 & -> & Hc3 & Hmm3 & Hmem3 & Hcnt3 & Hbytes3 & _); [lia|].
    exists c3. split; [done|].
    unfold within_bounds. split_and!; try done; try lia.
    destruct Hbytes3 as [?|?]; [left; lia|right; by eauto].
  - eexists. split; [done|].
    destruct (invalidate_spec c k Hc) as (Hc' & Hm' & Hs' & Hmm' & Hmem' & _).
    destruct Hc as (_ & _ & _ & Hpos).
    unfold within_bounds, cached_models, total_memory in *. rewrite Hm', Hs'.
    split; [done|]. split; [congruence|]. split; [congruence|]. split.
    + pose proof (map_size_delete k (models c)) as Hsz.
      destruct (models c !! k); simpl in Hsz; lia.
    + destruct Hbytes as [Hle|(k' & s & Hsingle)].
      * left. pose proof (sum_values_delete_le (model_sizes c) k Hpos). lia.
      * rewrite Hsingle. destruct (decide (k = k')) as [->|Hne].
        -- left. rewrite delete_singleton_eq, sum_values_empty. lia.
        -- right. exists k', s. by apply delete_singleton_ne.
  - eexists. split; [done|].
    unfold within_bounds, cached_models, total_memory, clear. simpl.
    split_and!; try done.
    + apply clear_consistent.
    + rewrite map_size_empty. lia.
    + left. rewrite sum_values_empty. lia.
Qed.

Lemma run_within_bounds mm mem ops : ∀ c,
  0 < mm → 0 ≤ mem → within_bounds mm mem c →
  ∃ c', run c ops = Some c' ∧ within_bounds mm mem c'.
Proof.
  induction ops as [|o ops IH]; intros c Hmm Hmem Hb; simpl.
  - by exists c.
  - destruct (step_within_bounds mm mem c o Hmm Hmem Hb) as (c1 & -> & Hb1).
    by apply IH.
Qed.

Lemma init_within_bounds mm mem ttl : 0 < mm → 0 ≤ mem → within_bounds mm mem (init mm mem ttl).
Proof.
  intros Hmm Hmem. split; [apply init_consistent|].
  unfold cached_models, total_memory. simpl.
  split_and!; try done.
  - rewrite map_size_empty. lia.
  - left. rewrite sum_values_empty. lia.
Qed.

(** C3.  A cache made for at least one model and a non-negative budget
    answers every sequence of calls (get_model, _add_to_cache, invalidate,
    clear), and after it holds at most [max_models] models; the sizes of
    the cached models add up to at most [max_memory_mb], except while a
    single model is cached, the one whose installation emptied the cache.
    Right after an installation of a model of size [s] the sum is at most
    [max_memory_mb + s]. *)
Theorem cache_stays_within_bounds :
  ∀ mm mem ttl ops,
    0 < mm → 0 ≤ mem →
    ∃ c, run (init mm mem ttl) ops = Some c
         ∧ cached_models c ≤ mm
         ∧ (total_memory c ≤ mem ∨ ∃ k s, model_sizes c = {[k := s]} ∧ total_memory c = s)
         ∧ ∀ k h cfg env,
             ∃ c', step c (OpAdd k h cfg env) = Some c'
                   ∧ cached_models c' ≤ mm
                   ∧ total_memory c' ≤ mem + _estimate_model_memory (env_rss_mb env).
Proof.
  intros mm mem ttl ops Hmm Hmem.
  destruct (run_within_bounds mm mem ops (init mm mem ttl) Hmm Hmem
              (init_within_bounds mm mem ttl Hmm Hmem))
    as (c & Hrun & Hc & Hcmm & Hcmem & Hcnt & Hbytes).
  exists c. split; [done|]. split; [done|]. split.
  - destruct Hbytes as [?|(k & s & Hs)]; [by left|right].
    exists k, s. split; [done|]. unfold total_memory. rewrite Hs.
    apply sum_values_singleton.
  - intros k h cfg env. cbn [step].
    destruct (add_to_cache_spec c k h cfg env Hc)
      as (c3 & -> & _ & _ & _ & Hcnt3 & _ & Hbytes3 & _); [lia|].
    exists c3. split; [done|]. split; lia.
Qed.

Lemma cache_stays_within_bounds_witness :
  ∃ c, run (init 2 300 3600)
         [OpGet "m1" (mkConfig None (Some "/models/m1.pt")) (mkEnv (Ok tt) (Ok 1%nat) None 10);
          OpGet "m2" (mkConfig None (Some "/models/m2.pt")) (mkEnv (Ok tt) (Ok 2%nat) None 11);
          OpInvalidate "m1";
          OpGet "m3" (mkConfig None (Some "/models/m3.pt")) (mkEnv (Ok tt) (Ok 3%nat) (Some 4000) 12)]
       = Some c
       ∧ cached_models c ≤ 2
       ∧ (total_memory c ≤ 300 ∨ ∃ k s, model_sizes c = {[k := s]} ∧ total_memory c = s)
       ∧ ∀ k h cfg env,
           ∃ c', step c (OpAdd k h cfg env) = Some c'
                 ∧ cached_models c' ≤ 2
                 ∧ total_memory c' ≤ 300 + _estimate_model_memory (env_rss_mb env).
Proof. apply cache_stays_within_bounds; lia. Defined.

(** [get_model] on a consistent cache with room for at least one model:
    a hit returns the cached model; a miss whose load succeeds installs
    and returns the loaded model. *)
Lemma get_model_hit c k cfg env h :
  consistent c → models c !! k = Some h →
  ∃ c', get_model c k cfg env = (Some c', [], Ok h)
        ∧ consistent c'
        ∧ models c' = models c
        ∧ OrderedDict.keys (access_order c')
            = filter (λ k', k' ≠ k) (OrderedDict.keys (access_order c)) ++ [k]
        ∧ hits (stats c') = hits (stats c) + 1
        ∧ misses (stats c') = misses (stats c)
        ∧ loads (stats c') = loads (stats c).
Proof.
  intros Hc Hk. unfold get_model, get_model_lookup. rewrite Hk.
  destruct Hc as (Hnd & Hdom & Hsz & Hpos).
  assert (Hin : k ∈ OrderedDict.keys (access_order c)).
  { apply (elem_of_list_to_set (C:=gset string)). rewrite <-Hdom.
    apply elem_of_dom. by eexists. }
  destruct (OrderedDict.move_to_end k (access_order c)) as [o|] eqn:Hmove; cycle 1.
  { unfold OrderedDict.move_to_end in Hmove.
    destruct (OrderedDictFacts.getitem_in k _ Hin) as [v Hv]. by rewrite Hv in Hmove. }
  pose proof (OrderedDictFacts.keys_move_to_end _ _ _ Hmove) as Hkeys.
  eexists. split; [done|]. simpl.
  split; [|by split_and!].
  destruct (get_model_lookup_spec c k) as (c1 & Hl & Hc1 & _); [by split_and!|].
  unfold get_model_lookup in Hl. rewrite Hk, Hmove in Hl. by injection Hl as <-.
Qed.

Lemma load_model_ok c k cfg env path h :
  file_path cfg = Some path → env_download env = Ok tt → env_load env = Ok h →
  ∃ call, _load_model c k cfg env
          = (set_stats (mkCacheStats (hits (stats c)) (misses (stats c))
                          (evictions (stats c)) (loads (stats c) + 1)) c,
             [call], Ok h).
Proof.
  intros Hpath Hdl Hload. unfold _load_model. rewrite Hpath, Hdl, Hload.
  destruct (_ || _); by eexists.
Qed.

Lemma get_model_miss c k cfg env path h :
  consistent c → 0 < max_models c → models c !! k = None →
  file_path cfg = Some path → env_download env = Ok tt → env_load env = Ok h →
  ∃ c' call, get_model c k cfg env = (Some c', [call], Ok h)
        ∧ consistent c'
        ∧ models c' !! k = Some h
        ∧ last (OrderedDict.keys (access_order c')) = Some k
        ∧ hits (stats c') = hits (stats c)
        ∧ misses (stats c') = misses (stats c) + 1
        ∧ loads (stats c') = loads (stats c) + 1.
Proof.
  intros Hc Hmm Hk Hpath Hdl Hload. unfold get_model, get_model_lookup. rewrite Hk.
  set (c1 := set_stats _ c).
  destruct (load_model_ok c1 k cfg env path h Hpath Hdl Hload) as [call ->].
  set (c2 := set_stats _ c1).
  destruct (add_to_cache_spec c2 k h cfg env) as (c3 & Hadd & Hc3 & _ & _ & _ & _ & _ & Hk3 & Hlast).
  { by do 2 apply consistent_set_stats. }
  { done. }
  rewrite Hadd. exists c3, call. split; [done|].
  apply add_to_cache_counts in Hadd as (Hh & Hm & Hl).
  split_and!; try done; try (by apply Hlast); by rewrite ?Hh, ?Hm, ?Hl.
Qed.

Lemma step_consistent mm c o :
  0 < mm → consistent c → max_models c = mm →
  ∃ c', step c o = Some c' ∧ consistent c' ∧ max_models c' = mm.
Proof.
  intros Hmm Hc Hcmm.
  destruct o as [k cfg env|k h cfg env|k|]; cbn [step].
  - unfold get_model.
    destruct (get_model_lookup_spec c k Hc) as (c1 & -> & Hc1 & _ & _ & Hmm1 & _).
    destruct (models c !! k) as [h|]; [exists c1; split_and!; [done..|congruence]|].
    destruct (load_model_frame c1 k cfg env) as [st Hframe].
    destruct (_load_model c1 k cfg env) as [[c2 calls] [h|e]]; simpl in Hframe; subst c2.
    + destruct (add_to_cache_spec (set_stats st c1) k h cfg env)
        as (c3 & -> & Hc3 & Hmm3 & _).
      { by apply consistent_set_stats. }
      { simpl. lia. }
      exists c3. simpl in *. split_and!; [done..|congruence].
    + eexists. split; [done|]. split; [by apply consistent_set_stats|]. simpl. congruence.
  - destruct (add_to_cache_spec c k h cfg env Hc) as (c3 & -> & Hc3 & Hmm3 & _); [lia|].
    exists c3. split_and!; [done..|congruence].
  - eexists. split; [done|].
    destruct (invalidate_spec c k Hc) as (Hc' & _ & _ & Hmm' & _). split; [done|congruence].
  - eexists. split; [done|]. split; [apply clear_consistent|done].
Qed.

Lemma run_consistent mm ops : ∀ c c',
  0 < mm → consistent c → max_models c = mm → run c ops = Some c' →
  consistent c' ∧ max_models c' = mm.
Proof.
  induction ops as [|o ops IH]; intros c c' Hmm Hc Hcmm; simpl.
  - by intros [= <-].
  - destruct (step_consistent mm c o Hmm Hc Hcmm) as (c1 & -> & Hc1 & Hmm1).
    by apply IH.
Qed.

(** C9.  invalidate followed by get_model loads afresh.  In every state
    reached from a new cache with room for at least one model, after
    invalidate of a cached key the key is absent, and a get_model of that
    key whose load succeeds misses, calls the provider once more, counts
    one more miss and one more load and no hit, and caches the model it
    returns. *)
Theorem invalidate_then_get_reloads :
  ∀ mm mem ttl ops c k cfg env path h,
    0 < mm → run (init mm mem ttl) ops = Some c →
    is_Some (models c !! k) →
    file_path cfg = Some path → env_download env = Ok tt → env_load env = Ok h →
    models (invalidate c k) !! k = None
    ∧ ∃ c' call,
        get_model (invalidate c k) k cfg env = (Some c', [call], Ok h)
        ∧ misses (stats c') = misses (stats c) + 1
        ∧ loads (stats c') = loads (stats c) + 1
        ∧ hits (stats c') = hits (stats c)
        ∧ models c' !! k = Some h.
Proof.
  intros mm mem ttl ops c k cfg env path h Hmm Hrun Hk Hpath Hdl Hload.
  destruct (run_consistent mm ops _ _ Hmm (init_consistent mm mem ttl) eq_refl Hrun)
    as [Hc Hcmm].
  destruct (invalidate_spec c k Hc) as (Hc1 & Hm1 & _ & Hmm1 & _ & Hst1).
  assert (Hgone : models (invalidate c k) !! k = None) by (rewrite Hm1; apply lookup_delete_eq).
  split; [done|].
  destruct (get_model_miss (invalidate c k) k cfg env path h)
    as (c' & call & Hget & _ & Hk' & _ & Hh & Hm & Hl); [done|lia|done..|].
  exists c', call. rewrite Hst1 in *. done.
Qed.

Lemma invalidate_then_get_reloads_witness :
  models (invalidate
     (mkCache 100 300 3600 {["m1" := 1%nat]} {["m1" := mkConfig None (Some "/models/m1.pt")]}
        [("m1", 10)] {["m1" := 10]} {["m1" := 100]} (mkCacheStats 0 1 0 1)) "m1") !! "m1" = None
  ∧ ∃ c' call,
      get_model (invalidate
        (mkCache 100 300 3600 {["m1" := 1%nat]} {["m1" := mkConfig None (Some "/models/m1.pt")]}
           [("m1", 10)] {["m1" := 10]} {["m1" := 100]} (mkCacheStats 0 1 0 1)) "m1")
        "m1" (mkConfig None (Some "/models/m1.pt")) (mkEnv (Ok tt) (Ok 2%nat) None 11)
      = (Some c', [call], Ok 2%nat)
      ∧ misses (stats c') = 1 + 1
      ∧ loads (stats c') = 1 + 1
      ∧ hits (stats c') = 0
      ∧ models c' !! "m1" = Some 2%nat.
Proof.
  apply (invalidate_then_get_reloads 100 300 3600
           [OpGet "m1" (mkConfig None (Some "/models/m1.pt")) (mkEnv (Ok tt) (Ok 1%nat) None 10)]
           (mkCache 100 300 3600 {["m1" := 1%nat]}
              {["m1" := mkConfig None (Some "/models/m1.pt")]}
              [("m1", 10)] {["m1" := 10]} {["m1" := 100]} (mkCacheStats 0 1 0 1))
           "m1" (mkConfig None (Some "/models/m1.pt")) (mkEnv (Ok tt) (Ok 2%nat) None 11)
           "/models/m1.pt" 2%nat).
  - lia.
  - reflexivity.
  - by eexists.
  - reflexivity.
  - reflexivity.
  - reflexivity.
Defined.

(** The hit rate is computed behind its guard: with a non-zero memory
    budget get_stats returns, and [hit_rate] is the float
    [hits / (hits + misses)] once a get_model was counted and the int 0
    before. *)
Lemma get_stats_hit_rate c :
  max_memory_mb c ≠ 0 →
  ∃ v, get_stats c = Ok v
       ∧ sv_hit_rate v
         = (if bool_decide (0 < hits (stats c) + misses (stats c))
            then Float (IntTrueDiv (hits (stats c)) (hits (stats c) + misses (stats c)))
            else Int 0).
Proof.
  intros Hmem. unfold get_stats, truediv.
  case_bool_decide as Hpos.
  - rewrite decide_False by lia. rewrite decide_False by done. by eexists.
  - rewrite decide_False by done. by eexists.
Qed.

(** C10 fails on the code: [memory_usage_pct] divides by [max_memory_mb]
    without a guard, so get_stats raises ZeroDivisionError on every cache
    made with a memory budget of 0, whatever its counters. *)
Theorem get_stats_raises_on_zero_budget :
  ∀ c, max_memory_mb c = 0 → get_stats c = Raise ZeroDivisionError.
Proof.
  intros c Hmem. unfold get_stats, truediv. rewrite Hmem.
  case_bool_decide as Hpos; [rewrite decide_False by lia|]; done.
Qed.

Lemma get_stats_raises_on_zero_budget_witness :
  get_stats (init 5 0 3600) = Raise ZeroDivisionError.
Proof. apply get_stats_raises_on_zero_budget. reflexivity. Defined.
End ModelCacheFacts.

Module OverlapFacts.
Import ModelCache ModelCacheSpec ModelCacheFacts.

Lemma sum_list_insert {X} (f : X → nat) (l : list X) i q q' :
  l !! i = Some q →
  sum_list (f <$> <[i:=q']> l) + f q = sum_list (f <$> l) + f q'.
Proof.
  revert i. induction l as [|a l IH]; intros [|i] Hi; simplify_eq/=; [lia|].
  specialize (IH i Hi). lia.
Qed.

Lemma elem_of_insert_keep {X} (l : list X) i q q' p :
  l !! i = Some q → p ≠ q → p ∈ l → p ∈ <[i:=q']> l.
Proof.
  intros Hi Hne [j Hj]%list_elem_of_lookup. apply list_elem_of_lookup. exists j.
  rewrite list_lookup_insert_ne; [done|]. intros ->. congruence.
Qed.

Lemma elem_of_insert_new {X} (l : list X) i q q' :
  l !! i = Some q → q' ∈ <[i:=q']> l.
Proof.
  intros Hi. apply list_elem_of_lookup. exists i.
  apply list_lookup_insert_eq. by apply lookup_lt_Some in Hi.
Qed.

Lemma elem_of_insert_inv {X} (l : list X) i q' p :
  p ∈ <[i:=q']> l → p = q' ∨ p ∈ l.
Proof.
  intros [j Hj]%list_elem_of_lookup. destruct (decide (i = j)) as [->|Hne].
  - destruct (decide (j < length l)) as [Hlt|Hge].
    + rewrite list_lookup_insert_eq in Hj by done. left. congruence.
    + rewrite list_insert_ge in Hj by lia. right. by eapply list_elem_of_lookup_2.
  - rewrite list_lookup_insert_ne in Hj by done. right. by eapply list_elem_of_lookup_2.
Qed.

Lemma load_model_calls c k cfg env :
  models (_load_model c k cfg env).1.1 = models c
  ∧ match (_load_model c k cfg env).2 with
    | Ok _ => length (_load_model c k cfg env).1.2 = 1
    | Raise _ =>
        length (_load_model c k cfg env).1.2
        = if bool_decide ((_load_model c k cfg env).1.2 ≠ []) then 1 else 0
    end.
Proof.
  unfold _load_model. destruct (file_path cfg); [|done].
  destruct (_ || _); simpl.
  - destruct (env_download env); [|done]. by destruct (env_load env).
  - by destruct (env_load env).
Qed.

Lemma lookup_models c k c' r :
  get_model_lookup c k = Ok (c', r) → models c' = models c ∧ r = models c !! k.
Proof.
  unfold get_model_lookup. destruct (models c !! k) as [h|].
  - destruct (OrderedDict.move_to_end k (access_order c)); [|done]. by intros [= <- <-].
  - by intros [= <- <-].
Qed.

Lemma add_to_cache_holds c k h cfg env c' :
  _add_to_cache c k h cfg env = Ok c' → models c' !! k = Some h.
Proof.
  unfold _add_to_cache. destruct (_ensure_cache_capacity c _); [|done].
  intros [= <-]. apply lookup_insert_eq.
Qed.

(** A turn of any caller keeps the account. *)
Lemma caller_step_accounted k cfg w i env :
  accounted k w → accounted k (caller_step k cfg w i env).
Proof.
  intros (Hcalls & Hcached & Hhit). unfold caller_step.
  destruct (callers w !! i) as [[| |h|h b|e b|]|] eqn:Hi; try done.
  - destruct (get_model_lookup (cache w) k) as [[c1 r]|e] eqn:Hl.
    + apply lookup_models in Hl as [Hm ->].
      destruct (models (cache w) !! k) as [h|] eqn:Hk; unfold accounted; simpl.
      * split; [|split].
        -- pose proof (sum_list_insert calls_of _ i _ (Returned h false) Hi). simpl in *. lia.
        -- intros h'. rewrite Hm. intros Hh'.
           eapply elem_of_insert_keep; [done|done|apply Hcached; congruence].
        -- intros h' [Heq|Hin]%elem_of_insert_inv.
           ++ injection Heq as ->.
              eapply elem_of_insert_keep; [done|done|apply Hcached; congruence].
           ++ eapply elem_of_insert_keep; [done|done|by apply Hhit].
      * split; [|split].
        -- pose proof (sum_list_insert calls_of _ i _ Missed Hi). simpl in *. lia.
        -- intros h'. rewrite Hm. intros Hh'.
           eapply elem_of_insert_keep; [done|done|apply Hcached; congruence].
        -- intros h' [Heq|Hin]%elem_of_insert_inv; [done|].
           eapply elem_of_insert_keep; [done|done|by apply Hhit].
    + unfold accounted; simpl. split; [|split].
      * pose proof (sum_list_insert calls_of _ i _ (Raised e false) Hi). simpl in *. lia.
      * intros h' Hh'. eapply elem_of_insert_keep; [done|done|apply Hcached; congruence].
      * intros h' [Heq|Hin]%elem_of_insert_inv; [done|].
        eapply elem_of_insert_keep; [done|done|by apply Hhit].
  - pose proof (load_model_calls (cache w) k cfg env) as [Hm Hlen].
    destruct (_load_model (cache w) k cfg env) as [[c2 calls] [h|e]]; simpl in *;
      unfold accounted; simpl; rewrite length_app.
    + split; [|split].
      * pose proof (sum_list_insert calls_of _ i _ (Loaded h) Hi). simpl in *. lia.
      * intros h'. rewrite Hm. intros Hh'.
        eapply elem_of_insert_keep; [done|done|apply Hcached; congruence].
      * intros h' [Heq|Hin]%elem_of_insert_inv; [done|].
        eapply elem_of_insert_keep; [done|done|by apply Hhit].
    + split; [|split].
      * pose proof (sum_list_insert calls_of _ i _
                      (Raised e (bool_decide (calls ≠ []))) Hi) as Hs. simpl in Hs.
        destruct (bool_decide (calls ≠ [])); lia.
      * intros h'. rewrite Hm. intros Hh'.
        eapply elem_of_insert_keep; [done|done|apply Hcached; congruence].
      * intros h' [Heq|Hin]%elem_of_insert_inv; [done|].
        eapply elem_of_insert_keep; [done|done|by apply Hhit].
  - destruct (_add_to_cache (cache w) k h cfg env) as [c3|e] eqn:Hadd.
    + apply add_to_cache_holds in Hadd. unfold accounted; simpl. split; [|split].
      * pose proof (sum_list_insert calls_of _ i _ (Returned h true) Hi). simpl in *. lia.
      * intros h'. rewrite Hadd. intros [= <-]. by eapply elem_of_insert_new.
      * intros h' [Heq|Hin]%elem_of_insert_inv; [done|].
        eapply elem_of_insert_keep; [done|done|by apply Hhit].
    + assert (accounted k (mkWorld (cache w) (provider_calls w) (<[i:=Stuck]> (callers w)))
              ∧ accounted k (mkWorld (cache w) (provider_calls w)
                               (<[i:=Raised e true]> (callers w)))) as [H1 H2].
      { unfold accounted; simpl. split; (split; [|split]).
        - pose proof (sum_list_insert calls_of _ i _ Stuck Hi). simpl in *. lia.
        - intros h' Hh'. eapply elem_of_insert_keep; [done|done|apply Hcached; congruence].
        - intros h' [Heq|Hin]%elem_of_insert_inv; [done|].
          eapply elem_of_insert_keep; [done|done|by apply Hhit].
        - pose proof (sum_list_insert calls_of _ i _ (Raised e true) Hi). simpl in *. lia.
        - intros h' Hh'. eapply elem_of_insert_keep; [done|done|apply Hcached; congruence].
        - intros h' [Heq|Hin]%elem_of_insert_inv; [done|].
          eapply elem_of_insert_keep; [done|done|by apply Hhit]. }
      by destruct e.
Qed.

Lemma run_schedule_accounted k cfg sched : ∀ w,
  accounted k w → accounted k (run_schedule k cfg w sched).
Proof.
  induction sched as [|[i env] sched IH]; intros w Hw; [done|].
  apply IH. by apply caller_step_accounted.
Qed.

Lemma caller_step_length k cfg w i env :
  length (callers (caller_step k cfg w i env)) = length (callers w).
Proof.
  unfold caller_step.
  destruct (callers w !! i) as [[| |h|h b|e b|]|]; try done.
  - destruct (get_model_lookup (cache w) k) as [[c1 [h|]]|e]; simpl; by rewrite length_insert.
  - destruct (_load_model (cache w) k cfg env) as [[c2 calls] [h|e]]; simpl;
      by rewrite length_insert.
  - destruct (_add_to_cache (cache w) k h cfg env) as [c3|[]]; simpl; by rewrite length_insert.
Qed.

Lemma run_schedule_length k cfg sched : ∀ w,
  length (callers (run_schedule k cfg w sched)) = length (callers w).
Proof.
  induction sched as [|[i env] sched IH]; intros w; [done|].
  simpl. rewrite IH. apply caller_step_length.
Qed.

Lemma entered_accounted c k K : models c !! k = None → accounted k (entered c K).
Proof.
  intros Hk. unfold accounted, entered. simpl. split; [|split].
  - induction K as [|K IH]; [done|]. exact IH.
  - intros h. by rewrite Hk.
  - intros h Hin. apply elem_of_replicate in Hin as [Heq _]. discriminate Heq.
Qed.

Lemma calls_of_le_1 (l : list phase) : sum_list (calls_of <$> l) ≤ length l.
Proof.
  induction l as [|p l IH]; [done|].
  assert (calls_of p ≤ 1) as Hp by (destruct p as [| | |? []|? []|]; simpl; lia).
  rewrite fmap_cons. change (sum_list (calls_of p :: (calls_of <$> l)))
    with (calls_of p + sum_list (calls_of <$> l)).
  simpl length. lia.
Qed.

Lemma calls_of_count (l : list phase) :
  sum_list (calls_of <$> l) = length (filter (λ p, calls_of p = 1) l).
Proof.
  induction l as [|p l IH]; [done|].
  rewrite fmap_cons, filter_cons.
  change (sum_list (calls_of p :: (calls_of <$> l)))
    with (calls_of p + sum_list (calls_of <$> l)).
  rewrite IH. destruct (decide (calls_of p = 1)) as [->|Hne]; [done|].
  assert (calls_of p = 0) as ->; [|done].
  destruct p as [| | |? []|? []|]; simpl in *; lia.
Qed.

Lemma calls_of_elem (l : list phase) p : p ∈ l → calls_of p ≤ sum_list (calls_of <$> l).
Proof.
  induction l as [|q l IH]; [by intros ?%elem_of_nil|].
  rewrite fmap_cons.
  change (sum_list (calls_of q :: (calls_of <$> l)))
    with (calls_of q + sum_list (calls_of <$> l)).
  intros [->|Hin]%elem_of_cons; [lia|]. specialize (IH Hin). lia.
Qed.

(** The turns of a caller that has returned change nothing. *)
Lemma caller_step_returned k cfg w i env h b :
  callers w !! i = Some (Returned h b) → caller_step k cfg w i env = w.
Proof. intros Hi. unfold caller_step. by rewrite Hi. Qed.

(** Callers that come one by one after the model was installed all hit. *)
Lemma one_by_one_hits k cfg h0 envs : ∀ w prefix,
  consistent (cache w) → models (cache w) !! k = Some h0 →
  callers w = prefix ++ replicate (length envs) Called →
  ∃ w', run_schedule k cfg w (one_by_one_from (length prefix) envs) = w'
        ∧ provider_calls w' = provider_calls w
        ∧ callers w' = prefix ++ replicate (length envs) (Returned h0 false).
Proof.
  induction envs as [|env envs IH]; intros w prefix Hc Hk Hcallers.
  - exists w. by rewrite Hcallers.
  - simpl length in *. cbn [one_by_one_from run_schedule foldl fst snd].
    assert (Hi : callers w !! length prefix = Some Called).
    { rewrite Hcallers. by apply list_lookup_middle. }
    destruct (get_model_lookup_spec (cache w) k Hc) as (c1 & Hl & Hc1 & Hm1 & _).
    assert (Hstep : caller_step k cfg w (length prefix) env
                    = mkWorld c1 (provider_calls w)
                        (<[length prefix:=Returned h0 false]> (callers w))).
    { unfold caller_step. by rewrite Hi, Hl, Hk. }
    rewrite Hstep.
    set (w1 := mkWorld c1 _ _).
    assert (Hcallers1 : callers w1 = (prefix ++ [Returned h0 false])
                                       ++ replicate (length envs) Called).
    { unfold w1. simpl. rewrite Hcallers.
      replace (length prefix) with (length prefix + 0) at 1 by lia.
      rewrite insert_app_r. simpl. by rewrite <-app_assoc. }
    assert (Hi1 : callers w1 !! length prefix = Some (Returned h0 false)).
    { rewrite Hcallers1, <-app_assoc. by apply list_lookup_middle. }
    rewrite !(caller_step_returned k cfg w1 _ env h0 false Hi1).
    destruct (IH w1 (prefix ++ [Returned h0 false])) as (w' & Hrun & Hcalls & Hcs).
    + done.
    + unfold w1. simpl. by rewrite Hm1.
    + done.
    + rewrite length_app in Hrun. simpl in Hrun.
      replace (length prefix + 1) with (S (length prefix)) in Hrun by lia.
      exists w'. split; [exact Hrun|]. split; [done|].
      rewrite Hcs, <-app_assoc. done.
Qed.

(** C2 as it stands fails: two callers of get_model for one absent key
    whose calls overlap (both look the key up before either installs its
    model) make the provider load twice, and each returns its own model. *)
Lemma overlapped_gets_load_twice :
  models default_cache !! "m1" = None
  ∧ length (provider_calls
       (run_schedule "m1" (mkConfig None (Some "/models/m1.pt"))
          (entered default_cache 2)
          (overlapped (mkEnv (Ok tt) (Ok 1) None 10) (mkEnv (Ok tt) (Ok 2) None 11)))) = 2
  ∧ callers
       (run_schedule "m1" (mkConfig None (Some "/models/m1.pt"))
          (entered default_cache 2)
          (overlapped (mkEnv (Ok tt) (Ok 1) None 10) (mkEnv (Ok tt) (Ok 2) None 11)))
    = [Returned 1 true; Returned 2 true]
  ∧ loads (stats (cache
       (run_schedule "m1" (mkConfig None (Some "/models/m1.pt"))
          (entered default_cache 2)
          (overlapped (mkEnv (Ok tt) (Ok 1) None 10) (mkEnv (Ok tt) (Ok 2) None 11)))))
    = 2%Z.
Proof. split_and!; vm_compute; reflexivity. Qed.

(** C2, amended.  The cache has no latch: the provider loads once for
    every caller that finds the key absent.  When [K >= 1] callers of
    get_model for one absent key have all returned a model, under any
    interleaving of their turns at the lock, the provider was called at
    least once and at most [K] times, once for each caller that returned a
    model it loaded itself, and a caller that hit returned a model that
    one of the callers loaded.  When the calls do not overlap and the
    first load succeeds, the provider is called exactly once and all
    callers return the model of that load. *)
Theorem get_model_loads_once_per_miss :
  (∀ c k cfg K sched,
     models c !! k = None → 0 < K →
     Forall (λ p, returned p = true)
       (callers (run_schedule k cfg (entered c K) sched)) →
     1 ≤ length (provider_calls (run_schedule k cfg (entered c K) sched))
     ∧ length (provider_calls (run_schedule k cfg (entered c K) sched)) ≤ K
     ∧ length (provider_calls (run_schedule k cfg (entered c K) sched))
       = length (filter (λ p, calls_of p = 1)
                   (callers (run_schedule k cfg (entered c K) sched)))
     ∧ ∀ h, Returned h false ∈ callers (run_schedule k cfg (entered c K) sched) →
            Returned h true ∈ callers (run_schedule k cfg (entered c K) sched))
  ∧ (∀ mm mem ttl ops c k cfg path env0 envs h0,
       (0 < mm)%Z → run (init mm mem ttl) ops = Some c →
       models c !! k = None →
       file_path cfg = Some path → env_download env0 = Ok tt → env_load env0 = Ok h0 →
       length (provider_calls
                 (run_schedule k cfg (entered c (S (length envs)))
                    (one_by_one (env0 :: envs)))) = 1
       ∧ callers (run_schedule k cfg (entered c (S (length envs)))
                    (one_by_one (env0 :: envs)))
         = Returned h0 true :: replicate (length envs) (Returned h0 false)).
Proof.
  split.
  - intros c k cfg K sched Hk HK Hall.
    pose proof (run_schedule_accounted k cfg sched _ (entered_accounted c k K Hk))
      as (Hcalls & _ & Hhit).
    pose proof (run_schedule_length k cfg sched (entered c K)) as Hlen.
    simpl in Hlen. rewrite length_replicate in Hlen.
    set (w := run_schedule k cfg (entered c K) sched) in *.
    split_and!.
    + assert (∃ h, Returned h true ∈ callers w) as [h Hin].
      { destruct (callers w) as [|p ps] eqn:Hps; [simpl in Hlen; lia|].
        apply Forall_cons in Hall as [Hp _].
        destruct p as [| | |h b|? ?|]; try done.
        exists h. destruct b; [by left|]. apply Hhit. by left. }
      rewrite Hcalls. apply (calls_of_elem _ _ Hin).
    + rewrite Hcalls, <-Hlen. apply calls_of_le_1.
    + rewrite Hcalls. apply calls_of_count.
    + done.
  - intros mm mem ttl ops c k cfg path env0 envs h0 Hmm Hrun Hk Hpath Hdl Hload.
    destruct (run_consistent mm ops _ _ Hmm (init_consistent mm mem ttl) eq_refl Hrun)
      as [Hc Hcmm].
    unfold one_by_one. cbn [one_by_one_from run_schedule foldl fst snd].
    destruct (get_model_lookup_spec c k Hc) as (c1 & Hl & Hc1 & Hm1 & _ & Hmm1 & _).
    rewrite Hk in Hl.
    assert (Hs1 : caller_step k cfg (entered c (S (length envs))) 0 env0
                  = mkWorld c1 [] (Missed :: replicate (length envs) Called)).
    { unfold caller_step, entered. simpl. by rewrite Hl. }
    rewrite Hs1.
    destruct (load_model_ok c1 k cfg env0 path h0 Hpath Hdl Hload) as [call Hld].
    set (c2 := set_stats _ c1) in Hld.
    assert (Hs2 : caller_step k cfg (mkWorld c1 [] (Missed :: replicate (length envs) Called))
                    0 env0
                  = mkWorld c2 [call] (Loaded h0 :: replicate (length envs) Called)).
    { unfold caller_step. simpl. by rewrite Hld. }
    rewrite Hs2.
    destruct (add_to_cache_spec c2 k h0 cfg env0)
      as (c3 & Hadd & Hc3 & _ & _ & _ & _ & _ & Hk3 & _).
    { by apply consistent_set_stats. }
    { unfold c2. simpl. lia. }
    assert (Hs3 : caller_step k cfg
                    (mkWorld c2 [call] (Loaded h0 :: replicate (length envs) Called)) 0 env0
                  = mkWorld c3 [call] (Returned h0 true :: replicate (length envs) Called)).
    { unfold caller_step. simpl. by rewrite Hadd. }
    rewrite Hs3.
    destruct (one_by_one_hits k cfg h0 envs
                (mkWorld c3 [call] (Returned h0 true :: replicate (length envs) Called))
                [Returned h0 true] Hc3 Hk3 eq_refl) as (w' & Hrun' & Hcalls' & Hcs').
    simpl in Hrun'. unfold run_schedule in Hrun'. rewrite Hrun', Hcalls', Hcs'. done.
Qed.

Lemma get_model_loads_once_per_miss_witness :
  1 ≤ length (provider_calls
        (run_schedule "m1" (mkConfig None (Some "/models/m1.pt")) (entered default_cache 2)
           (overlapped (mkEnv (Ok tt) (Ok 1) None 10) (mkEnv (Ok tt) (Ok 2) None 11))))
  ∧ length (provider_calls
        (run_schedule "m1" (mkConfig None (Some "/models/m1.pt")) (entered default_cache 2)
           (overlapped (mkEnv (Ok tt) (Ok 1) None 10) (mkEnv (Ok tt) (Ok 2) None 11)))) ≤ 2
  ∧ length (provider_calls
        (run_schedule "m1" (mkConfig None (Some "/models/m1.pt")) (entered default_cache 2)
           (overlapped (mkEnv (Ok tt) (Ok 1) None 10) (mkEnv (Ok tt) (Ok 2) None 11))))
    = length (filter (λ p, calls_of p = 1)
        (callers
           (run_schedule "m1" (mkConfig None (Some "/models/m1.pt")) (entered default_cache 2)
              (overlapped (mkEnv (Ok tt) (Ok 1) None 10) (mkEnv (Ok tt) (Ok 2) None 11)))))
  ∧ ∀ h, Returned h false ∈ callers
        (run_schedule "m1" (mkConfig None (Some "/models/m1.pt")) (entered default_cache 2)
           (overlapped (mkEnv (Ok tt) (Ok 1) None 10) (mkEnv (Ok tt) (Ok 2) None 11))) →
         Returned h true ∈ callers
        (run_schedule "m1" (mkConfig None (Some "/models/m1.pt")) (entered default_cache 2)
           (overlapped (mkEnv (Ok tt) (Ok 1) None 10) (mkEnv (Ok tt) (Ok 2) None 11))).
Proof.
  apply (proj1 get_model_loads_once_per_miss).
  - reflexivity.
  - lia.
  - repeat constructor.
Defined.
End OverlapFacts.

(** ** The camera pipeline *)

Module StreamFacts.
Import StreamSession StreamSpec.
Local Open Scope Z_scope.

Lemma full_true {X} (q : AsyncQueue.t X) :
  0 < AsyncQueue.maxsize q → AsyncQueue.maxsize q ≤ AsyncQueue.qsize q →
  AsyncQueue.full q = true.
Proof.
  intros Hpos Hfull. unfold AsyncQueue.full.
  rewrite bool_decide_eq_false_2 by lia. by rewrite bool_decide_eq_true_2.
Qed.

Lemma full_false {X} (q : AsyncQueue.t X) :
  AsyncQueue.qsize q < AsyncQueue.maxsize q → AsyncQueue.full q = false.
Proof.
  intros Hroom. unfold AsyncQueue.full.
  case_bool_decide; [done|]. by rewrite bool_decide_eq_false_2 by lia.
Qed.

(** A frame read while the queue is full takes the place of the oldest. *)
Lemma capture_step_full s f now oldest rest :
  is_active s = true → cap_opened s = true →
  AsyncQueue.items (frame_queue s) = oldest :: rest →
  AsyncQueue.maxsize (frame_queue s) = AsyncQueue.qsize (frame_queue s) →
  capture_step s (Some f) now
  = mkSession true true
      (AsyncQueue.mkAsyncQueue (AsyncQueue.maxsize (frame_queue s)) (rest ++ [(f, now)]))
      (frame_buffer_maxlen s)
      (deque_append (frame_buffer_maxlen s) (frame_buffer s) f)
      (Some now) (reconnect_attempts s) (frame_count s + 1) (dropped_frames s + 1)
      match last_frame_time s with
      | Some last => deque_append 30 (fps_counter s) (fps_sample last now)
      | None => fps_counter s
      end
      (processing_times s).
Proof.
  intros Hact Hcap Hitems Hsize.
  unfold capture_step, _read_frame_sync. rewrite Hact, Hcap. simpl.
  assert (Hlen : AsyncQueue.qsize (frame_queue s) = Z.of_nat (S (length rest))).
  { unfold AsyncQueue.qsize. by rewrite Hitems. }
  unfold AsyncQueue.put_nowait at 1. rewrite full_true by lia.
  unfold AsyncQueue.get_nowait. rewrite Hitems.
  unfold AsyncQueue.put_nowait.
  rewrite full_false; [done|].
  unfold AsyncQueue.qsize. simpl. lia.
Qed.

(** C5.  The frame queue drops the oldest frame.  When an active session
    whose queue of capacity [C > 0] holds [C] frames reads a new frame, the
    oldest queued frame leaves the queue, the new frame goes last, the
    queue still holds [C] frames, and dropped_frames and frame_count grow
    by one.  With capacity 2 and frames F1 to F4 read before the processor
    runs, the processor takes F3 and F4 and nothing else, and
    dropped_frames is 2; with the capacity 30 of the source and 32 frames
    it takes F3 to F32. *)
Theorem capture_drops_oldest :
  (∀ s f now oldest rest,
     is_active s = true → cap_opened s = true →
     AsyncQueue.items (frame_queue s) = oldest :: rest →
     AsyncQueue.maxsize (frame_queue s) = AsyncQueue.qsize (frame_queue s) →
     AsyncQueue.items (frame_queue (capture_step s (Some f) now)) = rest ++ [(f, now)]
     ∧ AsyncQueue.maxsize (frame_queue (capture_step s (Some f) now))
       = AsyncQueue.maxsize (frame_queue s)
     ∧ dropped_frames (capture_step s (Some f) now) = dropped_frames s + 1
     ∧ frame_count (capture_step s (Some f) now) = frame_count s + 1)
  ∧ (process_n 2 (capture_all (with_capacity 2 (connect (init None) true).1) (frames 1 4))).2
    = [3; 4]%nat
  ∧ (process_n 5 (capture_all (with_capacity 2 (connect (init None) true).1) (frames 1 4))).2
    = [3; 4]%nat
  ∧ dropped_frames (capture_all (with_capacity 2 (connect (init None) true).1) (frames 1 4)) = 2
  ∧ (process_n 40 (capture_all (connect (init None) true).1 (frames 1 32))).2 = seq 3 30
  ∧ dropped_frames (capture_all (connect (init None) true).1 (frames 1 32)) = 2.
Proof.
  split; [|split_and!; vm_compute; reflexivity].
  intros s f now oldest rest Hact Hcap Hitems Hsize.
  by rewrite (capture_step_full s f now oldest rest).
Qed.

Lemma capture_drops_oldest_witness :
  AsyncQueue.items (frame_queue
     (capture_step (capture_all (with_capacity 2 (connect (init None) true).1) (frames 1 2))
        (Some 3%nat) 3)) = [(2%nat, 2)] ++ [(3%nat, 3)]
  ∧ AsyncQueue.maxsize (frame_queue
     (capture_step (capture_all (with_capacity 2 (connect (init None) true).1) (frames 1 2))
        (Some 3%nat) 3))
    = AsyncQueue.maxsize (frame_queue
        (capture_all (with_capacity 2 (connect (init None) true).1) (frames 1 2)))
  ∧ dropped_frames
     (capture_step (capture_all (with_capacity 2 (connect (init None) true).1) (frames 1 2))
        (Some 3%nat) 3)
    = dropped_frames (capture_all (with_capacity 2 (connect (init None) true).1) (frames 1 2)) + 1
  ∧ frame_count
     (capture_step (capture_all (with_capacity 2 (connect (init None) true).1) (frames 1 2))
        (Some 3%nat) 3)
    = frame_count (capture_all (with_capacity 2 (connect (init None) true).1) (frames 1 2)) + 1.
Proof.
  apply (proj1 capture_drops_oldest _ 3%nat 3 (1%nat, 1)); reflexivity.
Defined.
End StreamFacts.

Module MotionFacts.
Import StreamManager.
Local Open Scope Z_scope.

Lemma significant_iff c : significant c = true ↔ (500 < contourArea c)%Q.
Proof.
  unfold significant. rewrite Qlt_alt.
  destruct (500 ?= contourArea c)%Q; split; congruence.
Qed.

(** C6.  Motion detection compares strictly.  Every event that
    _process_frame inserts is a motion_detected event of a frame whose
    motion pixel count is strictly above the camera's motion threshold;
    it counts the contours whose area is strictly above 500 and carries
    the bounding boxes of the first ten of them, so at most ten boxes, each
    of a contour of area above 500.  A count equal to the threshold
    inserts no event, and a contour of area exactly 500 is not
    significant. *)
Theorem motion_detection_is_strict :
  (∀ camera cid prev cv uuid now db_ok ev,
     ev ∈ _process_frame camera cid prev cv uuid now db_ok →
     get_motion_threshold camera < countNonZero cv
     ∧ event_type ev = "motion_detected"
     ∧ motion_pixels ev = countNonZero cv
     ∧ contour_count ev
       = Z.of_nat (length (filter (λ c, significant c = true) (findContours cv)))
     ∧ bounding_boxes ev
       = box_of <$> take 10 (filter (λ c, significant c = true) (findContours cv))
     ∧ (length (bounding_boxes ev) ≤ 10)%nat
     ∧ ∀ b, b ∈ bounding_boxes ev →
            ∃ c, c ∈ findContours cv ∧ (500 < contourArea c)%Q ∧ b = box_of c)
  ∧ (∀ camera cid prev cv uuid now db_ok,
       countNonZero cv = get_motion_threshold camera →
       _process_frame camera cid prev cv uuid now db_ok = [])
  ∧ (∀ c, significant c = true ↔ (500 < contourArea c)%Q)
  ∧ (∀ c, (contourArea c == 500)%Q → significant c = false).
Proof.
  split_and!.
  - intros camera cid prev cv uuid now db_ok ev. unfold _process_frame.
    destruct (negb _); [by intros ?%elem_of_nil|].
    destruct prev; [|by intros ?%elem_of_nil].
    case_bool_decide as Hthr; [|by intros ?%elem_of_nil].
    destruct db_ok; [|by intros ?%elem_of_nil].
    intros ->%list_elem_of_singleton. simpl.
    split_and!; try done.
    + rewrite length_fmap, length_take. lia.
    + intros b (c & -> & Hc)%list_elem_of_fmap.
      exists c. apply elem_of_take in Hc as (i & Hc & _).
      apply list_elem_of_lookup_2, list_elem_of_filter in Hc as [Hsig Hc].
      split; [done|]. split; [by apply significant_iff|done].
  - intros camera cid prev cv uuid now db_ok Heq. unfold _process_frame.
    destruct (negb _); [done|]. destruct prev; [|done].
    by rewrite bool_decide_eq_false_2 by lia.
  - apply significant_iff.
  - intros c Heq. unfold significant.
    destruct (500 ?= contourArea c)%Q eqn:Hcmp; try done.
    apply Qlt_alt in Hcmp. rewrite Heq in Hcmp. by apply Qlt_irrefl in Hcmp.
Qed.

Lemma motion_detection_is_strict_witness :
  get_motion_threshold (mkCamera (Some true) None) < countNonZero (mkVision 5001 [mkContour (501 # 1) (10, 10, 100, 100); mkContour (500 # 1) (0, 0, 5, 5)])
  ∧ event_type (mkEvent "e1" "cam1" "motion_detected" 7 5001 1 [mkBox 10 10 100 100 501] 7) = "motion_detected"
  ∧ motion_pixels (mkEvent "e1" "cam1" "motion_detected" 7 5001 1 [mkBox 10 10 100 100 501] 7)
    = countNonZero (mkVision 5001 [mkContour (501 # 1) (10, 10, 100, 100); mkContour (500 # 1) (0, 0, 5, 5)])
  ∧ contour_count (mkEvent "e1" "cam1" "motion_detected" 7 5001 1 [mkBox 10 10 100 100 501] 7)
    = Z.of_nat (length (filter (λ c, significant c = true)
        (findContours (mkVision 5001 [mkContour (501 # 1) (10, 10, 100, 100); mkContour (500 # 1) (0, 0, 5, 5)]))))
  ∧ bounding_boxes (mkEvent "e1" "cam1" "motion_detected" 7 5001 1 [mkBox 10 10 100 100 501] 7)
    = box_of <$> take 10 (filter (λ c, significant c = true)
        (findContours (mkVision 5001 [mkContour (501 # 1) (10, 10, 100, 100); mkContour (500 # 1) (0, 0, 5, 5)])))
  ∧ (length (bounding_boxes (mkEvent "e1" "cam1" "motion_detected" 7 5001 1 [mkBox 10 10 100 100 501] 7)) ≤ 10)%nat
  ∧ ∀ b, b ∈ bounding_boxes (mkEvent "e1" "cam1" "motion_detected" 7 5001 1 [mkBox 10 10 100 100 501] 7) →
         ∃ c, c ∈ findContours (mkVision 5001 [mkContour (501 # 1) (10, 10, 100, 100); mkContour (500 # 1) (0, 0, 5, 5)])
              ∧ (500 < contourArea c)%Q ∧ b = box_of c.
Proof.
  apply (proj1 motion_detection_is_strict (mkCamera (Some true) None) "cam1" (Some 0%nat)
           (mkVision 5001 [mkContour (501 # 1) (10, 10, 100, 100);
                           mkContour (500 # 1) (0, 0, 5, 5)]) "e1" 7 true).
  vm_compute. left.
Defined.
End MotionFacts.

(** ** The scheduler and its workers *)

Module SchedulerFacts.
Import InferenceQueue InferenceQueueSpec SchedulerSpec.

Local Abbreviation countm st m :=
  (length (filter (λ j : InferenceJob, status j = st) (map_to_list m).*2)).

Lemma countm_insert_fresh st (m : gmap string InferenceJob) k j :
  m !! k = None →
  countm st (<[k:=j]> m) = (if decide (status j = st) then 1 else 0) + countm st m.
Proof.
  intros Hk.
  rewrite (Permutation_length (filter_Permutation _ _ _
             (fmap_Permutation snd _ _ (map_to_list_insert m k j Hk)))).
  rewrite fmap_cons. simpl. rewrite filter_cons. by destruct (decide _).
Qed.

Lemma countm_delete st (m : gmap string InferenceJob) k j :
  m !! k = Some j →
  countm st m = (if decide (status j = st) then 1 else 0) + countm st (delete k m).
Proof.
  intros Hk. rewrite <-(insert_delete_id m k j Hk) at 1.
  apply countm_insert_fresh. apply lookup_delete_eq.
Qed.

Lemma countm_alter st (m : gmap string InferenceJob) k j f :
  m !! k = Some j →
  countm st (alter f k m) = (if decide (status (f j) = st) then 1 else 0) + countm st (delete k m).
Proof.
  intros Hk.
  assert (alter f k m = <[k:=f j]> (delete k m)) as ->.
  { apply map_eq. intros i. destruct (decide (i = k)) as [->|Hne].
    - rewrite lookup_alter_eq, Hk, lookup_insert_eq. done.
    - rewrite lookup_alter_ne, lookup_insert_ne, lookup_delete_ne by done. done. }
  apply countm_insert_fresh. apply lookup_delete_eq.
Qed.

Lemma size_counts (m : gmap string InferenceJob) :
  size m = countm PENDING m + countm PROCESSING m + countm COMPLETED m + countm FAILED m.
Proof.
  induction m as [|k j m Hk IH] using map_ind.
  - rewrite map_size_empty, map_to_list_empty. done.
  - rewrite map_size_insert_None by done.
    rewrite !countm_insert_fresh by done. rewrite IH.
    destruct (status j); repeat case_decide; try done; lia.
Qed.


Local Ltac count_done := repeat case_decide; simpl in *; try done; try lia.

Lemma count_unfold st q : count st q = countm st (jobs q).
Proof. done. Qed.

Lemma size_bounded (m : gmap nat string) n :
  (∀ w, is_Some (m !! w) → w ∈ seq 0 n) → size m ≤ n.
Proof.
  intros Hdom. rewrite <-size_dom.
  rewrite <-(size_set_seq (C:=gset nat) 0 n).
  apply subseteq_size. intros w Hw. apply elem_of_dom in Hw.
  apply Hdom in Hw. apply elem_of_seq in Hw. apply elem_of_set_seq. lia.
Qed.

Lemma held_not_running s :
  sched_inv s → _running (the_queue s) = false → holding s = ∅.
Proof.
  intros I Hr. apply map_empty. intros w.
  destruct (holding s !! w) eqn:Hw; [|done].
  assert (w ∈ workers (the_queue s)) as Hin by (apply I; eauto).
  rewrite (inv_workers _ I), Hr in Hin. by apply elem_of_nil in Hin.
Qed.

Lemma moved_on_refl j : moved_on j j.
Proof. by repeat split. Qed.

Lemma start_inv s : sched_inv s → sched_inv (sched_start s).
Proof.
  intros I. pose proof (held_not_running s I) as Hnr.
  destruct I as [Honce Hqp Hpq Hhp Hho Hhw Hw Hsd Hif Hb Hids Hcoh Htot Hcomp Hfail Haw].
  destruct s as [q sh hold]. unfold sched_start, start. simpl in *.
  destruct (_running q) eqn:Hrun; [by constructor; simpl; rewrite ?Hrun|].
  rewrite Hw. specialize (Hnr eq_refl). subst hold.
  constructor; simpl; try done.
  intros w [? Hl]. by rewrite lookup_empty in Hl.
Qed.

Lemma stop_inv s : sched_inv s → sched_inv (sched_stop s).
Proof.
  intros I.
  destruct I as [Honce Hqp Hpq Hhp Hho Hhw Hw Hsd Hif Hb Hids Hcoh Htot Hcomp Hfail Haw].
  destruct s as [q sh hold]. unfold sched_stop, stop. simpl in *.
  destruct (_running q) eqn:Hrun; [|by constructor; simpl; rewrite ?Hrun].
  constructor; simpl; try done.
  intros w [? Hl]. by rewrite lookup_empty in Hl.
Qed.


(** What a submission does to a running queue with room, whether the heap
    takes the tuple in or a comparison raises. *)
Lemma submit_job_effect q uuid m img ty ps prio now1 now2 :
  _running q = true → (qsize q < max_queue_size q)%Z →
  ∃ h' r, submit_job q uuid m img ty ps prio now1 now2
          = (mkQueue (max_workers q) (max_queue_size q) h'
               (<[uuid := mkJob uuid m img ty ps now1 None None PENDING None None prio]> (jobs q))
               (workers q)
               (mkStats (total_jobs (stats q) + 1) (completed_jobs (stats q))
                  (failed_jobs (stats q)) (queue_size (stats q)) (active_workers (stats q)))
               (_running q), r)
          ∧ h' ≡ₚ ((- prio)%Z, now2, uuid) :: queue q.
Proof.
  intros Hrun Hroom. unfold submit_job. rewrite Hrun. simpl negb. cbv iota.
  rewrite bool_decide_eq_false_2 by lia. simpl.
  destruct (Heapq.heappush entry_lt (queue q) _) as [h' r] eqn:Hpush.
  apply HeapqFacts.heappush_Permutation in Hpush.
  exists h'. destruct r; eexists; (split; [|done]);
    unfold set_queue, set_stats, set_jobs; simpl; by rewrite Hrun.
Qed.

(** The same on a well-formed heap and with a timestamp that is new. *)
Lemma submit_job_state q uuid m img ty ps prio now1 now2 :
  _running q = true → (qsize q < max_queue_size q)%Z →
  queue_wf (queue q) → (∀ e, e ∈ queue q → (entry_timestamp e < now2)%Z) →
  ∃ h', submit_job q uuid m img ty ps prio now1 now2
        = (mkQueue (max_workers q) (max_queue_size q) h'
             (<[uuid := mkJob uuid m img ty ps now1 None None PENDING None None prio]> (jobs q))
             (workers q)
             (mkStats (total_jobs (stats q) + 1) (completed_jobs (stats q))
                (failed_jobs (stats q)) (queue_size (stats q)) (active_workers (stats q)))
             (_running q), Ok uuid)
        ∧ h' ≡ₚ ((- prio)%Z, now2, uuid) :: queue q ∧ queue_wf h'.
Proof.
  intros Hrun Hroom Hwf Hfresh. unfold submit_job.
  rewrite Hrun. simpl negb. cbv iota.
  rewrite bool_decide_eq_false_2 by lia.
  destruct (InferenceQueueFacts.push_wf (queue q) ((- prio)%Z, now2, uuid) Hwf
              (InferenceQueueFacts.fresh_key _ _ _ _ Hfresh))
    as (h' & Hpush & Hwf' & Hperm).
  simpl. rewrite Hpush. exists h'. unfold set_queue, set_stats, set_jobs. simpl. by rewrite Hrun.
Qed.

Lemma submit_inv s uuid m img ty ps prio now1 now2 :
  sched_inv s →
  jobs (the_queue s) !! uuid = None →
  sched_inv (sched_submit s uuid m img ty ps prio now1 now2).1
  ∧ (∀ e, e ∈ queue (the_queue (sched_submit s uuid m img ty ps prio now1 now2).1) →
          e ∈ queue (the_queue s) ∨ entry_timestamp e = now2)
  ∧ (∀ jid, is_Some (jobs (the_queue (sched_submit s uuid m img ty ps prio now1 now2).1) !! jid) →
            is_Some (jobs (the_queue s) !! jid) ∨ jid = uuid)
  ∧ (∀ jid j, jobs (the_queue s) !! jid = Some j →
              jobs (the_queue (sched_submit s uuid m img ty ps prio now1 now2).1) !! jid = Some j).
Proof.
  intros I Hfresh.
  destruct s as [q sh hold]. unfold sched_submit. simpl in *.
  destruct (_running q) eqn:Hrun; cycle 1.
  { rewrite InferenceQueueFacts.submit_job_not_running by done. simpl. auto. }
  destruct (decide (max_queue_size q ≤ qsize q)%Z) as [Hfull|Hroom].
  { rewrite InferenceQueueFacts.submit_job_full by done. simpl. auto. }
  destruct I as [Honce Hqp Hpq Hhp Hho Hhw Hw Hsd Hif Hb Hids Hcoh Htot Hcomp Hfail Haw].
  simpl in *.
  destruct (submit_job_effect q uuid m img ty ps prio now1 now2)
    as (h' & r & -> & Hperm); [done|lia|].
  simpl.
  assert (Hnotq : uuid ∉ entry_job <$> queue q).
  { intros [e [Heq He]]%list_elem_of_fmap. apply Hqp in He.
    unfold entry_job in *. rewrite <-Heq, Hfresh in He. done. }
  split; [|split; [|split]].
  - unfold count, jobs_with in *. simpl in *.
    constructor; unfold count, jobs_with; simpl.
    + rewrite Hperm. simpl. by constructor.
    + intros e He. rewrite Hperm in He. apply elem_of_cons in He as [->|He].
      * by rewrite lookup_insert_eq.
      * rewrite lookup_insert_ne; [by apply Hqp|].
        intros Heq. apply Hnotq. apply list_elem_of_fmap. eauto.
    + rewrite (Permutation_length Hperm).
      rewrite countm_insert_fresh by done. simpl. count_done.
    + intros w jid Hh. rewrite lookup_insert_ne; [by eapply Hhp|].
      intros <-. apply Hhp in Hh. by rewrite Hfresh in Hh.
    + done.
    + done.
    + by rewrite Hrun in *.
    + done.
    + intros Hs. rewrite countm_insert_fresh by done. simpl. rewrite <-Hif by done.
      count_done.
    + rewrite countm_insert_fresh by done. count_done.
    + intros jid j. destruct (decide (jid = uuid)) as [->|Hne].
      * rewrite lookup_insert_eq. by intros [= <-].
      * rewrite lookup_insert_ne by done. apply Hids.
    + intros jid j. destruct (decide (jid = uuid)) as [->|Hne].
      * rewrite lookup_insert_eq. intros [= <-]. by repeat split.
      * rewrite lookup_insert_ne by done. apply Hcoh.
    + rewrite map_size_insert_None by done. lia.
    + rewrite countm_insert_fresh by done. rewrite Hcomp. count_done.
    + rewrite countm_insert_fresh by done. rewrite Hfail. count_done.
    + done.
  - intros e He. rewrite Hperm in He. apply elem_of_cons in He as [->|He]; auto.
  - intros jid. destruct (decide (jid = uuid)) as [->|Hne]; [auto|].
    rewrite lookup_insert_ne by done. auto.
  - intros jid j Hj. rewrite lookup_insert_ne; [done|]. intros <-. by rewrite Hfresh in Hj.
Qed.


Lemma size_alter (m : gmap string InferenceJob) k f : size (alter f k m) = size m.
Proof. by rewrite <-!size_dom, dom_alter_L. Qed.

Lemma alter_twice (m : gmap string InferenceJob) k f g :
  alter f k (alter g k m) = alter (f ∘ g) k m.
Proof.
  apply map_eq. intros i. destruct (decide (i = k)) as [->|Hne].
  - rewrite !lookup_alter_eq. by destruct (m !! k).
  - by rewrite !lookup_alter_ne.
Qed.

Lemma countm_move st (m : gmap string InferenceJob) k j f :
  m !! k = Some j →
  countm st (alter f k m) + (if decide (status j = st) then 1 else 0)
  = countm st m + (if decide (status (f j) = st) then 1 else 0).
Proof.
  intros Hk. rewrite (countm_alter st m k j f Hk), (countm_delete st m k j Hk). lia.
Qed.

Lemma lookup_alter_status (m : gmap string InferenceJob) k k' f st :
  status <$> m !! k' = Some st → k ≠ k' → status <$> (alter f k m !! k') = Some st.
Proof. intros Hst Hne. by rewrite lookup_alter_ne. Qed.

(** What a turn of a worker does to a running, non-empty queue: the heap
    gives up one tuple; the worker takes it, unless a comparison raised and
    the tuple is lost. *)
Lemma worker_get_effect q now :
  _running q = true → queue q ≠ [] →
  ∃ x h', queue q ≡ₚ x :: h'
    ∧ (worker_get q now
       = (update_job (mark_processing now) (entry_job x) (set_queue h' q), Some x)
       ∨ worker_get q now = (set_queue h' q, None)).
Proof.
  intros Hrun Hne.
  destruct (Heapq.heappop entry_lt (queue q)) as [h' r] eqn:Hpop.
  destruct (HeapqFacts.heappop_Permutation entry_lt _ _ _ Hpop Hne) as (x & _ & Hperm & Hr).
  exists x, h'. split; [done|].
  unfold worker_get. rewrite Hrun. simpl.
  destruct (queue q) eqn:Hq; [done|]. rewrite Hpop.
  destruct r as [y|err]; [left|right; done]. by rewrite (Hr y eq_refl).
Qed.

(** The tuple that leaves the queue, and the job it names. *)
Lemma worker_get_job s now :
  sched_inv s → _running (the_queue s) = true → queue (the_queue s) ≠ [] →
  ∃ e h' j,
    queue (the_queue s) ≡ₚ e :: h'
    ∧ jobs (the_queue s) !! entry_job e = Some j ∧ status j = PENDING
    ∧ (entry_job e ∉ entry_job <$> h')
    ∧ NoDup (entry_job <$> h')
    ∧ (worker_get (the_queue s) now
       = (update_job (mark_processing now) (entry_job e) (set_queue h' (the_queue s)), Some e)
       ∨ worker_get (the_queue s) now = (set_queue h' (the_queue s), None)).
Proof.
  intros I Hrun Hne.
  destruct (worker_get_effect (the_queue s) now Hrun Hne) as (e & h' & Hperm & Hget).
  assert (He : e ∈ queue (the_queue s)) by (rewrite Hperm; left).
  pose proof (inv_queued_pending _ I e He) as Hst.
  destruct (jobs (the_queue s) !! entry_job e) as [j|] eqn:Hj; [|done].
  injection Hst as Hst.
  pose proof (inv_queued_once _ I) as Hnd. rewrite Hperm in Hnd. simpl in Hnd.
  apply NoDup_cons in Hnd as [Hnotin Hnd].
  exists e, h', j. done.
Qed.

(** On an ordered heap the worker takes the tuple that is due first. *)
Lemma worker_get_due q now :
  queue_wf (queue q) → _running q = true → queue q ≠ [] →
  ∃ e h',
    worker_get q now
    = (update_job (mark_processing now) (entry_job e) (set_queue h' q), Some e)
    ∧ queue q ≡ₚ e :: h' ∧ queue_wf h'
    ∧ (∀ e', e' ∈ queue q → e' ≠ e → dispatches_before e e').
Proof.
  intros Hwf Hrun Hne.
  by apply InferenceQueueFacts.worker_get_ok.
Qed.

Lemma worker_get_idle q now :
  _running q = false ∨ queue q = [] → worker_get q now = (q, None).
Proof.
  unfold worker_get. intros [->| ->]; [done|]. by destruct (_running q).
Qed.

Lemma take_inv s w now now2 :
  sched_inv s →
  sched_inv (worker_take s w now now2)
  ∧ (∀ e, e ∈ queue (the_queue (worker_take s w now now2)) → e ∈ queue (the_queue s))
  ∧ (∀ jid, is_Some (jobs (the_queue (worker_take s w now now2)) !! jid) →
            is_Some (jobs (the_queue s) !! jid))
  ∧ (∀ jid j, jobs (the_queue s) !! jid = Some j →
       ∃ j', jobs (the_queue (worker_take s w now now2)) !! jid = Some j' ∧ moved_on j j').
Proof.
  intros I. unfold worker_take.
  assert (Hsame : sched_inv s
    ∧ (∀ e, e ∈ queue (the_queue s) → e ∈ queue (the_queue s))
    ∧ (∀ jid, is_Some (jobs (the_queue s) !! jid) → is_Some (jobs (the_queue s) !! jid))
    ∧ (∀ jid j, jobs (the_queue s) !! jid = Some j →
         ∃ j', jobs (the_queue s) !! jid = Some j' ∧ moved_on j j')).
  { split_and!; eauto using moved_on_refl. }
  destruct (bool_decide (w ∈ workers (the_queue s))) eqn:Hw; [|done].
  destruct (bool_decide (holding s !! w = None)) eqn:Hidle; [|done].
  apply bool_decide_eq_true in Hw, Hidle. simpl.
  destruct (_running (the_queue s)) eqn:Hrun; cycle 1.
  { rewrite worker_get_idle by auto. by destruct s. }
  destruct (decide (queue (the_queue s) = [])) as [Hq|Hq].
  { rewrite worker_get_idle by auto. by destruct s. }
  clear Hsame.
  destruct (worker_get_job s now I Hrun Hq)
    as (e & h' & j & Hperm & Hj & Hst & Hnotin & Hnd & Hget).
  destruct I as [Honce Hqp Hpq Hhp Hho Hhw Hws Hsd Hif Hb Hids Hcoh Htot Hcomp Hfail Haw].
  destruct s as [q sh hold]. unfold count, jobs_with in *. simpl in *.
  set (jid := entry_job e) in *.
  assert (Hin : ∀ e', e' ∈ h' → e' ∈ queue q).
  { intros e' He'. rewrite Hperm. by right. }
  assert (Hother : ∀ e', e' ∈ h' → jid ≠ entry_job e').
  { intros e' He' Heq. apply Hnotin. rewrite Heq. apply list_elem_of_fmap. eauto. }
  assert (Hheld : ∀ w' jid', hold !! w' = Some jid' → jid ≠ jid').
  { intros w' jid' Hh <-. apply Hhp in Hh. rewrite Hj in Hh. simpl in Hh. congruence. }
  pose proof (Hcoh _ _ Hj) as Hcj. unfold job_coherent in Hcj. rewrite Hst in Hcj.
  destruct Hcj as (Hs1 & Hs2 & Hs3 & Hs4).
  pose proof (Permutation_length Hperm) as Hlen. simpl in Hlen.
  destruct Hget as [Hget|Hget]; rewrite Hget; clear Hget; cycle 1.
  { (* a comparison raised: the tuple is lost, nothing else changes *)
    simpl. split_and!; eauto using moved_on_refl.
    constructor; unfold count, jobs_with; simpl; try done.
    - intros e' He'. auto.
    - lia. }
  destruct sh; simpl; fold jid.
  - (* the thread pool refuses the job *)
    unfold worker_finish, update_job, set_stats, set_jobs. simpl.
    rewrite alter_twice.
    set (f := mark_failed shutdown_text now2 ∘ mark_processing now).
    pose proof (countm_move PENDING _ _ _ f Hj) as Hc1.
    pose proof (countm_move PROCESSING _ _ _ f Hj) as Hc2.
    pose proof (countm_move COMPLETED _ _ _ f Hj) as Hc3.
    pose proof (countm_move FAILED _ _ _ f Hj) as Hc4.
    rewrite Hst in Hc1, Hc2, Hc3, Hc4. simpl in Hc1, Hc2, Hc3, Hc4.
    split_and!.
    + constructor; unfold count, jobs_with; simpl.
      * done.
      * intros e' He'. apply lookup_alter_status; auto.
      * lia.
      * intros w' jid' Hh. apply lookup_alter_status; eauto.
      * done.
      * done.
      * exact Hws.
      * done.
      * done.
      * lia.
      * intros jid' j'. destruct (decide (jid' = jid)) as [->|Hne].
        -- rewrite lookup_alter_eq, Hj. intros [= <-]. simpl. by apply Hids.
        -- rewrite lookup_alter_ne by done. apply Hids.
      * intros jid' j'. destruct (decide (jid' = jid)) as [->|Hne].
        -- rewrite lookup_alter_eq, Hj. intros [= <-].
           unfold job_coherent. simpl. rewrite Hs3. eauto.
        -- rewrite lookup_alter_ne by done. apply Hcoh.
      * by rewrite size_alter.
      * lia.
      * lia.
      * done.
    + auto.
    + intros jid' [j' Hj']. destruct (decide (jid' = jid)) as [->|Hne]; [eauto|].
      rewrite lookup_alter_ne in Hj' by done. eauto.
    + intros jid' j' Hj'. destruct (decide (jid' = jid)) as [->|Hne].
      * rewrite lookup_alter_eq, Hj'. eexists. split; [done|].
        assert (j' = j) as -> by congruence.
        unfold moved_on, request. simpl. rewrite Hst. simpl. split_and!; [done|lia|lia].
      * rewrite lookup_alter_ne by done. eauto using moved_on_refl.
  - (* the job goes to the thread pool *)
    unfold update_job, set_jobs. simpl.
    set (f := mark_processing now).
    pose proof (countm_move PENDING _ _ _ f Hj) as Hc1.
    pose proof (countm_move PROCESSING _ _ _ f Hj) as Hc2.
    pose proof (countm_move COMPLETED _ _ _ f Hj) as Hc3.
    pose proof (countm_move FAILED _ _ _ f Hj) as Hc4.
    rewrite Hst in Hc1, Hc2, Hc3, Hc4. simpl in Hc1, Hc2, Hc3, Hc4.
    assert (Hsize : size (<[w:=jid]> hold) = S (size hold))
      by (by rewrite map_size_insert_None).
    assert (Hhw' : ∀ w', is_Some (<[w:=jid]> hold !! w') → w' ∈ workers q).
    { intros w' Hs. destruct (decide (w' = w)) as [->|Hne]; [done|].
      rewrite lookup_insert_ne in Hs by done. auto. }
    split_and!.
    + constructor; unfold count, jobs_with; simpl.
      * done.
      * intros e' He'. apply lookup_alter_status; auto.
      * lia.
      * intros w' jid'. destruct (decide (w' = w)) as [->|Hne].
        -- rewrite lookup_insert_eq. intros [= <-].
           by rewrite lookup_alter_eq, Hj.
        -- rewrite lookup_insert_ne by done. intros Hh.
           apply lookup_alter_status; eauto.
      * intros w1 w2 jid'.
        destruct (decide (w1 = w)) as [->|Hne1]; destruct (decide (w2 = w)) as [->|Hne2];
          rewrite ?lookup_insert_eq, ?lookup_insert_ne by done; try done.
        -- intros [= <-] Hh. by apply Hheld in Hh.
        -- intros Hh [= <-]. by apply Hheld in Hh.
        -- apply Hho.
      * done.
      * exact Hws.
      * done.
      * intros _. specialize (Hif eq_refl). lia.
      * specialize (Hif eq_refl).
        pose proof (size_bounded (<[w:=jid]> hold) (max_workers q)) as Hsb.
        rewrite Hws, Hrun in Hhw'. specialize (Hsb Hhw'). lia.
      * intros jid' j'. destruct (decide (jid' = jid)) as [->|Hne].
        -- rewrite lookup_alter_eq, Hj. intros [= <-]. simpl. by apply Hids.
        -- rewrite lookup_alter_ne by done. apply Hids.
      * intros jid' j'. destruct (decide (jid' = jid)) as [->|Hne].
        -- rewrite lookup_alter_eq, Hj. intros [= <-].
           unfold job_coherent. simpl. eauto.
        -- rewrite lookup_alter_ne by done. apply Hcoh.
      * by rewrite size_alter.
      * lia.
      * lia.
      * done.
    + auto.
    + intros jid' [j' Hj']. destruct (decide (jid' = jid)) as [->|Hne]; [eauto|].
      rewrite lookup_alter_ne in Hj' by done. eauto.
    + intros jid' j' Hj'. destruct (decide (jid' = jid)) as [->|Hne].
      * rewrite lookup_alter_eq, Hj'. eexists. split; [done|].
        assert (j' = j) as -> by congruence.
        unfold moved_on, request. simpl. rewrite Hst. simpl. split_and!; [done|lia|lia].
      * rewrite lookup_alter_ne by done. eauto using moved_on_refl.
Qed.


Lemma resume_inv s w yolo_service env now :
  sched_inv s →
  sched_inv (worker_resume s w yolo_service env now)
  ∧ queue (the_queue (worker_resume s w yolo_service env now)) = queue (the_queue s)
  ∧ (∀ jid, is_Some (jobs (the_queue (worker_resume s w yolo_service env now)) !! jid) →
            is_Some (jobs (the_queue s) !! jid))
  ∧ (∀ jid j, jobs (the_queue s) !! jid = Some j →
       ∃ j', jobs (the_queue (worker_resume s w yolo_service env now)) !! jid = Some j'
             ∧ moved_on j j').
Proof.
  intros I. unfold worker_resume.
  destruct (holding s !! w) as [jid|] eqn:Hw; [|split_and!; eauto using moved_on_refl].
  pose proof (inv_held_processing _ I _ _ Hw) as Hst.
  destruct (jobs (the_queue s) !! jid) as [j|] eqn:Hj; [|done].
  injection Hst as Hst.
  destruct I as [Honce Hqp Hpq Hhp Hho Hhw Hws Hsd Hif Hb Hids Hcoh Htot Hcomp Hfail Haw].
  destruct s as [q sh hold]. unfold count, jobs_with in *. simpl in *.
  assert (Hsh : sh = false).
  { destruct sh; [|done]. rewrite Hsd in Hw by done. by rewrite lookup_empty in Hw. }
  subst sh. specialize (Hif eq_refl).
  assert (Hqueued : ∀ e', e' ∈ queue q → jid ≠ entry_job e').
  { intros e' He' ->. apply Hqp in He'. rewrite Hj in He'. simpl in He'. congruence. }
  assert (Hheld : ∀ w' jid', w' ≠ w → hold !! w' = Some jid' → jid ≠ jid').
  { intros w' jid' Hne Hh <-. apply Hne. by eapply Hho. }
  pose proof (Hcoh _ _ Hj) as Hcj. unfold job_coherent in Hcj. rewrite Hst in Hcj.
  destruct Hcj as (Hs1 & Hs2 & Hs3 & Hs4).
  assert (Hsize : size hold = S (size (delete w hold))).
  { rewrite map_size_delete, Hw. assert (size hold ≠ 0); [|lia].
    intros Hz. apply map_size_empty_inv in Hz. subst hold.
    by rewrite lookup_empty in Hw. }
  set (res := job_outcome (_process_inference_job yolo_service j env)).
  set (f := match res with
            | inl r => mark_completed r now
            | inr msg => mark_failed msg now
            end).
  assert (Hjobs : jobs (worker_finish q jid res now) = alter f jid (jobs q)).
  { unfold worker_finish, f. by destruct res. }
  assert (Hq' : queue (worker_finish q jid res now) = queue q).
  { unfold worker_finish. by destruct res. }
  assert (Hfr : rank (status (f j)) = 2
                ∧ request (f j) = request j ∧ job_id (f j) = job_id j
                ∧ job_coherent (f j)).
  { unfold f, request, job_coherent. destruct res; simpl; rewrite ?Hs3, ?Hs4; eauto 10. }
  destruct Hfr as (Hf1 & Hf2 & Hf3 & Hf4).
  pose proof (countm_move PENDING _ _ _ f Hj) as Hc1.
  pose proof (countm_move PROCESSING _ _ _ f Hj) as Hc2.
  pose proof (countm_move COMPLETED _ _ _ f Hj) as Hc3.
  pose proof (countm_move FAILED _ _ _ f Hj) as Hc4.
  rewrite Hst in Hc1, Hc2, Hc3, Hc4. simpl in Hc1, Hc2, Hc3, Hc4.
  split_and!.
  - constructor; unfold count, jobs_with; simpl; rewrite ?Hjobs, ?Hq'.
    + done.
    + intros e' He'. apply lookup_alter_status; auto.
    + revert Hc1. unfold f. destruct res; simpl; lia.
    + intros w' jid'. destruct (decide (w' = w)) as [->|Hne].
      * by rewrite lookup_delete_eq.
      * rewrite lookup_delete_ne by done. intros Hh.
        apply lookup_alter_status; eauto.
    + intros w1 w2 jid'.
      destruct (decide (w1 = w)) as [->|Hne1]; [by rewrite lookup_delete_eq|].
      destruct (decide (w2 = w)) as [->|Hne2]; [by rewrite lookup_delete_eq|].
      rewrite !lookup_delete_ne by done. apply Hho.
    + intros w'. destruct (decide (w' = w)) as [->|Hne].
      * rewrite lookup_delete_eq. by intros [? ?].
      * rewrite lookup_delete_ne by done. unfold worker_finish. destruct res; simpl; auto.
    + unfold worker_finish. destruct res; exact Hws.
    + done.
    + intros _. revert Hc2. unfold f. destruct res; simpl; lia.
    + assert (max_workers (worker_finish q jid res now) = max_workers q) as ->
        by (unfold worker_finish; by destruct res).
      revert Hc2. unfold f. destruct res; simpl; lia.
    + intros jid' j'. destruct (decide (jid' = jid)) as [->|Hne].
      * rewrite lookup_alter_eq, Hj. intros [= <-]. rewrite Hf3. by apply Hids.
      * rewrite lookup_alter_ne by done. apply Hids.
    + intros jid' j'. destruct (decide (jid' = jid)) as [->|Hne].
      * rewrite lookup_alter_eq, Hj. by intros [= <-].
      * rewrite lookup_alter_ne by done. apply Hcoh.
    + rewrite size_alter. unfold worker_finish. by destruct res.
    + revert Hc3. unfold worker_finish, f. destruct res; simpl; lia.
    + revert Hc4. unfold worker_finish, f. destruct res; simpl; lia.
    + unfold worker_finish. by destruct res.
  - done.
  - intros jid' [j' Hj']. rewrite Hjobs in Hj'.
    destruct (decide (jid' = jid)) as [->|Hne]; [eauto|].
    rewrite lookup_alter_ne in Hj' by done. eauto.
  - intros jid' j' Hj'. rewrite Hjobs. destruct (decide (jid' = jid)) as [->|Hne].
    + rewrite lookup_alter_eq, Hj'. eexists. split; [done|].
      assert (j' = j) as -> by congruence.
      unfold moved_on. rewrite Hf2, Hst, Hf1. simpl. split_and!; [done|lia|lia].
    + rewrite lookup_alter_ne by done. eauto using moved_on_refl.
Qed.


Lemma moved_on_trans j1 j2 j3 : moved_on j1 j2 → moved_on j2 j3 → moved_on j1 j3.
Proof.
  intros (Hr1 & Hk1 & Hf1) (Hr2 & Hk2 & Hf2). split_and!.
  - congruence.
  - lia.
  - intros Ht. rewrite Hf1 in * by done. auto.
Qed.

(** One event keeps the invariant, queues only the tuple it submits,
    registers only the job it submits and moves every job forward. *)
Lemma sched_step_inv s ev :
  sched_inv s →
  (∀ u, uuid_of ev = Some u → jobs (the_queue s) !! u = None) →
  sched_inv (sched_step s ev)
  ∧ (∀ e, e ∈ queue (the_queue (sched_step s ev)) →
          e ∈ queue (the_queue s) ∨ stamp_of ev = Some (entry_timestamp e))
  ∧ (∀ jid, is_Some (jobs (the_queue (sched_step s ev)) !! jid) →
            is_Some (jobs (the_queue s) !! jid) ∨ uuid_of ev = Some jid)
  ∧ (∀ jid j, jobs (the_queue s) !! jid = Some j →
       ∃ j', jobs (the_queue (sched_step s ev)) !! jid = Some j' ∧ moved_on j j').
Proof.
  intros I Hfresh.
  destruct ev as [| |uuid m img ty ps prio now1 now2|w now now2|w svc env now];
    cbn [sched_step stamp_of uuid_of].
  - split; [by apply start_inv|].
    destruct s as [q sh hold]. unfold sched_start, start. simpl.
    destruct (_running q); simpl; split_and!; eauto using moved_on_refl.
  - split; [by apply stop_inv|].
    destruct s as [q sh hold]. unfold sched_stop, stop. simpl.
    destruct (_running q); simpl; split_and!; eauto using moved_on_refl.
  - destruct (submit_inv s uuid m img ty ps prio now1 now2 I) as (I' & Hq & Hj & Hk);
      [by apply Hfresh|].
    split_and!; [done| | |].
    + intros e He. destruct (Hq e He) as [?| ->]; auto.
    + intros jid Hs. destruct (Hj jid Hs) as [?| ->]; auto.
    + intros jid j Hjid. eauto using moved_on_refl.
  - destruct (take_inv s w now now2 I) as (I' & Hq & Hj & Hk). split_and!; auto.
  - destruct (resume_inv s w svc env now I) as (I' & Hq & Hj & Hk).
    split_and!; auto. intros e. rewrite Hq. auto.
Qed.

(** While the clock ticks, one event keeps the heap ordered and every
    pending job queued. *)
Lemma sched_step_tidy s ev :
  sched_inv s → sched_tidy s →
  (∀ t, stamp_of ev = Some t → ∀ e, e ∈ queue (the_queue s) → (entry_timestamp e < t)%Z) →
  (∀ u, uuid_of ev = Some u → jobs (the_queue s) !! u = None) →
  sched_tidy (sched_step s ev).
Proof.
  intros I [Hwf Hpq] Hts Hfresh.
  destruct ev as [| |uuid m img ty ps prio now1 now2|w now now2|w svc env now];
    cbn [sched_step stamp_of uuid_of] in *.
  - destruct s as [q sh hold].
    unfold sched_tidy, sched_start, start, count, jobs_with in *. simpl in *.
    by destruct (_running q).
  - destruct s as [q sh hold].
    unfold sched_tidy, sched_stop, stop, count, jobs_with in *. simpl in *.
    by destruct (_running q).
  - destruct s as [q sh hold].
    unfold sched_tidy, sched_submit, count, jobs_with in *. simpl in *.
    destruct (_running q) eqn:Hrun; cycle 1.
    { by rewrite InferenceQueueFacts.submit_job_not_running. }
    destruct (decide (max_queue_size q ≤ qsize q)%Z) as [Hfull|Hroom].
    { by rewrite InferenceQueueFacts.submit_job_full. }
    destruct (submit_job_state q uuid m img ty ps prio now1 now2)
      as (h' & -> & Hperm & Hwf'); [done|lia|done|by apply Hts|].
    simpl. split; [done|]. rewrite (Permutation_length Hperm).
    rewrite countm_insert_fresh by (by apply Hfresh). simpl. rewrite Hpq. count_done.
  - unfold worker_take.
    destruct (bool_decide (w ∈ workers (the_queue s)) && bool_decide (holding s !! w = None));
      [|done].
    destruct (_running (the_queue s)) eqn:Hrun; cycle 1.
    { rewrite worker_get_idle by auto. by destruct s. }
    destruct (decide (queue (the_queue s) = [])) as [Hq|Hq].
    { rewrite worker_get_idle by auto. by destruct s. }
    destruct (worker_get_due (the_queue s) now Hwf Hrun Hq) as (e & h' & -> & Hperm & Hwf' & _).
    assert (He : e ∈ queue (the_queue s)) by (rewrite Hperm; left).
    pose proof (inv_queued_pending _ I e He) as Hst.
    destruct (jobs (the_queue s) !! entry_job e) as [j|] eqn:Hj; [|done].
    injection Hst as Hst.
    pose proof (Permutation_length Hperm) as Hlen. simpl in Hlen.
    destruct s as [q sh hold]. unfold sched_tidy, count, jobs_with in *. simpl in *.
    destruct sh; simpl.
    + unfold worker_finish, update_job, set_stats, set_jobs. simpl.
      rewrite alter_twice.
      pose proof (countm_move PENDING _ _ _
                    (mark_failed shutdown_text now2 ∘ mark_processing now) Hj) as Hc.
      rewrite Hst in Hc. simpl in Hc. split; [done|]. lia.
    + unfold update_job, set_jobs. simpl.
      pose proof (countm_move PENDING _ _ _ (mark_processing now) Hj) as Hc.
      rewrite Hst in Hc. simpl in Hc. split; [done|]. lia.
  - unfold worker_resume.
    destruct (holding s !! w) as [jid|] eqn:Hw; [|done].
    pose proof (inv_held_processing _ I _ _ Hw) as Hst.
    destruct (jobs (the_queue s) !! jid) as [j|] eqn:Hj; [|done].
    injection Hst as Hst.
    destruct s as [q sh hold]. unfold sched_tidy, count, jobs_with in *. simpl in *.
    set (res := job_outcome (_process_inference_job svc j env)).
    set (f := match res with
              | inl r => mark_completed r now
              | inr msg => mark_failed msg now
              end).
    assert (Hjobs : jobs (worker_finish q jid res now) = alter f jid (jobs q)).
    { unfold worker_finish, f. by destruct res. }
    assert (Hq' : queue (worker_finish q jid res now) = queue q).
    { unfold worker_finish. by destruct res. }
    rewrite Hjobs, Hq'. split; [done|].
    pose proof (countm_move PENDING _ _ _ f Hj) as Hc.
    rewrite Hst in Hc. revert Hc. unfold f. destruct res; simpl; lia.
Qed.

Lemma new_scheduler_inv iw mw mq : sched_inv (new_scheduler iw mw mq).
Proof.
  constructor; unfold count, jobs_with; simpl; rewrite ?map_to_list_empty; simpl;
    try done; try lia.
  - constructor.
  - intros e He. by apply elem_of_nil in He.
  - intros w [? Hl]. by rewrite lookup_empty in Hl.
Qed.

Lemma new_scheduler_tidy iw mw mq : sched_tidy (new_scheduler iw mw mq).
Proof.
  split; [apply (InferenceQueueFacts.init_wf iw mw mq)|].
  unfold count, jobs_with. simpl. by rewrite map_to_list_empty.
Qed.

Lemma stamps_cons ev evs :
  stamps (ev :: evs) = from_option (λ t, [t]) [] (stamp_of ev) ++ stamps evs.
Proof. unfold stamps. simpl. by destruct (stamp_of ev). Qed.

Lemma uuids_cons ev evs :
  uuids (ev :: evs) = from_option (λ u, [u]) [] (uuid_of ev) ++ uuids evs.
Proof. unfold uuids. simpl. by destruct (uuid_of ev). Qed.

Lemma uuids_app evs1 evs2 : uuids (evs1 ++ evs2) = uuids evs1 ++ uuids evs2.
Proof. unfold uuids. apply omap_app. Qed.

Lemma stamps_app evs1 evs2 : stamps (evs1 ++ evs2) = stamps evs1 ++ stamps evs2.
Proof. unfold stamps. apply omap_app. Qed.

Lemma fresh_ids_cons ev evs :
  fresh_ids (ev :: evs) →
  fresh_ids evs ∧ (∀ u, uuid_of ev = Some u → u ∉ uuids evs).
Proof.
  unfold fresh_ids. rewrite uuids_cons.
  destruct (uuid_of ev) as [u|]; simpl; [|done].
  intros [Hn Hu]%NoDup_cons. split; [done|]. by intros ? [= <-].
Qed.

Lemma fresh_ids_app evs1 evs2 :
  fresh_ids (evs1 ++ evs2) →
  fresh_ids evs1 ∧ fresh_ids evs2 ∧ (∀ u, u ∈ uuids evs1 → u ∉ uuids evs2).
Proof.
  unfold fresh_ids. rewrite uuids_app. intros (H1 & Hd & H2)%NoDup_app. done.
Qed.

Lemma well_fed_fresh evs : well_fed evs → fresh_ids evs.
Proof. by intros [_ ?]. Qed.

Lemma well_fed_cons ev evs :
  well_fed (ev :: evs) →
  well_fed evs
  ∧ (∀ t t', stamp_of ev = Some t → t' ∈ stamps evs → (t < t')%Z)
  ∧ (∀ u, uuid_of ev = Some u → u ∉ uuids evs).
Proof.
  intros [Hs Hu]. destruct (fresh_ids_cons _ _ Hu) as [Hu' Hn].
  rewrite stamps_cons in Hs.
  destruct (stamp_of ev) as [t|]; simpl in *.
  - apply StronglySorted_inv in Hs as [Hs Hlt].
    split; [by split|]. split; [|done].
    intros ? t' [= <-] Ht'. rewrite Forall_forall in Hlt. by apply Hlt.
  - split; [by split|]. split; [|done]. by intros ? ? [=].
Qed.

Lemma sorted_app (l1 l2 : list Z) :
  StronglySorted Z.lt (l1 ++ l2) →
  StronglySorted Z.lt l1 ∧ StronglySorted Z.lt l2
  ∧ ∀ x y, x ∈ l1 → y ∈ l2 → (x < y)%Z.
Proof.
  induction l1 as [|a l1 IH]; simpl; intros Hs.
  { split; [constructor|]. split; [done|]. intros x y Hx. by apply elem_of_nil in Hx. }
  apply StronglySorted_inv in Hs as [Hs Hlt].
  destruct (IH Hs) as (H1 & H2 & H12).
  apply Forall_app in Hlt as [Hlt1 Hlt2].
  split; [by constructor|]. split; [done|].
  intros x y [->|Hx]%elem_of_cons Hy; [|by apply H12].
  rewrite Forall_forall in Hlt2. by apply Hlt2.
Qed.

Lemma well_fed_app evs1 evs2 :
  well_fed (evs1 ++ evs2) →
  well_fed evs1 ∧ well_fed evs2
  ∧ ∀ x y, x ∈ stamps evs1 → y ∈ stamps evs2 → (x < y)%Z.
Proof.
  intros [Hs Hu]. rewrite stamps_app in Hs.
  destruct (sorted_app _ _ Hs) as (H1 & H2 & H12).
  destruct (fresh_ids_app _ _ Hu) as (Hu1 & Hu2 & _).
  split; [by split|]. split; [by split|]. done.
Qed.

(** The invariant holds along every run, which moves every job forward,
    queues only what it submits and registers only what it submits. *)
Lemma sched_run_inv evs : ∀ s,
  sched_inv s → fresh_ids evs →
  (∀ u, u ∈ uuids evs → jobs (the_queue s) !! u = None) →
  sched_inv (sched_run s evs)
  ∧ (∀ jid j, jobs (the_queue s) !! jid = Some j →
       ∃ j', jobs (the_queue (sched_run s evs)) !! jid = Some j' ∧ moved_on j j')
  ∧ (∀ e, e ∈ queue (the_queue (sched_run s evs)) →
          e ∈ queue (the_queue s) ∨ entry_timestamp e ∈ stamps evs)
  ∧ (∀ jid, is_Some (jobs (the_queue (sched_run s evs)) !! jid) →
            is_Some (jobs (the_queue s) !! jid) ∨ jid ∈ uuids evs).
Proof.
  induction evs as [|ev evs IH]; intros s I Hfed Hfresh.
  { simpl. split_and!; eauto using moved_on_refl. }
  destruct (fresh_ids_cons _ _ Hfed) as (Hfed' & Hnew).
  destruct (sched_step_inv s ev I) as (I' & Hq & Hj & Hk).
  { intros u Hu. apply Hfresh. rewrite uuids_cons, Hu. by left. }
  destruct (IH (sched_step s ev) I' Hfed') as (I'' & Hk' & Hq' & Hj').
  { intros u Hu. destruct (jobs (the_queue (sched_step s ev)) !! u) eqn:Hl; [|done].
    destruct (Hj u) as [Hold|Hnow]; [eauto| |].
    - rewrite Hfresh in Hold; [by destruct Hold|].
      rewrite uuids_cons. apply elem_of_app. by right.
    - by apply Hnew in Hnow. }
  change (sched_run s (ev :: evs)) with (sched_run (sched_step s ev) evs).
  split_and!; [done| | |].
  - intros jid j Hjid. destruct (Hk jid j Hjid) as (j1 & Hj1 & Hm1).
    destruct (Hk' jid j1 Hj1) as (j2 & Hj2 & Hm2).
    eauto using moved_on_trans.
  - intros e He. rewrite stamps_cons.
    destruct (Hq' e He) as [He1|He1].
    + destruct (Hq e He1) as [?|Hs]; [by left|].
      right. rewrite Hs. simpl. by left.
    + right. apply elem_of_app. by right.
  - intros jid Hs. rewrite uuids_cons.
    destruct (Hj' jid Hs) as [Hs1|Hs1].
    + destruct (Hj jid Hs1) as [?|Hu]; [by left|].
      right. rewrite Hu. simpl. by left.
    + right. apply elem_of_app. by right.
Qed.

(** While the clock ticks, the heap stays ordered and every pending job
    queued along the run. *)
Lemma sched_run_tidy evs : ∀ s,
  sched_inv s → sched_tidy s → well_fed evs →
  (∀ e t, e ∈ queue (the_queue s) → t ∈ stamps evs → (entry_timestamp e < t)%Z) →
  (∀ u, u ∈ uuids evs → jobs (the_queue s) !! u = None) →
  sched_tidy (sched_run s evs).
Proof.
  induction evs as [|ev evs IH]; intros s I T Hfed Hts Hfresh; [done|].
  destruct (well_fed_cons _ _ Hfed) as (Hfed' & Hlt & Hnew).
  assert (Hu : ∀ u, uuid_of ev = Some u → jobs (the_queue s) !! u = None).
  { intros u Hu. apply Hfresh. rewrite uuids_cons, Hu. by left. }
  destruct (sched_step_inv s ev I Hu) as (I' & Hq & Hj & Hk).
  change (sched_run s (ev :: evs)) with (sched_run (sched_step s ev) evs).
  apply IH; [done| |done| |].
  - apply sched_step_tidy; [done..| |done].
    intros t Ht e He. apply (Hts e t He). rewrite stamps_cons, Ht. by left.
  - intros e t He Ht. destruct (Hq e He) as [Hold|Hnow].
    + apply (Hts e t Hold). rewrite stamps_cons. apply elem_of_app. by right.
    + by apply (Hlt _ _ Hnow).
  - intros u Hin. destruct (jobs (the_queue (sched_step s ev)) !! u) eqn:Hl; [|done].
    destruct (Hj u) as [Hold|Hnow]; [eauto| |].
    + rewrite Hfresh in Hold; [by destruct Hold|].
      rewrite uuids_cons. apply elem_of_app. by right.
    + by apply Hnew in Hnow.
Qed.

(** A scheduler reached by the first part of a run is ready for the rest
    of it. *)
Lemma reached_ready iw mw mq evs1 evs2 :
  fresh_ids (evs1 ++ evs2) →
  sched_inv (reached iw mw mq evs1)
  ∧ (∀ u, u ∈ uuids evs2 → jobs (the_queue (reached iw mw mq evs1)) !! u = None)
  ∧ (∀ e, e ∈ queue (the_queue (reached iw mw mq evs1)) →
          entry_timestamp e ∈ stamps evs1).
Proof.
  intros Hfed. destruct (fresh_ids_app _ _ Hfed) as (Hfed1 & Hfed2 & Hdisj).
  destruct (sched_run_inv evs1 (new_scheduler iw mw mq)) as (I & _ & Hq & Hj).
  { apply new_scheduler_inv. }
  { done. }
  { intros u _. apply lookup_empty. }
  split_and!; [done| |].
  - intros u Hu. destruct (jobs (the_queue (reached iw mw mq evs1)) !! u) eqn:Hl; [|done].
    destruct (Hj u) as [Hnil|Hin]; [eauto| |].
    { simpl in Hnil. rewrite lookup_empty in Hnil. by destruct Hnil. }
    by apply Hdisj in Hin.
  - intros e He. destruct (Hq e He) as [Hnil|Hin]; [|done].
    by apply elem_of_nil in Hnil.
Qed.

Lemma reached_inv iw mw mq evs : fresh_ids evs → sched_inv (reached iw mw mq evs).
Proof.
  intros Hfed. apply (reached_ready iw mw mq evs []). by rewrite app_nil_r.
Qed.

(** While the clock ticks, the reached scheduler is tidy, and the
    timestamps still to come are later than those queued. *)
Lemma reached_tidy iw mw mq evs1 evs2 :
  well_fed (evs1 ++ evs2) →
  sched_tidy (reached iw mw mq evs1)
  ∧ (∀ e t, e ∈ queue (the_queue (reached iw mw mq evs1)) → t ∈ stamps evs2 →
            (entry_timestamp e < t)%Z).
Proof.
  intros Hfed. destruct (well_fed_app _ _ Hfed) as (Hfed1 & Hfed2 & Hlt).
  destruct (reached_ready iw mw mq evs1 evs2 (well_fed_fresh _ Hfed)) as (I & _ & Hq).
  split.
  - apply sched_run_tidy; [apply new_scheduler_inv|apply new_scheduler_tidy|done| |].
    + intros e t He. by apply elem_of_nil in He.
    + intros u _. apply lookup_empty.
  - intros e t He Ht. apply Hlt; [by apply Hq|done].
Qed.

Lemma reached_app iw mw mq evs1 evs2 :
  reached iw mw mq (evs1 ++ evs2) = sched_run (reached iw mw mq evs1) evs2.
Proof. unfold reached, sched_run. by rewrite foldl_app. Qed.

(** A property kept by every event of a run holds at its end. *)
Lemma sched_run_keeps (P : Scheduler → Prop) evs : ∀ s,
  (∀ s ev, sched_inv s →
     (∀ u, uuid_of ev = Some u → jobs (the_queue s) !! u = None) →
     P s → P (sched_step s ev)) →
  sched_inv s → fresh_ids evs →
  (∀ u, u ∈ uuids evs → jobs (the_queue s) !! u = None) →
  P s → P (sched_run s evs).
Proof.
  induction evs as [|ev evs IH]; intros s Hstep I Hfed Hfresh HP; [done|].
  destruct (fresh_ids_cons _ _ Hfed) as (Hfed' & Hnew).
  assert (Hu : ∀ u, uuid_of ev = Some u → jobs (the_queue s) !! u = None).
  { intros u Hu. apply Hfresh. rewrite uuids_cons, Hu. by left. }
  destruct (sched_step_inv s ev I Hu) as (I' & Hq & Hj & Hk).
  simpl. apply IH; [done|done|done| |by apply Hstep].
  intros u Hin. destruct (jobs (the_queue (sched_step s ev)) !! u) eqn:Hl; [|done].
  destruct (Hj u) as [Hold|Hnow]; [eauto| |].
  - rewrite Hfresh in Hold; [by destruct Hold|].
    rewrite uuids_cons. apply elem_of_app. by right.
  - by apply Hnew in Hnow.
Qed.

(** The limits of a queue are never changed. *)
Lemma worker_get_limits q now :
  max_workers (worker_get q now).1 = max_workers q
  ∧ stats (worker_get q now).1 = stats q
  ∧ workers (worker_get q now).1 = workers q
  ∧ _running (worker_get q now).1 = _running q.
Proof.
  unfold worker_get. destruct (_running q) eqn:Hrun; simpl; [|done].
  destruct (queue q); [done|].
  destruct (Heapq.heappop _ _) as [h [x|err]]; done.
Qed.

Lemma submit_job_limits q uuid m img ty ps prio now1 now2 :
  max_workers (submit_job q uuid m img ty ps prio now1 now2).1 = max_workers q
  ∧ completed_jobs (stats (submit_job q uuid m img ty ps prio now1 now2).1)
    = completed_jobs (stats q).
Proof.
  unfold submit_job. destruct (_running q); simpl; [|done].
  case_bool_decide; [done|].
  destruct (Heapq.heappush _ _ _) as [h [x|err]]; done.
Qed.

Lemma sched_step_max_workers s ev :
  max_workers (the_queue (sched_step s ev)) = max_workers (the_queue s).
Proof.
  destruct s as [q sh hold].
  destruct ev as [| |uuid m img ty ps prio now1 now2|w now now2|w svc env now]; simpl.
  - unfold sched_start, start. simpl. by destruct (_running q).
  - unfold sched_stop, stop. simpl. by destruct (_running q).
  - unfold sched_submit. simpl.
    pose proof (submit_job_limits q uuid m img ty ps prio now1 now2) as [H _].
    by destruct (submit_job _ _ _ _ _ _ _ _ _).
  - unfold worker_take. simpl.
    destruct (_ && _); [|done].
    pose proof (worker_get_limits q now) as [H _].
    destruct (worker_get q now) as [q' [e|]]; simpl in *; [|done].
    by destruct sh.
  - unfold worker_resume. simpl.
    destruct (hold !! w); [|done]. destruct (jobs q !! _); [|done].
    simpl. unfold worker_finish. by destruct (job_outcome _).
Qed.

Lemma sched_run_max_workers evs : ∀ s,
  max_workers (the_queue (sched_run s evs)) = max_workers (the_queue s).
Proof.
  induction evs as [|ev evs IH]; intros s; [done|].
  simpl. fold (sched_run (sched_step s ev) evs).
  by rewrite IH, sched_step_max_workers.
Qed.

(** Once the thread pool is shut down it stays so, and no job completes. *)
Lemma shutdown_step s ev :
  thread_pool_shutdown s = true → holding s = ∅ →
  thread_pool_shutdown (sched_step s ev) = true
  ∧ holding (sched_step s ev) = ∅
  ∧ completed_jobs (stats (the_queue (sched_step s ev)))
    = completed_jobs (stats (the_queue s)).
Proof.
  destruct s as [q sh hold]. simpl. intros -> ->.
  destruct ev as [| |uuid m img ty ps prio now1 now2|w now now2|w svc env now]; simpl.
  - unfold sched_start, start. simpl. by destruct (_running q).
  - unfold sched_stop, stop. simpl. by destruct (_running q).
  - unfold sched_submit. simpl.
    pose proof (submit_job_limits q uuid m img ty ps prio now1 now2) as [_ H].
    by destruct (submit_job _ _ _ _ _ _ _ _ _).
  - unfold worker_take. simpl.
    destruct (_ && _); [|done].
    pose proof (worker_get_limits q now) as (_ & H & _).
    destruct (worker_get q now) as [q' [e|]]; simpl in *; by rewrite H.
  - unfold worker_resume. simpl. by rewrite lookup_empty.
Qed.

Lemma submit_job_registry q uuid m img ty ps prio now1 now2 :
  jobs (submit_job q uuid m img ty ps prio now1 now2).1 = jobs q
  ∨ jobs (submit_job q uuid m img ty ps prio now1 now2).1
    = <[uuid := mkJob uuid m img ty ps now1 None None PENDING None None prio]> (jobs q).
Proof.
  unfold submit_job. destruct (_running q); simpl; [|by left].
  case_bool_decide; [by left|].
  destruct (Heapq.heappush _ _ _) as [h [x|err]]; by right.
Qed.

(** An event queues only the tuple of the job it submits. *)
Lemma sched_step_queue s ev e :
  e ∈ queue (the_queue (sched_step s ev)) →
  e ∈ queue (the_queue s) ∨ uuid_of ev = Some (entry_job e).
Proof.
  destruct s as [q sh hold].
  destruct ev as [| |uuid m img ty ps prio now1 now2|w now now2|w svc env now];
    cbn [sched_step uuid_of].
  - unfold sched_start, start. simpl. destruct (_running q); auto.
  - unfold sched_stop, stop. simpl. destruct (_running q); auto.
  - unfold sched_submit. simpl.
    destruct (_running q) eqn:Hrun; cycle 1.
    { rewrite InferenceQueueFacts.submit_job_not_running by done. auto. }
    destruct (decide (max_queue_size q ≤ qsize q)%Z) as [Hfull|Hroom].
    { rewrite InferenceQueueFacts.submit_job_full by done. auto. }
    destruct (submit_job_effect q uuid m img ty ps prio now1 now2)
      as (h' & r & -> & Hperm); [done|lia|].
    simpl. rewrite Hperm. intros [->|He]%elem_of_cons; auto.
  - unfold worker_take. simpl.
    destruct (_ && _); [|auto].
    destruct (_running q) eqn:Hrun; cycle 1.
    { rewrite worker_get_idle by auto. auto. }
    destruct (decide (queue q = [])) as [Hq|Hq].
    { rewrite worker_get_idle by auto. auto. }
    destruct (worker_get_effect q now Hrun Hq) as (x & h' & Hperm & [-> | ->]).
    + intros He. left. rewrite Hperm. apply elem_of_cons. right.
      by destruct sh.
    + simpl. intros He. left. rewrite Hperm. apply elem_of_cons. by right.
  - unfold worker_resume. simpl.
    destruct (hold !! w); [|auto]. destruct (jobs q !! _); [|auto].
    simpl. unfold worker_finish. destruct (job_outcome _); auto.
Qed.

(** A worker holds only a job whose tuple it took from the queue. *)
Lemma sched_step_holding s ev w jid :
  holding (sched_step s ev) !! w = Some jid →
  holding s !! w = Some jid ∨ jid ∈ entry_job <$> queue (the_queue s).
Proof.
  destruct s as [q sh hold].
  destruct ev as [| |uuid m img ty ps prio now1 now2|w0 now now2|w0 svc env now];
    cbn [sched_step].
  - unfold sched_start. simpl. auto.
  - unfold sched_stop. simpl. destruct (_running q); simpl; [|auto].
    by rewrite lookup_empty.
  - unfold sched_submit. simpl.
    destruct (submit_job _ _ _ _ _ _ _ _ _) as [q' r]. simpl. auto.
  - unfold worker_take. simpl.
    destruct (_ && _); [|auto].
    destruct (_running q) eqn:Hrun; cycle 1.
    { rewrite worker_get_idle by auto. auto. }
    destruct (decide (queue q = [])) as [Hq|Hq].
    { rewrite worker_get_idle by auto. auto. }
    destruct (worker_get_effect q now Hrun Hq) as (x & h' & Hperm & [-> | ->]); [|auto].
    destruct sh; simpl; [auto|].
    destruct (decide (w = w0)) as [->|Hne].
    + rewrite lookup_insert_eq. intros [= <-]. right.
      apply list_elem_of_fmap. exists x. split; [done|]. rewrite Hperm. by left.
    + rewrite lookup_insert_ne by done. auto.
  - unfold worker_resume. simpl.
    destruct (hold !! w0) eqn:Hw0; [|auto]. destruct (jobs q !! _); [|auto].
    simpl. destruct (decide (w = w0)) as [->|Hne].
    + by rewrite lookup_delete_eq.
    + rewrite lookup_delete_ne by done. auto.
Qed.

(** An event changes only the job it submits, the queued job a worker
    takes and the job a worker holds. *)
Lemma step_keeps_job s ev jid j :
  sched_inv s →
  (∀ u, uuid_of ev = Some u → jobs (the_queue s) !! u = None) →
  jobs (the_queue s) !! jid = Some j →
  status j ≠ PENDING ∨ jid ∉ entry_job <$> queue (the_queue s) →
  (∀ w, holding s !! w ≠ Some jid) →
  jobs (the_queue (sched_step s ev)) !! jid = Some j.
Proof.
  intros I Hfresh Hj Hst Hfree.
  destruct ev as [| |uuid m img ty ps prio now1 now2|w now now2|w svc env now];
    cbn [sched_step uuid_of] in *.
  - destruct s as [q sh hold]. unfold sched_start, start. simpl in *.
    by destruct (_running q).
  - destruct s as [q sh hold]. unfold sched_stop, stop. simpl in *.
    by destruct (_running q).
  - assert (jid ≠ uuid) as Hne.
    { intros ->. rewrite Hfresh in Hj; done. }
    destruct s as [q sh hold]. unfold sched_submit. simpl in *.
    pose proof (submit_job_registry q uuid m img ty ps prio now1 now2) as Hreg.
    destruct (submit_job _ _ _ _ _ _ _ _ _) as [q' r]. simpl in *.
    destruct Hreg as [-> | ->]; [done|]. by rewrite lookup_insert_ne.
  - unfold worker_take.
    destruct (_ && _); [|done].
    destruct (_running (the_queue s)) eqn:Hrun; cycle 1.
    { rewrite worker_get_idle by auto. done. }
    destruct (decide (queue (the_queue s) = [])) as [Hq|Hq].
    { rewrite worker_get_idle by auto. done. }
    destruct (worker_get_job s now I Hrun Hq)
      as (e & h' & j0 & Hperm & Hj0 & Hst0 & _ & _ & Hget).
    assert (entry_job e ≠ jid) as Hne.
    { intros <-. destruct Hst as [Hst|Hst]; [congruence|].
      apply Hst. apply list_elem_of_fmap. exists e. split; [done|].
      rewrite Hperm. by left. }
    destruct Hget as [-> | ->]; [|done].
    destruct (thread_pool_shutdown s); simpl.
    + unfold worker_finish, update_job. simpl. by rewrite !lookup_alter_ne.
    + unfold update_job. simpl. by rewrite lookup_alter_ne.
  - unfold worker_resume.
    destruct (holding s !! w) as [jid0|] eqn:Hw; [|done].
    destruct (jobs (the_queue s) !! jid0) as [j0|] eqn:Hj0; [|done].
    assert (jid0 ≠ jid) as Hne by (intros ->; by apply (Hfree w)).
    simpl. unfold worker_finish, update_job.
    destruct (job_outcome _); simpl; by rewrite lookup_alter_ne.
Qed.

(** A pending job whose tuple has left the queue without a worker taking
    it stays as it is, whatever happens next. *)
Lemma lost_job_step s ev jid j :
  sched_inv s →
  (∀ u, uuid_of ev = Some u → jobs (the_queue s) !! u = None) →
  jobs (the_queue s) !! jid = Some j
  ∧ (jid ∉ entry_job <$> queue (the_queue s))
  ∧ (∀ w, holding s !! w ≠ Some jid) →
  jobs (the_queue (sched_step s ev)) !! jid = Some j
  ∧ (jid ∉ entry_job <$> queue (the_queue (sched_step s ev)))
  ∧ (∀ w, holding (sched_step s ev) !! w ≠ Some jid).
Proof.
  intros I Hfresh (Hj & Hq & Hfree). split_and!.
  - apply step_keeps_job; auto.
  - intros [e [-> He]]%list_elem_of_fmap.
    destruct (sched_step_queue s ev e He) as [Hold|Hnew].
    + apply Hq. by apply list_elem_of_fmap_2.
    + apply Hfresh in Hnew. by rewrite Hnew in Hj.
  - intros w Hw. destruct (sched_step_holding s ev w jid Hw) as [Hold|Hin]; [|done].
    by apply (Hfree w).
Qed.

Lemma shutdown_run evs : ∀ s,
  thread_pool_shutdown s = true → holding s = ∅ →
  thread_pool_shutdown (sched_run s evs) = true
  ∧ holding (sched_run s evs) = ∅
  ∧ completed_jobs (stats (the_queue (sched_run s evs)))
    = completed_jobs (stats (the_queue s)).
Proof.
  induction evs as [|ev evs IH]; intros s Hsh Hh; [done|].
  destruct (shutdown_step s ev Hsh Hh) as (Hsh' & Hh' & Hc).
  destruct (IH _ Hsh' Hh') as (? & ? & Hc').
  change (sched_run s (ev :: evs)) with (sched_run (sched_step s ev) evs).
  split_and!; [done|done|congruence].
Qed.

Lemma well_fed_middle evs1 ev evs2 :
  well_fed (evs1 ++ ev :: evs2) → well_fed ((evs1 ++ [ev]) ++ evs2).
Proof. by rewrite <-app_assoc. Qed.

Lemma reached_snoc iw mw mq evs ev :
  reached iw mw mq (evs ++ [ev]) = sched_step (reached iw mw mq evs) ev.
Proof. by rewrite reached_app. Qed.

Lemma reached_middle iw mw mq evs1 ev evs2 :
  reached iw mw mq (evs1 ++ ev :: evs2)
  = sched_run (sched_step (reached iw mw mq evs1) ev) evs2.
Proof. by rewrite reached_app. Qed.

Lemma get_job_status_lookup q jid j :
  jobs q !! jid = Some j →
  get_job_status q jid
  = Some (mkJobStatus (job_id j) (status_value (status j)) (Some (created_at j))
            (started_at j) (completed_at j) (result j) (error j)).
Proof. intros Hj. unfold get_job_status. by rewrite Hj. Qed.

Lemma fresh_ids_middle evs1 ev evs2 :
  fresh_ids (evs1 ++ ev :: evs2) → fresh_ids ((evs1 ++ [ev]) ++ evs2).
Proof. by rewrite <-app_assoc. Qed.

Local Ltac closed_ids := unfold fresh_ids; apply (bool_decide_unpack _); vm_compute; reflexivity.
Local Ltac closed_feed := split; [repeat constructor|closed_ids].

(** A submission to a running queue with room, by what the heap makes of
    its tuple. *)
Lemma sched_submit_push q sh hold uuid m img ty ps prio now1 now2 h r :
  _running q = true → (qsize q < max_queue_size q)%Z →
  Heapq.heappush entry_lt (queue q) ((- prio)%Z, now2, uuid) = (h, r) →
  (sched_submit (mkScheduler q sh hold) uuid m img ty ps prio now1 now2).1
  = mkScheduler
      (mkQueue (max_workers q) (max_queue_size q) h
         (<[uuid := mkJob uuid m img ty ps now1 None None PENDING None None prio]> (jobs q))
         (workers q)
         (mkStats (total_jobs (stats q) + 1) (completed_jobs (stats q))
            (failed_jobs (stats q)) (queue_size (stats q)) (active_workers (stats q)))
         true) sh hold.
Proof.
  intros Hrun Hroom Hpush. unfold sched_submit, submit_job. simpl.
  rewrite Hrun. simpl negb. cbv iota.
  rewrite bool_decide_eq_false_2 by lia. simpl. rewrite Hpush.
  unfold set_queue, set_stats, set_jobs. destruct r; simpl; by rewrite Hrun.
Qed.

Lemma entry_lt_higher a b :
  (entry_negprio a < entry_negprio b)%Z → entry_lt a b = Ok true.
Proof.
  intros H. unfold entry_lt. rewrite decide_False by lia.
  by rewrite bool_decide_eq_true_2.
Qed.

Lemma entry_lt_lower a b :
  (entry_negprio b < entry_negprio a)%Z → entry_lt a b = Ok false.
Proof.
  intros H. unfold entry_lt. rewrite decide_False by lia.
  by rewrite bool_decide_eq_false_2 by lia.
Qed.

Lemma entry_lt_tie a b :
  entry_negprio a = entry_negprio b → entry_timestamp a = entry_timestamp b →
  entry_job a ≠ entry_job b → entry_lt a b = Raise TypeError.
Proof.
  intros H1 H2 H3. unfold entry_lt. rewrite !decide_True by done.
  by rewrite decide_False.
Qed.

(** The scheduler after the three submissions of [tied]: all three tuples
    are queued, the job of higher priority at the root. *)
Lemma tied_state iw mw mq p pb t tb :
  (3 ≤ mq)%Z → (p < pb)%Z →
  reached iw mw mq (tied p pb t tb)
  = mkScheduler
      (mkQueue (max_workers (init iw mw mq)) mq
         [((- pb)%Z, tb, "JB"); ((- p)%Z, t, "JA"); ((- p)%Z, t, "JC")]
         (<["JC" := mkJob "JC" "yolov8n" "img" "detect" [] t None None PENDING None None p]>
            (<["JB" := mkJob "JB" "yolov8n" "img" "detect" [] tb None None PENDING None None pb]>
               (<["JA" := mkJob "JA" "yolov8n" "img" "detect" [] t None None PENDING
                            None None p]> ∅)))
         (seq 0 (max_workers (init iw mw mq)))
         (mkStats 3 0 0 0 0) true) false ∅.
Proof.
  intros Hmq Hp. unfold reached, tied, sched_run. cbn [foldl sched_step].
  unfold new_scheduler, sched_start, start.
  cbn [the_queue thread_pool_shutdown holding _running init].
  unfold set_workers, set_running.
  cbn [max_workers max_queue_size queue jobs workers stats _running init app].
  assert (Hlt1 : entry_lt ((- pb)%Z, tb, "JB") ((- p)%Z, t, "JA") = Ok true).
  { apply entry_lt_higher. unfold entry_negprio. simpl. lia. }
  assert (Hlt2 : entry_lt ((- p)%Z, t, "JC") ((- pb)%Z, tb, "JB") = Ok false).
  { apply entry_lt_lower. unfold entry_negprio. simpl. lia. }
  erewrite (sched_submit_push _ _ _ "JA"); [|done|unfold qsize; simpl; lia|reflexivity].
  simpl.
  erewrite (sched_submit_push _ _ _ "JB");
    [|done|unfold qsize; simpl; lia
     |simpl; rewrite (HeapqFacts.heappush_1 entry_lt), Hlt1; reflexivity].
  simpl.
  erewrite (sched_submit_push _ _ _ "JC");
    [|done|unfold qsize; simpl; lia
     |simpl; rewrite (HeapqFacts.heappush_2 entry_lt), Hlt2; reflexivity].
  simpl. done.
Qed.

(** C1 fails on the code.  The queue orders the tuples
    (-priority, timestamp, job), and two jobs of one priority whose
    submissions read the same timestamp cannot be ordered.  Submit JA, then
    JB of higher priority, then JC with the priority and the timestamp of
    JA: all three are queued, JB first.  The next turn of a worker takes JB
    off the heap and, sifting, compares JC with JA: TypeError.  The worker
    logs the error and goes on, with JA and JC still queued; JB, the job of
    highest priority, is handed to no worker, then or ever: whatever
    happens next, it stays pending in the registry, in no queue and in no
    worker's hands. *)
Theorem tie_loses_the_highest_priority_job iw mw mq p pb t tb w now now2 evs :
  (3 ≤ mq)%Z → (p < pb)%Z → w < max_workers (init iw mw mq) →
  fresh_ids (tied p pb t tb ++ Take w now now2 :: evs) →
  queue (the_queue (reached iw mw mq (tied p pb t tb)))
  = [((- pb)%Z, tb, "JB"); ((- p)%Z, t, "JA"); ((- p)%Z, t, "JC")]
  ∧ (worker_get (the_queue (reached iw mw mq (tied p pb t tb))) now).2 = None
  ∧ holding (reached iw mw mq (tied p pb t tb ++ [Take w now now2])) = ∅
  ∧ queue (the_queue (reached iw mw mq (tied p pb t tb ++ [Take w now now2])))
    = [((- p)%Z, t, "JA"); ((- p)%Z, t, "JC")]
  ∧ get_job_status
      (the_queue (reached iw mw mq (tied p pb t tb ++ Take w now now2 :: evs))) "JB"
    = Some (mkJobStatus "JB" "pending" (Some tb) None None None None)
  ∧ ("JB" ∉ entry_job <$>
       queue (the_queue (reached iw mw mq (tied p pb t tb ++ Take w now now2 :: evs))))
  ∧ (∀ w', holding (reached iw mw mq (tied p pb t tb ++ Take w now now2 :: evs)) !! w'
           ≠ Some "JB").
Proof.
  intros Hmq Hp Hw Hfed.
  assert (Hlt : entry_lt ((- p)%Z, t, "JC") ((- p)%Z, t, "JA") = Raise TypeError).
  { by apply entry_lt_tie. }
  assert (Hget : worker_get (the_queue (reached iw mw mq (tied p pb t tb))) now
                 = (set_queue [((- p)%Z, t, "JA"); ((- p)%Z, t, "JC")]
                      (the_queue (reached iw mw mq (tied p pb t tb))), None)).
  { rewrite tied_state by done. unfold worker_get. simpl.
    by rewrite (HeapqFacts.heappop_3 entry_lt), Hlt. }
  assert (Htake : reached iw mw mq (tied p pb t tb ++ [Take w now now2])
                  = mkScheduler
                      (set_queue [((- p)%Z, t, "JA"); ((- p)%Z, t, "JC")]
                         (the_queue (reached iw mw mq (tied p pb t tb)))) false ∅).
  { rewrite reached_snoc. cbn [sched_step]. unfold worker_take. rewrite Hget.
    rewrite tied_state by done. simpl. simpl in Hw.
    rewrite bool_decide_eq_true_2 by (apply elem_of_seq; lia).
    by rewrite bool_decide_eq_true_2 by apply lookup_empty. }
  split; [by rewrite tied_state|]. split; [by rewrite Hget|].
  split; [by rewrite Htake|]. split; [by rewrite Htake|].
  assert (Hfed' : fresh_ids ((tied p pb t tb ++ [Take w now now2]) ++ evs)).
  { by rewrite <-app_assoc. }
  destruct (reached_ready iw mw mq _ _ Hfed') as (I & Hfresh & _).
  destruct (fresh_ids_app _ _ Hfed') as (_ & Hevs & _).
  replace (tied p pb t tb ++ Take w now now2 :: evs)
    with ((tied p pb t tb ++ [Take w now now2]) ++ evs) by (by rewrite <-app_assoc).
  rewrite reached_app.
  set (s1 := reached iw mw mq (tied p pb t tb ++ [Take w now now2])) in *.
  set (jB := mkJob "JB" "yolov8n" "img" "detect" [] tb None None PENDING None None pb).
  assert (Hlost : jobs (the_queue (sched_run s1 evs)) !! "JB" = Some jB
                  ∧ ("JB" ∉ entry_job <$> queue (the_queue (sched_run s1 evs)))
                  ∧ (∀ w', holding (sched_run s1 evs) !! w' ≠ Some "JB")).
  { apply (sched_run_keeps
             (λ s, jobs (the_queue s) !! "JB" = Some jB
                   ∧ ("JB" ∉ entry_job <$> queue (the_queue s))
                   ∧ (∀ w', holding s !! w' ≠ Some "JB")) evs s1); [|done|done|done|].
    - intros s ev Is Hu Hs. by apply lost_job_step.
    - rewrite Htake, tied_state by done. simpl. split_and!.
      + rewrite lookup_insert_ne by done. apply lookup_insert_eq.
      + intros Hin. repeat (apply elem_of_cons in Hin as [Hin|Hin]; [done|]).
        by apply elem_of_nil in Hin.
      + intros w'. by rewrite lookup_empty. }
  destruct Hlost as (Hj & Hq & Hh).
  split; [|done]. by rewrite (get_job_status_lookup _ _ _ Hj).
Qed.

Lemma tie_loses_the_highest_priority_job_witness :
  queue (the_queue (reached 4 (Some 1) 10 (tied 1 5 100 101)))
  = [((- 5)%Z, 101%Z, "JB"); ((- 1)%Z, 100%Z, "JA"); ((- 1)%Z, 100%Z, "JC")]
  ∧ (worker_get (the_queue (reached 4 (Some 1) 10 (tied 1 5 100 101))) 200).2 = None
  ∧ holding (reached 4 (Some 1) 10 (tied 1 5 100 101 ++ [Take 0 200 201])) = ∅
  ∧ queue (the_queue (reached 4 (Some 1) 10 (tied 1 5 100 101 ++ [Take 0 200 201])))
    = [((- 1)%Z, 100%Z, "JA"); ((- 1)%Z, 100%Z, "JC")]
  ∧ get_job_status
      (the_queue (reached 4 (Some 1) 10
                    (tied 1 5 100 101 ++ Take 0 200 201 :: [Take 0 300 301])))
      "JB"
    = Some (mkJobStatus "JB" "pending" (Some 101%Z) None None None None).
Proof.
  destruct (tie_loses_the_highest_priority_job 4 (Some 1) 10%Z 1 5 100 101 0 200 201
              [Take 0 300 301]) as (H1 & H2 & H3 & H4 & H5 & _).
  - lia.
  - lia.
  - simpl. lia.
  - closed_ids.
  - exact (conj H1 (conj H2 (conj H3 (conj H4 H5)))).
Defined.

(** X3.  The statistics of the queue account for every job.  In every
    state reached by calls of start, stop and submit_job and by turns of
    the workers, get_queue_stats reports a total_jobs that is at least
    queue_size + active_jobs + completed_jobs + failed_jobs; the two are
    equal while the queue timestamps read by submit_job strictly increase
    (what exceeds is the jobs lost by a tie of timestamps). *)
Theorem queue_stats_account_for_every_job iw mw mq evs :
  fresh_ids evs →
  (qs_queue_size (get_queue_stats (the_queue (reached iw mw mq evs)))
   + qs_active_jobs (get_queue_stats (the_queue (reached iw mw mq evs)))
   + qs_completed_jobs (get_queue_stats (the_queue (reached iw mw mq evs)))
   + qs_failed_jobs (get_queue_stats (the_queue (reached iw mw mq evs)))
   ≤ qs_total_jobs (get_queue_stats (the_queue (reached iw mw mq evs))))%Z
  ∧ (well_fed evs →
     qs_total_jobs (get_queue_stats (the_queue (reached iw mw mq evs)))
     = (qs_queue_size (get_queue_stats (the_queue (reached iw mw mq evs)))
        + qs_active_jobs (get_queue_stats (the_queue (reached iw mw mq evs)))
        + qs_completed_jobs (get_queue_stats (the_queue (reached iw mw mq evs)))
        + qs_failed_jobs (get_queue_stats (the_queue (reached iw mw mq evs))))%Z).
Proof.
  intros Hfed. pose proof (reached_inv iw mw mq evs Hfed) as I.
  unfold get_queue_stats, qsize. simpl.
  rewrite (inv_total _ I), (inv_completed _ I), (inv_failed _ I).
  rewrite size_counts. pose proof (inv_pending_queued _ I) as Hpq.
  unfold count, jobs_with in *. split; [lia|].
  intros Hwf. destruct (reached_tidy iw mw mq evs []) as [[_ Heq] _].
  { by rewrite app_nil_r. }
  unfold count, jobs_with in Heq. lia.
Qed.

Lemma queue_stats_account_for_every_job_witness :
  (qs_queue_size (get_queue_stats (the_queue
     (reached 4 (Some 2%nat) 10 (sample_busy ++ Stop :: sample_restart))))
   + qs_active_jobs (get_queue_stats (the_queue
       (reached 4 (Some 2%nat) 10 (sample_busy ++ Stop :: sample_restart))))
   + qs_completed_jobs (get_queue_stats (the_queue
       (reached 4 (Some 2%nat) 10 (sample_busy ++ Stop :: sample_restart))))
   + qs_failed_jobs (get_queue_stats (the_queue
       (reached 4 (Some 2%nat) 10 (sample_busy ++ Stop :: sample_restart))))
   ≤ qs_total_jobs (get_queue_stats (the_queue
       (reached 4 (Some 2%nat) 10 (sample_busy ++ Stop :: sample_restart)))))%Z.
Proof.
  apply (queue_stats_account_for_every_job 4 (Some 2) 10%Z
           (sample_busy ++ Stop :: sample_restart)).
  closed_ids.
Defined.

(** X4.  At most max_workers jobs are ever in processing: in every
    reachable state get_queue_stats reports an active_jobs between 0 and
    max_workers, also after stop and start again; the entry active_workers
    is never written and is always 0. *)
Theorem active_jobs_bounded_by_workers iw mw mq evs :
  fresh_ids evs →
  (0 ≤ qs_active_jobs (get_queue_stats (the_queue (reached iw mw mq evs)))
   ≤ Z.of_nat (max_workers (init iw mw mq)))%Z
  ∧ qs_active_workers (get_queue_stats (the_queue (reached iw mw mq evs))) = 0%Z.
Proof.
  intros Hfed. pose proof (reached_inv iw mw mq evs Hfed) as I.
  pose proof (inv_bound _ I) as Hb.
  unfold reached in Hb. rewrite sched_run_max_workers in Hb.
  unfold get_queue_stats. simpl. split; [|apply I].
  unfold count in Hb. fold (reached iw mw mq evs) in Hb. simpl in Hb. lia.
Qed.

Lemma active_jobs_bounded_by_workers_witness :
  (0 ≤ qs_active_jobs (get_queue_stats (the_queue
         (reached 4 (Some 2%nat) 10 (sample_busy ++ Stop :: sample_restart))))
   ≤ Z.of_nat (max_workers (init 4 (Some 2%nat) 10)))%Z
  ∧ qs_active_workers (get_queue_stats (the_queue
      (reached 4 (Some 2%nat) 10 (sample_busy ++ Stop :: sample_restart)))) = 0%Z.
Proof.
  apply active_jobs_bounded_by_workers. closed_ids.
Defined.

(** X5.  stop() strands the jobs that are being processed: a job that a
    worker holds when stop is called is reported as "processing" by
    get_job_status then and, unchanged, after every later event; it is
    never completed and never failed. *)
Theorem stop_strands_jobs_in_processing iw mw mq evs1 evs2 w jid :
  fresh_ids (evs1 ++ Stop :: evs2) →
  holding (reached iw mw mq evs1) !! w = Some jid →
  ∃ v, get_job_status (the_queue (reached iw mw mq evs1)) jid = Some v
       ∧ js_status v = "processing"
       ∧ js_completed_at v = None ∧ js_result v = None ∧ js_error v = None
       ∧ get_job_status (the_queue (reached iw mw mq (evs1 ++ Stop :: evs2))) jid = Some v.
Proof.
  intros Hfed Hw.
  destruct (reached_ready iw mw mq evs1 (Stop :: evs2) Hfed) as (I1 & _ & _).
  pose proof (inv_held_processing _ I1 _ _ Hw) as Hst.
  destruct (jobs (the_queue (reached iw mw mq evs1)) !! jid) as [j|] eqn:Hj; [|done].
  injection Hst as Hst.
  pose proof (inv_coherent _ I1 _ _ Hj) as Hcoh. unfold job_coherent in Hcoh.
  rewrite Hst in Hcoh. destruct Hcoh as (_ & Hc2 & Hc3 & Hc4).
  assert (Hrun : _running (the_queue (reached iw mw mq evs1)) = true).
  { destruct (_running _) eqn:Hr; [done|].
    rewrite (held_not_running _ I1 Hr) in Hw. by rewrite lookup_empty in Hw. }
  destruct (reached_ready iw mw mq (evs1 ++ [Stop]) evs2 (fresh_ids_middle _ _ _ Hfed))
    as (I2 & Hfresh & _).
  rewrite reached_snoc in I2, Hfresh. rewrite reached_middle.
  set (s2 := sched_step (reached iw mw mq evs1) Stop) in *.
  assert (Hs2 : thread_pool_shutdown s2 = true ∧ jobs (the_queue s2) !! jid = Some j).
  { unfold s2. simpl. unfold sched_stop, stop. rewrite Hrun. simpl. done. }
  assert (Hend : thread_pool_shutdown (sched_run s2 evs2) = true
                 ∧ jobs (the_queue (sched_run s2 evs2)) !! jid = Some j).
  { apply (sched_run_keeps
             (λ s, thread_pool_shutdown s = true ∧ jobs (the_queue s) !! jid = Some j)
             evs2 s2); [|done| |done|done].
    - intros s ev I Hu [Hsh Hjs].
      pose proof (inv_shutdown _ I Hsh) as Hh.
      split; [by apply shutdown_step|].
      apply step_keeps_job; [done|done|done|left; congruence|].
      intros w'. rewrite Hh, lookup_empty. done.
    - by destruct (fresh_ids_app _ _ (fresh_ids_middle _ _ _ Hfed)) as (_ & ? & _). }
  destruct Hend as [_ Hend].
  rewrite (get_job_status_lookup _ _ _ Hj), (get_job_status_lookup _ _ _ Hend).
  eexists. split; [done|]. simpl. by rewrite Hst.
Qed.

Lemma stop_strands_jobs_in_processing_witness :
  ∃ v, get_job_status (the_queue (reached 4 (Some 2) 10 sample_busy)) "J2" = Some v
       ∧ js_status v = "processing"
       ∧ js_completed_at v = None ∧ js_result v = None ∧ js_error v = None
       ∧ get_job_status
           (the_queue (reached 4 (Some 2) 10 (sample_busy ++ Stop :: sample_restart))) "J2"
         = Some v.
Proof.
  apply (stop_strands_jobs_in_processing 4 (Some 2) 10%Z sample_busy sample_restart 0).
  - closed_ids.
  - vm_compute. reflexivity.
Defined.

Lemma since_shutdown_step s0 s ev :
  sched_inv s →
  (∀ u, uuid_of ev = Some u → jobs (the_queue s) !! u = None) →
  thread_pool_shutdown s = true → since_shutdown s0 s →
  since_shutdown s0 (sched_step s ev).
Proof.
  intros I Hfresh Hsh Hsince jid j'.
  pose proof (inv_shutdown _ I Hsh) as Hh.
  destruct ev as [| |uuid m img ty ps prio now1 now2|w now now2|w svc env now];
    cbn [sched_step uuid_of] in *.
  - destruct s as [q sh hold]. unfold sched_start, start. simpl in *.
    destruct (_running q); apply Hsince.
  - destruct s as [q sh hold]. unfold sched_stop, stop. simpl in *.
    destruct (_running q); apply Hsince.
  - destruct s as [q sh hold]. unfold sched_submit. simpl in *.
    pose proof (submit_job_registry q uuid m img ty ps prio now1 now2) as Hreg.
    destruct (submit_job _ _ _ _ _ _ _ _ _) as [q' r]. simpl in *.
    destruct Hreg as [-> | ->]; [apply Hsince|].
    destruct (decide (jid = uuid)) as [->|Hne].
    + rewrite lookup_insert_eq. intros [= <-]. auto.
    + rewrite lookup_insert_ne by done. apply Hsince.
  - unfold worker_take.
    destruct (_ && _); [|apply Hsince].
    destruct (_running (the_queue s)) eqn:Hrun; cycle 1.
    { rewrite worker_get_idle by auto. apply Hsince. }
    destruct (decide (queue (the_queue s) = [])) as [Hq|Hq].
    { rewrite worker_get_idle by auto. apply Hsince. }
    destruct (worker_get_job s now I Hrun Hq)
      as (e & h' & j0 & Hperm & Hj0 & Hst0 & _ & _ & [-> | ->]); [|apply Hsince].
    rewrite Hsh. simpl. unfold worker_finish, update_job. simpl.
    pose proof (inv_coherent _ I _ _ Hj0) as Hcoh. unfold job_coherent in Hcoh.
    rewrite Hst0 in Hcoh. destruct Hcoh as (_ & _ & Hc3 & _).
    destruct (decide (jid = entry_job e)) as [->|Hne].
    + rewrite !lookup_alter_eq, Hj0. intros [= <-]. simpl. auto.
    + rewrite !lookup_alter_ne by done. apply Hsince.
  - unfold worker_resume. rewrite Hh, lookup_empty. apply Hsince.
Qed.

(** X6.  A queue that was stopped cannot be restarted: stop() shuts the
    thread pool down for good.  After a stop of the running queue, whatever
    happens next (a new start, submissions, turns of the workers), no job
    completes (completed_jobs stays as it was), no worker holds a job, and
    every registered job is as it was at the stop, or pending, or failed
    with the error "cannot schedule new futures after shutdown" and no
    result: that is how every job ends that a worker takes from then
    on. *)
Theorem restarted_queue_completes_nothing iw mw mq evs1 evs2 :
  fresh_ids (evs1 ++ Stop :: evs2) →
  _running (the_queue (reached iw mw mq evs1)) = true →
  completed_jobs (stats (the_queue (reached iw mw mq (evs1 ++ Stop :: evs2))))
  = completed_jobs (stats (the_queue (reached iw mw mq evs1)))
  ∧ holding (reached iw mw mq (evs1 ++ Stop :: evs2)) = ∅
  ∧ (∀ jid j, jobs (the_queue (reached iw mw mq (evs1 ++ Stop :: evs2))) !! jid = Some j →
       jobs (the_queue (reached iw mw mq evs1)) !! jid = Some j
       ∨ status j = PENDING
       ∨ (status j = FAILED ∧ error j = Some shutdown_text ∧ result j = None))
  ∧ ∀ w now now2 e,
      _running (the_queue (reached iw mw mq (evs1 ++ Stop :: evs2))) = true →
      w ∈ workers (the_queue (reached iw mw mq (evs1 ++ Stop :: evs2))) →
      (worker_get (the_queue (reached iw mw mq (evs1 ++ Stop :: evs2))) now).2 = Some e →
      ∃ v, get_job_status
             (the_queue (worker_take (reached iw mw mq (evs1 ++ Stop :: evs2)) w now now2))
             (entry_job e) = Some v
           ∧ js_status v = "failed"
           ∧ js_error v = Some shutdown_text
           ∧ js_result v = None
           ∧ js_started_at v = Some now
           ∧ js_completed_at v = Some now2.
Proof.
  intros Hfed Hrun.
  pose proof (reached_inv iw mw mq _ Hfed) as I.
  destruct (reached_ready iw mw mq (evs1 ++ [Stop]) evs2 (fresh_ids_middle _ _ _ Hfed))
    as (I2 & Hfresh & _).
  rewrite reached_snoc in I2, Hfresh.
  rewrite reached_middle in *.
  set (s1 := reached iw mw mq evs1) in *.
  set (s2 := sched_step s1 Stop) in *.
  assert (Hs2 : thread_pool_shutdown s2 = true ∧ holding s2 = ∅
                ∧ completed_jobs (stats (the_queue s2))
                  = completed_jobs (stats (the_queue s1))
                ∧ jobs (the_queue s2) = jobs (the_queue s1)).
  { unfold s2. simpl. unfold sched_stop, stop. rewrite Hrun. simpl. done. }
  destruct Hs2 as (Hsh & Hh & Hc & Hjobs).
  destruct (shutdown_run evs2 s2 Hsh Hh) as (Hsh' & Hh' & Hc').
  assert (Hsince : thread_pool_shutdown (sched_run s2 evs2) = true
                   ∧ since_shutdown s1 (sched_run s2 evs2)).
  { apply (sched_run_keeps (λ s, thread_pool_shutdown s = true ∧ since_shutdown s1 s)
             evs2 s2); [|done| |done|].
    - intros s ev Is Hu [Hs Hsince]. split; [|by apply since_shutdown_step].
      apply shutdown_step; [done|]. by apply (inv_shutdown _ Is).
    - by destruct (fresh_ids_app _ _ (fresh_ids_middle _ _ _ Hfed)) as (_ & ? & _).
    - split; [done|]. intros jid j Hj. left. by rewrite <-Hjobs. }
  destruct Hsince as [_ Hsince].
  split_and!; [congruence|done|exact Hsince|].
  intros w now now2 e Hrun' Hw Hget.
  set (s := sched_run s2 evs2) in *.
  assert (Hq : queue (the_queue s) ≠ []).
  { intros Hq. rewrite worker_get_idle in Hget by auto. done. }
  destruct (worker_get_job s now I Hrun' Hq)
    as (e0 & h' & j & Hperm & Hj & Hst & _ & _ & [Hg|Hg]); rewrite Hg in Hget; [|done].
  injection Hget as <-.
  pose proof (inv_coherent _ I _ _ Hj) as Hcoh. unfold job_coherent in Hcoh.
  rewrite Hst in Hcoh. destruct Hcoh as (_ & _ & Hc3 & _).
  unfold worker_take. rewrite bool_decide_eq_true_2 by done.
  rewrite bool_decide_eq_true_2 by (by rewrite Hh', lookup_empty).
  simpl. rewrite Hg, Hsh'. simpl.
  eexists. split.
  - apply get_job_status_lookup. unfold worker_finish, update_job. simpl.
    by rewrite !lookup_alter_eq, Hj.
  - simpl. by rewrite Hc3.
Qed.

Lemma restarted_queue_completes_nothing_witness :
  completed_jobs (stats (the_queue
     (reached 4 (Some 2) 10 (sample_busy ++ Stop :: sample_restart))))
  = completed_jobs (stats (the_queue (reached 4 (Some 2) 10 sample_busy)))
  ∧ holding (reached 4 (Some 2) 10 (sample_busy ++ Stop :: sample_restart)) = ∅.
Proof.
  split; apply (restarted_queue_completes_nothing 4 (Some 2) 10%Z sample_busy
                  sample_restart).
  - closed_ids.
  - reflexivity.
  - closed_ids.
  - reflexivity.
Defined.

(** X7.  The registry never forgets a job and a job only moves forward:
    a job registered at some point is registered at every later point, with
    the request it was submitted with, in a status that is the same or
    later in the order pending, processing, completed or failed; once
    completed or failed the job never changes again. *)
Theorem jobs_only_move_forward iw mw mq evs1 evs2 jid j :
  fresh_ids (evs1 ++ evs2) →
  jobs (the_queue (reached iw mw mq evs1)) !! jid = Some j →
  ∃ j', jobs (the_queue (reached iw mw mq (evs1 ++ evs2))) !! jid = Some j'
        ∧ request j' = request j
        ∧ rank (status j) ≤ rank (status j')
        ∧ (status j = COMPLETED ∨ status j = FAILED → j' = j).
Proof.
  intros Hfed Hj.
  destruct (reached_ready iw mw mq evs1 evs2 Hfed) as (I & Hfresh & _).
  destruct (fresh_ids_app _ _ Hfed) as (_ & Hfed2 & _).
  destruct (sched_run_inv evs2 _ I Hfed2 Hfresh) as (_ & Hk & _).
  destruct (Hk jid j Hj) as (j' & Hj' & Hr & Hle & Hfin).
  exists j'. rewrite reached_app. split_and!; [done|done|done|].
  intros [Hs|Hs]; apply Hfin; by rewrite Hs.
Qed.

Lemma jobs_only_move_forward_witness :
  ∃ j', jobs (the_queue (reached 4 (Some 2) 10
                 ([Start; Submit "J1" "yolov8n" "img" "detect" [] 1 100 101]
                  ++ [Take 0 200 201]))) !! "J1" = Some j'
        ∧ request j'
          = request (mkJob "J1" "yolov8n" "img" "detect" [] 100 None None PENDING None None 1)
        ∧ rank (status (mkJob "J1" "yolov8n" "img" "detect" [] 100 None None PENDING
                          None None 1)) ≤ rank (status j')
        ∧ (status (mkJob "J1" "yolov8n" "img" "detect" [] 100 None None PENDING None None 1)
           = COMPLETED
           ∨ status (mkJob "J1" "yolov8n" "img" "detect" [] 100 None None PENDING None None 1)
             = FAILED →
           j' = mkJob "J1" "yolov8n" "img" "detect" [] 100 None None PENDING None None 1).
Proof.
  apply (jobs_only_move_forward 4 (Some 2) 10%Z
           [Start; Submit "J1" "yolov8n" "img" "detect" [] 1 100 101] [Take 0 200 201]).
  - closed_ids.
  - vm_compute. reflexivity.
Defined.


(** X8.  What get_job_status reports is coherent: for every id it knows,
    the report carries that id and a creation date; the job has a start
    date unless it is "pending", a completion date exactly when it is
    "completed" or "failed", a result exactly when it is "completed" and an
    error exactly when it is "failed". *)
Theorem job_status_is_coherent iw mw mq evs jid v :
  fresh_ids evs →
  get_job_status (the_queue (reached iw mw mq evs)) jid = Some v →
  js_job_id v = jid
  ∧ is_Some (js_created_at v)
  ∧ js_status v ∈ ["pending"; "processing"; "completed"; "failed"]
  ∧ (js_started_at v = None ↔ js_status v = "pending")
  ∧ (is_Some (js_completed_at v) ↔ js_status v = "completed" ∨ js_status v = "failed")
  ∧ (is_Some (js_result v) ↔ js_status v = "completed")
  ∧ (is_Some (js_error v) ↔ js_status v = "failed").
Proof.
  intros Hfed Hv. pose proof (reached_inv iw mw mq evs Hfed) as I.
  unfold get_job_status in Hv.
  destruct (jobs (the_queue (reached iw mw mq evs)) !! jid) as [j|] eqn:Hj; [|done].
  injection Hv as <-. simpl.
  pose proof (inv_ids _ I _ _ Hj) as Hid.
  pose proof (inv_coherent _ I _ _ Hj) as Hcoh. unfold job_coherent in Hcoh.
  split; [done|]. split; [by eexists|].
  destruct (status j); simpl; destruct Hcoh as (H1 & H2 & H3 & H4);
    rewrite ?H1, ?H2, ?H3, ?H4.
  - split; [set_solver|]. split_and!; split; try done; try (by intros [? ?]).
    by intros [?|?].
  - split; [set_solver|]. destruct H1 as [? ->].
    split_and!; split; try done; try (by intros [? ?]). by intros [?|?].
  - split; [set_solver|]. destruct H1 as [? ->]. destruct H2 as [? ->]. destruct H3 as [? ->].
    split_and!; split; try done; try (by intros [? ?]); eauto.
  - split; [set_solver|]. destruct H1 as [? ->]. destruct H2 as [? ->]. destruct H4 as [? ->].
    split_and!; split; try done; try (by intros [? ?]); eauto.
Qed.

Lemma job_status_is_coherent_witness :
  ∃ v, get_job_status (the_queue (reached 4 (Some 2) 10 sample_busy)) "J2" = Some v
       ∧ js_job_id v = "J2"
       ∧ is_Some (js_created_at v)
       ∧ js_status v ∈ ["pending"; "processing"; "completed"; "failed"].
Proof.
  exists (mkJobStatus "J2" "processing" (Some 102%Z) (Some 200%Z) None None None).
  split; [vm_compute; reflexivity|].
  destruct (job_status_is_coherent 4 (Some 2) 10%Z sample_busy "J2"
              (mkJobStatus "J2" "processing" (Some 102%Z) (Some 200%Z) None None None))
    as (H1 & H2 & H3 & _).
  - closed_ids.
  - vm_compute. reflexivity.
  - exact (conj H1 (conj H2 H3)).
Defined.

(** X9.  How a job ends.  When the worker that holds a job is resumed, the
    worker is free again and the job is reported by get_job_status with the
    completion date of that turn: "failed" with the error "Failed to decode
    image" when the bytes are no image, whatever the inference type and the
    model; "failed" with "Unknown inference type: <type>" for a type other
    than detect, segment and track, which submit_job had accepted; for a
    detect job with admissible parameters, "failed" with
    "Model <model_id> not loaded" when the YOLO service does not hold the
    model, and "completed" with the result of the model otherwise. *)
Theorem how_a_job_ends iw mw mq evs w jid :
  fresh_ids evs →
  holding (reached iw mw mq evs) !! w = Some jid →
  ∃ j, jobs (the_queue (reached iw mw mq evs)) !! jid = Some j
    ∧ ∀ yolo_service env now,
        holding (worker_resume (reached iw mw mq evs) w yolo_service env now) !! w = None
        ∧ ∃ v, get_job_status
                 (the_queue (worker_resume (reached iw mw mq evs) w yolo_service env now)) jid
               = Some v
          ∧ js_completed_at v = Some now
          ∧ (env_imdecode env = NoImage →
             js_status v = "failed" ∧ js_error v = Some "Failed to decode image"
             ∧ js_result v = None)
          ∧ (∀ image, env_imdecode env = Image image →
               inference_type j ∉ ["detect"; "segment"; "track"] →
               js_status v = "failed"
               ∧ js_error v = Some ("Unknown inference type: " +:+ inference_type j)
               ∧ js_result v = None)
          ∧ (∀ image, env_imdecode env = Image image →
               inference_type j = "detect" →
               YOLOService.takes ["conf_threshold"; "iou_threshold"; "max_det"; "classes"]
                 (parameters j) = true →
               model_id j ∉ dom (YOLOService.models yolo_service) →
               js_status v = "failed"
               ∧ js_error v = Some ("Model " +:+ model_id j +:+ " not loaded")
               ∧ js_result v = None)
          ∧ (∀ image r, env_imdecode env = Image image →
               inference_type j = "detect" →
               YOLOService.takes ["conf_threshold"; "iou_threshold"; "max_det"; "classes"]
                 (parameters j) = true →
               model_id j ∈ dom (YOLOService.models yolo_service) →
               YOLOService.model_out (env_call env) = YOLOService.Returns r →
               js_status v = "completed" ∧ js_result v = Some r ∧ js_error v = None).
Proof.
  intros Hfed Hw. pose proof (reached_inv iw mw mq evs Hfed) as I.
  set (s := reached iw mw mq evs) in *.
  pose proof (inv_held_processing _ I _ _ Hw) as Hst.
  destruct (jobs (the_queue s) !! jid) as [j|] eqn:Hj; [|done].
  injection Hst as Hst.
  pose proof (inv_coherent _ I _ _ Hj) as Hcoh. unfold job_coherent in Hcoh.
  rewrite Hst in Hcoh. destruct Hcoh as (_ & _ & Hc3 & Hc4).
  exists j. split; [done|]. intros svc env now.
  unfold worker_resume. rewrite Hw, Hj. simpl.
  split; [apply lookup_delete_eq|].
  set (res := job_outcome (_process_inference_job svc j env)).
  assert (Hj' : jobs (worker_finish (the_queue s) jid res now) !! jid
                = Some (match res with
                        | inl r => mark_completed r now j
                        | inr msg => mark_failed msg now j
                        end)).
  { unfold worker_finish, update_job.
    destruct res; simpl; by rewrite lookup_alter_eq, Hj. }
  rewrite (get_job_status_lookup _ _ _ Hj').
  eexists. split; [done|].
  unfold res, _process_inference_job.
  split_and!.
  - by destruct (job_outcome _).
  - intros ->. simpl. by rewrite Hc3.
  - intros image -> Hty.
    rewrite !decide_False by (intros Heq; apply Hty; rewrite Heq; set_solver).
    simpl. by rewrite Hc3.
  - intros image -> Hty Htakes Hmodel.
    rewrite decide_True by done.
    unfold YOLOService.detect, YOLOService.call, YOLOService.run_loaded.
    rewrite Htakes, bool_decide_eq_false_2 by done. simpl. by rewrite Hc3.
  - intros image r -> Hty Htakes Hmodel Hout.
    rewrite decide_True by done.
    unfold YOLOService.detect, YOLOService.call, YOLOService.run_loaded.
    rewrite Htakes, bool_decide_eq_true_2, Hout by done. simpl. by rewrite Hc4.
Qed.

Lemma how_a_job_ends_witness :
  ∃ j, jobs (the_queue (reached 4 (Some 2) 10 sample_busy)) !! "J2" = Some j
    ∧ holding (worker_resume (reached 4 (Some 2) 10 sample_busy) 0 YOLOService.init
                 (mkJobEnv NoImage (YOLOService.mkCallEnv "" (YOLOService.Returns "r"))) 300)
        !! 0 = None.
Proof.
  destruct (how_a_job_ends 4 (Some 2) 10%Z sample_busy 0 "J2") as (j & Hj & Hend).
  - closed_ids.
  - vm_compute. reflexivity.
  - exists j. split; [exact Hj|].
    exact (proj1 (Hend YOLOService.init
                    (mkJobEnv NoImage (YOLOService.mkCallEnv "" (YOLOService.Returns "r")))
                    300%Z)).
Defined.

End SchedulerFacts.

(** ** The YOLO service and its routes *)

Module YOLOServiceFacts.
Import YOLOService YOLOServiceSpec.






End YOLOServiceFacts.

Module RouteFacts.
Import InferenceQueue InferenceQueueSpec SchedulerSpec SchedulerFacts YoloRoutes.
Import YOLOServiceSpec.

(** X11.  The asynchronous detection route never returns the job id: with
    async_processing set, yolo_detect answers HTTP 500 "Detection failed"
    for every upload, because an invalid image raises its 400 inside the
    try and because the answer to a submitted job awaits an int.  The job
    is submitted all the same: on a running queue with room it is
    registered as pending and its tuple is queued. *)
Theorem async_detect_never_returns_the_job_id :
  (∀ q yolo_service bytes decoded model_id conf iou max_det prio uuid now1 now2 env,
     (yolo_detect q yolo_service bytes decoded model_id conf iou max_det prio true
        uuid now1 now2 env).2
     = HTTPException 500 "Detection failed")
  ∧ (∀ q yolo_service bytes image model_id conf iou max_det prio uuid now1 now2 env,
       _running q = true → (qsize q < max_queue_size q)%Z →
       InferenceQueue.get_job_status
         (yolo_detect q yolo_service bytes (Image image) model_id conf iou max_det prio true
            uuid now1 now2 env).1 uuid
       = Some (mkJobStatus uuid "pending" (Some now1) None None None None)
       ∧ qsize (yolo_detect q yolo_service bytes (Image image) model_id conf iou max_det
                  prio true uuid now1 now2 env).1
         = (qsize q + 1)%Z).
Proof.
  split.
  - intros. unfold yolo_detect. destruct decoded; simpl; try done.
    by destruct (submit_job _ _ _ _ _ _ _ _ _) as [q' [job_id|e]].
  - intros q svc bytes image model_id conf iou max_det prio uuid now1 now2 env Hrun Hroom.
    destruct (submit_job_effect q uuid model_id bytes "detect"
                [("conf_threshold", conf); ("iou_threshold", iou); ("max_det", max_det)]
                prio now1 now2 Hrun Hroom) as (h' & r & Hsub & Hperm).
    unfold yolo_detect. rewrite Hsub.
    destruct r as [job_id|e]; simpl.
    + split.
      * unfold InferenceQueue.get_job_status. simpl. by rewrite lookup_insert_eq.
      * unfold qsize. simpl. rewrite (Permutation_length Hperm). simpl. lia.
    + split.
      * unfold InferenceQueue.get_job_status. simpl. by rewrite lookup_insert_eq.
      * unfold qsize. simpl. rewrite (Permutation_length Hperm). simpl. lia.
Qed.

Lemma async_detect_never_returns_the_job_id_witness :
  InferenceQueue.get_job_status
    (yolo_detect (the_queue (reached 4 (Some 2%nat) 10 [Start])) YOLOService.init "img" (Image 7)
       "yolov8n" "0.25" "0.45" "1000" 1 true "J1" 100 101
       (YOLOService.mkCallEnv "" (YOLOService.Returns "r"))).1 "J1"
  = Some (mkJobStatus "J1" "pending" (Some 100%Z) None None None None)
  ∧ qsize (yolo_detect (the_queue (reached 4 (Some 2%nat) 10 [Start])) YOLOService.init "img"
             (Image 7) "yolov8n" "0.25" "0.45" "1000" 1 true "J1" 100 101
             (YOLOService.mkCallEnv "" (YOLOService.Returns "r"))).1
    = (qsize (the_queue (reached 4 (Some 2%nat) 10 [Start])) + 1)%Z.
Proof.
  apply (proj2 async_detect_never_returns_the_job_id).
  - reflexivity.
  - reflexivity.
Defined.



End RouteFacts.

(** ** Eviction and the cache counters *)

Module EvictionFacts.
Import ModelCache ModelCacheSpec ModelCacheFacts EvictionSpec.
Local Open Scope Z_scope.

Lemma evict_n_S n c : evict_n (S n) c = _evict_lru_model (evict_n n c).
Proof. done. Qed.

Lemma evict_n_first n c : evict_n (S n) c = evict_n n (_evict_lru_model c).
Proof. unfold evict_n. by rewrite Nat.iter_succ_r. Qed.

Lemma evict_n_add n m c : evict_n (n + m) c = evict_n n (evict_n m c).
Proof. unfold evict_n. by rewrite Nat.iter_add. Qed.

(** One eviction on a consistent cache takes the first key of
    [access_order] out of every dictionary. *)
Lemma evict_lru_head c k rest :
  consistent c → OrderedDict.keys (access_order c) = k :: rest →
  models (_evict_lru_model c) = delete k (models c)
  ∧ model_sizes (_evict_lru_model c) = delete k (model_sizes c)
  ∧ OrderedDict.keys (access_order (_evict_lru_model c)) = rest
  ∧ stats (_evict_lru_model c)
    = mkCacheStats (hits (stats c)) (misses (stats c)) (evictions (stats c) + 1)
        (loads (stats c))
  ∧ k ∉ rest.
Proof.
  intros (Hnd & _) Hkeys. unfold _evict_lru_model.
  assert (OrderedDict.first_key (access_order c) = Some k) as ->.
  { destruct (access_order c) as [|[k' v] o]; [done|]. simpl in *. congruence. }
  simpl. rewrite Hkeys in Hnd.
  split_and!; try done.
  - rewrite OrderedDictFacts.keys_pop, Hkeys.
    by apply OrderedDictFacts.filter_ne_head.
  - by apply NoDup_cons in Hnd as [? _].
Qed.

(** [n] evictions take the [n] least recently used models and count them. *)
Lemma evict_n_spec n : ∀ c,
  consistent c → (n ≤ length (access_order c))%nat →
  consistent (evict_n n c)
  ∧ OrderedDict.keys (access_order (evict_n n c)) = drop n (OrderedDict.keys (access_order c))
  ∧ (∀ k, k ∈ drop n (OrderedDict.keys (access_order c)) →
          models (evict_n n c) !! k = models c !! k
          ∧ model_sizes (evict_n n c) !! k = model_sizes c !! k)
  ∧ (∀ k, k ∈ take n (OrderedDict.keys (access_order c)) → models (evict_n n c) !! k = None)
  ∧ evictions (stats (evict_n n c)) = evictions (stats c) + Z.of_nat n
  ∧ same_counts c (evict_n n c)
  ∧ cached_models (evict_n n c) = cached_models c - Z.of_nat n
  ∧ max_models (evict_n n c) = max_models c
  ∧ max_memory_mb (evict_n n c) = max_memory_mb c.
Proof.
  induction n as [|n IH]; intros c Hc Hn.
  { simpl. rewrite drop_0. split_and!; try done; try lia;
      try (intros k Hk; by apply elem_of_nil in Hk); try apply same_counts_refl. }
  destruct (IH c Hc) as (Hc' & Hkeys & Hkeep & Hgone & Hev & Hsame & Hcached & Hmm & Hmem);
    [lia|].
  rewrite evict_n_S. set (c' := evict_n n c) in *.
  assert (Hlen : length (OrderedDict.keys (access_order c)) = length (access_order c))
    by (unfold OrderedDict.keys; by rewrite length_fmap).
  destruct (drop n (OrderedDict.keys (access_order c))) as [|k rest] eqn:Hdrop.
  { apply (f_equal length) in Hdrop. rewrite length_drop in Hdrop. simpl in Hdrop. lia. }
  assert (Hdrop' : drop (S n) (OrderedDict.keys (access_order c)) = rest).
  { rewrite <-(Nat.add_1_l n), Nat.add_comm, <-drop_drop, Hdrop. done. }
  destruct (evict_lru_head c' k rest Hc' Hkeys) as (Hm & Hs & Hk & Hst & Hnotin).
  destruct (evict_lru_spec c' Hc') as (Hc'' & _ & _ & Hmm' & Hmem').
  { intros Hnil. rewrite Hnil in Hkeys. done. }
  rewrite Hdrop'.
  split_and!; try done; try congruence.
  - intros k' Hk'. rewrite Hm, Hs.
    assert (k' ≠ k) by (intros ->; done).
    rewrite !lookup_delete_ne by done. apply Hkeep. by right.
  - intros k' Hk'.
    assert (take (S n) (OrderedDict.keys (access_order c))
            = take n (OrderedDict.keys (access_order c)) ++ [k]) as Htake.
    { apply take_S_r. rewrite <-(Nat.add_0_r n), <-lookup_drop, Hdrop. done. }
    rewrite Htake in Hk'. apply elem_of_app in Hk' as [Hk'|Hk'].
    + rewrite Hm. destruct (decide (k' = k)) as [->|Hne].
      * apply lookup_delete_eq.
      * rewrite lookup_delete_ne by done. by apply Hgone.
    + apply list_elem_of_singleton in Hk' as ->. rewrite Hm. apply lookup_delete_eq.
  - rewrite Hst. simpl. lia.
  - destruct Hsame as (? & ? & ?). unfold same_counts. rewrite Hst. simpl. done.
  - unfold cached_models in *. rewrite Hm.
    assert (is_Some (models c' !! k)) as [h Hh].
    { destruct Hc' as (_ & Hdom & _). apply elem_of_dom. rewrite Hdom, Hkeys.
      apply elem_of_list_to_set. by left. }
    rewrite map_size_delete, Hh.
    assert (size (models c') ≠ 0%nat).
    { intros Hz. apply map_size_empty_inv in Hz. rewrite Hz in Hh. done. }
    lia.
Qed.


(** The two loops of [_ensure_cache_capacity] are evictions of the least
    recently used model, one after the other. *)
Lemma evict_by_count_iter n : ∀ c c',
  evict_by_count n c = Ok c' → ∃ m, (m ≤ n)%nat ∧ c' = evict_n m c.
Proof.
  induction n as [|n IH]; intros c c'; rewrite evict_by_count_unfold;
    case_bool_decide; try done.
  - intros [= <-]. by exists 0%nat.
  - intros Hrun. destruct (IH _ _ Hrun) as (m & Hm & ->).
    exists (S m). split; [lia|]. by rewrite evict_n_first.
  - intros [= <-]. exists 0%nat. split; [lia|done].
Qed.

Lemma evict_by_memory_iter n : ∀ c cur new c',
  evict_by_memory n c cur new = Ok c' → ∃ m, (m ≤ n)%nat ∧ c' = evict_n m c.
Proof.
  induction n as [|n IH]; intros c cur new c'; rewrite evict_by_memory_unfold;
    repeat case_bool_decide; try done;
    try (intros [= <-]; exists 0%nat; split; [lia|done]).
  intros Hrun. destruct (IH _ _ _ _ Hrun) as (m & Hm & ->).
  exists (S m). split; [lia|]. by rewrite evict_n_first.
Qed.

Lemma keys_length c : length (OrderedDict.keys (access_order c)) = length (access_order c).
Proof. unfold OrderedDict.keys. by rewrite length_fmap. Qed.

Lemma ensure_cache_capacity_iter c new c' :
  consistent c → _ensure_cache_capacity c new = Ok c' →
  ∃ m, (m ≤ length (access_order c))%nat ∧ c' = evict_n m c.
Proof.
  intros Hc. unfold _ensure_cache_capacity.
  destruct (evict_by_count _ c) as [c1|e] eqn:Hcount; [|done].
  destruct (evict_by_count_iter _ _ _ Hcount) as (m1 & Hm1 & ->).
  intros Hmem. destruct (evict_by_memory_iter _ _ _ _ _ Hmem) as (m2 & Hm2 & ->).
  destruct (evict_n_spec m1 c Hc Hm1) as (_ & Hkeys & _).
  exists (m2 + m1)%nat. split; [|by rewrite evict_n_add].
  rewrite <-(keys_length (evict_n m1 c)), Hkeys, length_drop, keys_length in Hm2. lia.
Qed.

(** What [_load_model] does to the cache: nothing when it raises; one more
    load when it returns. *)
Lemma load_model_cases c k cfg env :
  (∃ e calls, _load_model c k cfg env = (c, calls, Raise e))
  ∨ (∃ h call,
       _load_model c k cfg env
       = (set_stats (mkCacheStats (hits (stats c)) (misses (stats c)) (evictions (stats c))
                       (loads (stats c) + 1)) c, [call], Ok h)
       ∧ env_load env = Ok h).
Proof.
  unfold _load_model. destruct (file_path cfg) as [path|]; [|left; eauto].
  destruct (String.prefix "s3://" path || String.prefix "minio://" path).
  - destruct (env_download env) as [[]|e]; [|left; eauto].
    destruct (env_load env) as [h|e]; [right|left]; eauto.
  - destruct (env_load env) as [h|e]; [right|left]; eauto.
Qed.

(** What the first critical section of [get_model] does. *)
Lemma get_model_lookup_cases c k :
  consistent c →
  (∃ h o, models c !! k = Some h
          ∧ get_model_lookup c k
            = Ok (set_stats (mkCacheStats (hits (stats c) + 1) (misses (stats c))
                               (evictions (stats c)) (loads (stats c)))
                    (set_access_order o c), Some h)
          ∧ consistent (set_access_order o c))
  ∨ (models c !! k = None
     ∧ get_model_lookup c k
       = Ok (set_stats (mkCacheStats (hits (stats c)) (misses (stats c) + 1)
                          (evictions (stats c)) (loads (stats c))) c, None)).
Proof.
  intros Hc. pose proof Hc as (Hnd & Hdom & Hsz & Hpos).
  unfold get_model_lookup.
  destruct (models c !! k) as [h|] eqn:Hk; [left|right; done].
  assert (k ∈ OrderedDict.keys (access_order c)) as Hin.
  { apply (elem_of_list_to_set (C:=gset string)). rewrite <-Hdom. apply elem_of_dom. eauto. }
  destruct (OrderedDictFacts.getitem_in k _ Hin) as [v Hv].
  unfold OrderedDict.move_to_end. rewrite Hv.
  eexists _, _. split; [done|]. split; [done|].
  assert (Hkeys : OrderedDict.keys (OrderedDict.pop k (access_order c) ++ [(k, v)])
                  = filter (λ k', k' ≠ k) (OrderedDict.keys (access_order c)) ++ [k]).
  { apply OrderedDictFacts.keys_move_to_end. unfold OrderedDict.move_to_end. by rewrite Hv. }
  unfold consistent. simpl. rewrite Hkeys.
  split_and!; [|  |done|done].
  - apply NoDup_app. split; [by apply NoDup_filter|]. split; [|apply NoDup_singleton].
    intros x Hx ->%list_elem_of_singleton. apply list_elem_of_filter in Hx as [Hx _]. done.
  - rewrite Hdom, list_to_set_app_L, OrderedDictFacts.list_to_set_filter_ne. simpl.
    apply set_eq. intros x.
    rewrite !elem_of_union, elem_of_difference, !elem_of_singleton, elem_of_empty,
      !elem_of_list_to_set.
    destruct (decide (x = k)) as [->|]; tauto.
Qed.

Lemma keys_set_stats st c :
  OrderedDict.keys (access_order (set_stats st c)) = OrderedDict.keys (access_order c).
Proof. done. Qed.

(** What [_add_to_cache] does on a consistent cache that lacks the key: it
    evicts the [n] least recently used models and installs the new one as
    the most recently used. *)
Lemma add_to_cache_cases c k h cfg env c' :
  consistent c → models c !! k = None →
  _add_to_cache c k h cfg env = Ok c' →
  ∃ n, (n ≤ length (access_order c))%nat
       ∧ _ensure_cache_capacity c (_estimate_model_memory (env_rss_mb env))
         = Ok (evict_n n c)
       ∧ models c' = <[k:=h]> (models (evict_n n c))
       ∧ OrderedDict.keys (access_order c')
         = drop n (OrderedDict.keys (access_order c)) ++ [k]
       ∧ stats c' = stats (evict_n n c)
       ∧ models (evict_n n c) !! k = None.
Proof.
  intros Hc Hk. unfold _add_to_cache.
  destruct (_ensure_cache_capacity c _) as [c1|e] eqn:Hens; [|done].
  intros [= <-].
  destruct (ensure_cache_capacity_iter _ _ _ Hc Hens) as (n & Hn & ->).
  destruct (evict_n_spec n c Hc Hn) as (Hc1 & Hkeys & _).
  pose proof (ensure_cache_capacity_absent _ _ _ k Hens Hk) as Habs.
  exists n. simpl. split_and!; try done.
  rewrite OrderedDictFacts.keys_setitem_notin, Hkeys; [done|].
  intros Hin. destruct Hc1 as (_ & Hdom & _).
  apply (elem_of_list_to_set (C:=gset string)) in Hin. rewrite <-Hdom in Hin.
  apply elem_of_dom in Hin as [h' Hh']. by rewrite Habs in Hh'.
Qed.


(** What a [get_model] that returns makes of a consistent cache. *)
Lemma get_model_cases c k cfg env c' calls h :
  consistent c → get_model c k cfg env = (Some c', calls, Ok h) →
  (models c !! k = Some h ∧ calls = []
   ∧ models c' = models c
   ∧ stats c' = mkCacheStats (hits (stats c) + 1) (misses (stats c)) (evictions (stats c))
                  (loads (stats c)))
  ∨ (models c !! k = None ∧ env_load env = Ok h
     ∧ ∃ n call, calls = [call]
         ∧ (n ≤ length (access_order c))%nat
         ∧ models c' = <[k:=h]> (models (evict_n n c))
         ∧ OrderedDict.keys (access_order c')
           = drop n (OrderedDict.keys (access_order c)) ++ [k]
         ∧ stats c' = mkCacheStats (hits (stats c)) (misses (stats c) + 1)
                        (evictions (stats c) + Z.of_nat n) (loads (stats c) + 1)
         ∧ models (evict_n n c) !! k = None).
Proof.
  intros Hc. unfold get_model.
  destruct (get_model_lookup_cases c k Hc) as [(h0 & o & Hk & -> & _)|[Hk ->]].
  { intros [= <- <- <-]. left. done. }
  set (c1 := set_stats _ c).
  destruct (load_model_cases c1 k cfg env) as [(e & calls0 & ->)|(h0 & call & -> & Hload)];
    [done|].
  set (c2 := set_stats _ c1).
  assert (Hc2 : consistent c2) by (by do 2 apply consistent_set_stats).
  destruct (_add_to_cache c2 k h0 cfg env) as [c3|e] eqn:Hadd; [|by destruct e].
  intros [= <- <- <-]. right. split; [done|]. split; [done|].
  destruct (add_to_cache_cases c2 k h0 cfg env c3 Hc2 Hk Hadd)
    as (n & Hn & _ & Hm & Hkeys & Hst & Habs).
  destruct (evict_n_spec n c2 Hc2 Hn) as (_ & _ & _ & _ & Hev & (Hh & Hmi & Hl) & _).
  assert (Hiter : ∀ m, models (evict_n m c2) = models (evict_n m c)
                       ∧ ∃ st, evict_n m c2 = set_stats st (evict_n m c)).
  { induction m as [|m [IHm [st IHst]]]; [split; [done|by eexists]|].
    rewrite !evict_n_S, IHst. unfold _evict_lru_model. simpl.
    destruct (OrderedDict.first_key _); simpl; [|split; [done|by eexists]].
    split; [done|]. by eexists. }
  destruct (Hiter n) as [Hmn _].
  exists n, call. split_and!; try done.
  - by rewrite Hm, Hmn.
  - rewrite Hst. destruct (stats (evict_n n c2)) as [a b d e] eqn:Hs. simpl in *.
    f_equal; lia.
  - by rewrite <-Hmn.
Qed.

(** C8 fails on the code.  A get_model moves its key to the end of
    access_order when it hits, but when it installs a model it writes
    [access_order[model_id] = ...], which leaves a key that is cached where
    it stands.  That is the case of a caller whose load overlapped with
    another caller's load of the same model: when there is room, its
    installation replaces the handle and changes neither the order nor the
    counters, although this get_model returns the model.  With room for
    three models, after two overlapping get_model("m1") with a
    get_model("m2") between their installations, the order is m1, m2, and
    loading m3 and m4 evicts m1, the model returned last, and keeps m2. *)
Theorem reinstalled_model_keeps_its_place :
  (∀ mm mem ttl ops c k h cfg env,
     0 < mm → run (init mm mem ttl) ops = Some c →
     is_Some (models c !! k) →
     cached_models c < max_models c →
     total_memory c + _estimate_model_memory (env_rss_mb env) ≤ max_memory_mb c →
     ∃ c', _add_to_cache c k h cfg env = Ok c'
           ∧ models c' = <[k:=h]> (models c)
           ∧ OrderedDict.keys (access_order c') = OrderedDict.keys (access_order c)
           ∧ stats c' = stats c)
  ∧ callers overlap_world = [Returned 1%nat true; Returned 2%nat true]
  ∧ OrderedDict.keys (access_order (cache overlap_world)) = ["m1"; "m2"]
  ∧ models (cache overlap_world) !! "m1" = Some 2%nat
  ∧ OrderedDict.keys (access_order overlap_then_two) = ["m2"; "m3"; "m4"]
  ∧ models overlap_then_two !! "m1" = None
  ∧ models overlap_then_two !! "m2" = Some 3%nat
  ∧ evictions (stats overlap_then_two) = 1.
Proof.
  split; [|split_and!; vm_compute; reflexivity].
  intros mm mem ttl ops c k h cfg env Hmm Hrun [h0 Hk] Hcount Hmem.
  destruct (run_consistent mm ops _ _ Hmm (init_consistent mm mem ttl) eq_refl Hrun)
    as [Hc _].
  unfold _add_to_cache, _ensure_cache_capacity.
  rewrite evict_by_count_unfold, bool_decide_eq_false_2 by lia.
  rewrite evict_by_memory_unfold, bool_decide_eq_false_2 by lia.
  eexists. split; [done|]. simpl. split_and!; try done.
  apply OrderedDictFacts.keys_setitem_in.
  destruct Hc as (_ & Hdom & _).
  apply (elem_of_list_to_set (C:=gset string)). rewrite <-Hdom.
  apply elem_of_dom. by eexists.
Qed.

Lemma reinstalled_model_keeps_its_place_witness :
  ∃ c', _add_to_cache (after 3 4096 [OpGet "m1" (local_file "m1") (loading 1%nat 10);
                                      OpGet "m2" (local_file "m2") (loading 3%nat 12)])
          "m1" 2%nat (local_file "m1") (loading 2%nat 13) = Ok c'
        ∧ models c'
          = <["m1":=2%nat]>
              (models (after 3 4096 [OpGet "m1" (local_file "m1") (loading 1%nat 10);
                                     OpGet "m2" (local_file "m2") (loading 3%nat 12)]))
        ∧ OrderedDict.keys (access_order c')
          = OrderedDict.keys
              (access_order (after 3 4096 [OpGet "m1" (local_file "m1") (loading 1%nat 10);
                                           OpGet "m2" (local_file "m2") (loading 3%nat 12)]))
        ∧ stats c'
          = stats (after 3 4096 [OpGet "m1" (local_file "m1") (loading 1%nat 10);
                                 OpGet "m2" (local_file "m2") (loading 3%nat 12)]).
Proof.
  apply (proj1 reinstalled_model_keeps_its_place 3 4096 3600
           [OpGet "m1" (local_file "m1") (loading 1%nat 10);
            OpGet "m2" (local_file "m2") (loading 3%nat 12)]).
  - lia.
  - vm_compute. reflexivity.
  - exists 1%nat. vm_compute. reflexivity.
  - vm_compute. reflexivity.
  - vm_compute. intros H. discriminate H.
Defined.

(** X13.  Eviction follows the order of use.  In every state reached from
    a new cache, a get_model that runs without another caller in between
    and returns a model leaves its key last in access_order and the other
    keys in the order they had: on a hit nothing else changes; on a miss
    the load evicts some number n of models, which are exactly the n least
    recently used ones, the other models stay cached with their handles,
    and the counter of evictions grows by n.  In the run of the
    specification (room for 100 models and 300 MB; m1, m2, m3 of 100 MB
    loaded, m1 got again, m4 of 100 MB loaded) exactly m2 is evicted: the
    cache holds m1, m3 and m4, 300 MB in all. *)
Theorem eviction_takes_the_least_recently_used mm mem ttl ops c k cfg env c' calls h :
  0 < mm → run (init mm mem ttl) ops = Some c →
  get_model c k cfg env = (Some c', calls, Ok h) →
  (is_Some (models c !! k) →
     OrderedDict.keys (access_order c')
     = filter (λ k', k' ≠ k) (OrderedDict.keys (access_order c)) ++ [k]
     ∧ models c' = models c
     ∧ evictions (stats c') = evictions (stats c))
  ∧ (models c !! k = None →
     ∃ n, (n ≤ length (OrderedDict.keys (access_order c)))%nat
       ∧ OrderedDict.keys (access_order c')
         = drop n (OrderedDict.keys (access_order c)) ++ [k]
       ∧ evictions (stats c') = evictions (stats c) + Z.of_nat n
       ∧ (∀ k', k' ∈ take n (OrderedDict.keys (access_order c)) → models c' !! k' = None)
       ∧ (∀ k', k' ∈ drop n (OrderedDict.keys (access_order c)) →
                models c' !! k' = models c !! k')
       ∧ models c' !! k = Some h)
  ∧ dom (models (after 100 300 sample_lru)) = {["m1"; "m3"; "m4"]}
  ∧ OrderedDict.keys (access_order (after 100 300 sample_lru)) = ["m3"; "m1"; "m4"]
  ∧ total_memory (after 100 300 sample_lru) = 300
  ∧ evictions (stats (after 100 300 sample_lru)) = 1.
Proof.
  intros Hmm Hrun Hget.
  destruct (run_consistent mm ops _ _ Hmm (init_consistent mm mem ttl) eq_refl Hrun)
    as [Hc _].
  split; [|split; [|split_and!; vm_compute; reflexivity]].
  - intros [h0 Hk].
    destruct (get_model_hit c k cfg env h0 Hc Hk) as (c1 & Hget1 & _ & Hm & Hkeys & _).
    rewrite Hget1 in Hget. injection Hget as <- _ _.
    split_and!; [done|done|].
    destruct (get_model_cases _ _ _ _ _ _ _ Hc Hget1) as [(_ & _ & _ & ->)|(Hn & _)];
      [done|congruence].
  - intros Hk.
    destruct (get_model_cases _ _ _ _ _ _ _ Hc Hget)
      as [(Hk' & _)|(_ & _ & n & call & _ & Hn & Hm & Hkeys & Hst & Habs)]; [congruence|].
    destruct (evict_n_spec n c Hc Hn) as (_ & _ & Hkeep & Hgone & _).
    assert (Hnotin : k ∉ OrderedDict.keys (access_order c)).
    { intros Hin. destruct Hc as (_ & Hdom & _).
      apply (elem_of_list_to_set (C:=gset string)) in Hin. rewrite <-Hdom in Hin.
      apply elem_of_dom in Hin as [h' Hh']. congruence. }
    exists n. rewrite keys_length. split_and!; try done.
    + by rewrite Hst.
    + intros k' Hk'. rewrite Hm.
      rewrite lookup_insert_ne; [by apply Hgone|].
      intros <-. apply Hnotin. by eapply subseteq_take.
    + intros k' Hk'. rewrite Hm.
      rewrite lookup_insert_ne; [by apply Hkeep|].
      intros <-. apply Hnotin. by eapply subseteq_drop.
    + rewrite Hm. apply lookup_insert_eq.
Qed.

Lemma eviction_takes_the_least_recently_used_witness :
  ∃ n, (n ≤ length (OrderedDict.keys (access_order (after 2 300 sample_full))))%nat
       ∧ OrderedDict.keys (access_order (got (after 2 300 sample_full) "m3" 3%nat 12))
         = drop n (OrderedDict.keys (access_order (after 2 300 sample_full))) ++ ["m3"]
       ∧ evictions (stats (got (after 2 300 sample_full) "m3" 3%nat 12))
         = evictions (stats (after 2 300 sample_full)) + Z.of_nat n
       ∧ (∀ k', k' ∈ take n (OrderedDict.keys (access_order (after 2 300 sample_full))) →
                models (got (after 2 300 sample_full) "m3" 3%nat 12) !! k' = None)
       ∧ (∀ k', k' ∈ drop n (OrderedDict.keys (access_order (after 2 300 sample_full))) →
                models (got (after 2 300 sample_full) "m3" 3%nat 12) !! k'
                = models (after 2 300 sample_full) !! k')
       ∧ models (got (after 2 300 sample_full) "m3" 3%nat 12) !! "m3" = Some 3%nat.
Proof.
  apply (eviction_takes_the_least_recently_used 2 300 3600 sample_full
           (after 2 300 sample_full) "m3" (local_file "m3") (loading 3%nat 12)
           (got (after 2 300 sample_full) "m3" 3%nat 12)
           [mkLoadCall PyTorchLoader "/models/m3"] 3%nat).
  - lia.
  - vm_compute. reflexivity.
  - vm_compute. reflexivity.
  - vm_compute. reflexivity.
Defined.

Lemma invalidate_counters c k :
  consistent c → counters_ok c → counters_ok (invalidate c k).
Proof.
  intros Hc (Hh & He & Hl & Hcached).
  destruct (invalidate_spec c k Hc) as (_ & Hm & _ & _ & _ & Hst).
  unfold counters_ok, cached_models in *. rewrite Hst, Hm.
  pose proof (map_size_delete k (models c)) as Hsize.
  destruct (models c !! k); simpl in Hsize; lia.
Qed.

Lemma step_counters mm c o c' :
  0 < mm → consistent c → max_models c = mm → counters_ok c →
  match o with OpAdd _ _ _ _ => False | _ => True end →
  step c o = Some c' →
  counters_ok c'
  ∧ hits (stats c') + misses (stats c')
    = hits (stats c) + misses (stats c) + gets [o].
Proof.
  intros Hmm Hc Hcmm Hok Hwhole.
  destruct o as [k cfg env|k h cfg env|k|]; cbn [step gets]; [|done| |].
  - destruct (get_model c k cfg env) as [[oc calls] r] eqn:Hget. simpl.
    intros ->. revert Hget. unfold get_model.
    destruct Hok as (Hh & He & Hl & Hcached). unfold counters_ok.
    destruct (get_model_lookup_cases c k Hc) as [(h0 & o & Hk & -> & _)|[Hk ->]].
    { intros [= <- <- <-]. unfold cached_models in *. simpl. lia. }
    set (c1 := set_stats _ c).
    destruct (load_model_cases c1 k cfg env) as [(e & calls0 & ->)|(h0 & call & -> & Hload)].
    { intros [= <- <- <-]. unfold cached_models in *. simpl. lia. }
    set (c2 := set_stats _ c1).
    assert (Hc2 : consistent c2) by (by do 2 apply consistent_set_stats).
    destruct (_add_to_cache c2 k h0 cfg env) as [c3|e] eqn:Hadd; cycle 1.
    { destruct e; intros [= <- <- <-]; unfold cached_models in *; simpl; lia. }
    intros [= <- <- <-].
    destruct (add_to_cache_cases c2 k h0 cfg env c3 Hc2 Hk Hadd)
      as (n & Hn & _ & Hm & _ & Hst & Habs).
    destruct (evict_n_spec n c2 Hc2 Hn)
      as (_ & _ & _ & _ & Hev & (Hh2 & Hmi2 & Hl2) & Hcached2 & _).
    unfold cached_models in *. rewrite Hst, Hm, map_size_insert_None by done.
    rewrite Hev, Hh2, Hmi2, Hl2. simpl in *. lia.
  - intros [= <-]. split; [by apply invalidate_counters|].
    destruct (invalidate_spec c k Hc) as (_ & _ & _ & _ & _ & ->). lia.
  - intros [= <-]. destruct Hok as (Hh & He & Hl & Hcached).
    unfold counters_ok, cached_models in *. simpl. rewrite map_size_empty. lia.
Qed.

Lemma run_counters mm ops : ∀ c c',
  0 < mm → consistent c → max_models c = mm → counters_ok c → whole_calls ops →
  run c ops = Some c' →
  counters_ok c'
  ∧ hits (stats c') + misses (stats c') = hits (stats c) + misses (stats c) + gets ops.
Proof.
  induction ops as [|o ops IH]; intros c c' Hmm Hc Hcmm Hok Hwhole; simpl run.
  { intros [= <-]. simpl. split; [done|lia]. }
  apply Forall_cons in Hwhole as [Ho Hwhole].
  destruct (step_consistent mm c o Hmm Hc Hcmm) as (c1 & Hstep & Hc1 & Hmm1).
  rewrite Hstep. intros Hrun.
  destruct (step_counters mm c o c1 Hmm Hc Hcmm Hok Ho Hstep) as [Hok1 Hsum1].
  destruct (IH c1 c' Hmm Hc1 Hmm1 Hok1 Hwhole Hrun) as [Hok' Hsum'].
  split; [done|]. rewrite Hsum', Hsum1. simpl. destruct o; lia.
Qed.

(** X14.  The counters of the cache add up: after any calls of get_model,
    invalidate and clear on a new cache, hits + misses is the number of
    get_model calls made, whether they returned or raised; the loads are at
    most the misses; and the models now cached plus the evictions are at
    most the loads, so get_stats never reports more cached models than
    were loaded. *)
Theorem cache_counters_add_up mm mem ttl ops c :
  0 < mm → whole_calls ops → run (init mm mem ttl) ops = Some c →
  hits (stats c) + misses (stats c) = gets ops
  ∧ 0 ≤ hits (stats c)
  ∧ 0 ≤ loads (stats c) ≤ misses (stats c)
  ∧ 0 ≤ evictions (stats c)
  ∧ cached_models c + evictions (stats c) ≤ loads (stats c).
Proof.
  intros Hmm Hwhole Hrun.
  destruct (run_counters mm ops (init mm mem ttl) c Hmm (init_consistent mm mem ttl) eq_refl)
    as [(Hh & He & Hl & Hcached) Hsum]; [|done|done|].
  { unfold counters_ok, cached_models. simpl. rewrite map_size_empty. lia. }
  simpl in Hsum. split_and!; try done; lia.
Qed.

Lemma cache_counters_add_up_witness :
  hits (stats (after 2 4096 sample_calls)) + misses (stats (after 2 4096 sample_calls))
  = gets sample_calls
  ∧ 0 ≤ hits (stats (after 2 4096 sample_calls))
  ∧ 0 ≤ loads (stats (after 2 4096 sample_calls)) ≤ misses (stats (after 2 4096 sample_calls))
  ∧ 0 ≤ evictions (stats (after 2 4096 sample_calls))
  ∧ cached_models (after 2 4096 sample_calls) + evictions (stats (after 2 4096 sample_calls))
    ≤ loads (stats (after 2 4096 sample_calls)).
Proof.
  apply (cache_counters_add_up 2 4096 3600 sample_calls).
  - lia.
  - repeat constructor.
  - vm_compute. reflexivity.
Defined.

Lemma step_limits mm c o c' :
  0 < mm → consistent c → max_models c = mm → step c o = Some c' →
  max_memory_mb c' = max_memory_mb c.
Proof.
  intros Hmm Hc Hcmm.
  destruct o as [k cfg env|k h cfg env|k|]; cbn [step].
  - unfold get_model.
    destruct (get_model_lookup_spec c k Hc) as (c1 & -> & Hc1 & _ & _ & Hmm1 & Hmem1 & _).
    destruct (models c !! k) as [h|]; [by intros [= <-]|].
    destruct (load_model_frame c1 k cfg env) as [st Hframe].
    destruct (_load_model c1 k cfg env) as [[c2 calls] [h|e]]; simpl in Hframe; subst c2.
    + destruct (add_to_cache_spec (set_stats st c1) k h cfg env)
        as (c3 & -> & _ & _ & Hmem3 & _).
      { by apply consistent_set_stats. }
      { simpl. lia. }
      simpl. intros [= <-]. simpl in *. congruence.
    + simpl. intros [= <-]. done.
  - destruct (add_to_cache_spec c k h cfg env Hc) as (c3 & -> & _ & _ & Hmem3 & _); [lia|].
    by intros [= <-].
  - intros [= <-]. by destruct (invalidate_spec c k Hc) as (_ & _ & _ & _ & ? & _).
  - by intros [= <-].
Qed.

Lemma run_limits mm ops : ∀ c c',
  0 < mm → consistent c → max_models c = mm → run c ops = Some c' →
  consistent c' ∧ max_models c' = mm ∧ max_memory_mb c' = max_memory_mb c.
Proof.
  induction ops as [|o ops IH]; intros c c' Hmm Hc Hcmm; simpl run.
  { by intros [= <-]. }
  destruct (step_consistent mm c o Hmm Hc Hcmm) as (c1 & Hstep & Hc1 & Hmm1).
  rewrite Hstep. intros Hrun.
  destruct (IH c1 c' Hmm Hc1 Hmm1 Hrun) as (? & ? & Hmem).
  split_and!; [done|done|]. rewrite Hmem. by eapply step_limits.
Qed.

(** X15.  A full cache can evict one model more than it needs to.
    _ensure_cache_capacity reads the memory in use once, before it evicts
    for the count limit; when the cache holds max_models models (two or
    more) and the new model does not fit into the memory in use then, the
    memory loop evicts a second model on that stale reading, although the
    first eviction had made room under both limits. *)
Theorem full_cache_evicts_one_model_too_many mm mem ttl ops c new :
  2 ≤ mm → run (init mm mem ttl) ops = Some c →
  cached_models c = mm →
  mem < total_memory c + new →
  total_memory (evict_n 1 c) + new ≤ mem →
  _ensure_cache_capacity c new = Ok (evict_n 2 c)
  ∧ cached_models (evict_n 1 c) < mm
  ∧ cached_models (evict_n 2 c) = mm - 2
  ∧ evictions (stats (evict_n 2 c)) = evictions (stats c) + 2.
Proof.
  intros Hmm Hrun Hfull Hover Hfits.
  destruct (run_limits mm ops (init mm mem ttl) c) as (Hc & Hcmm & Hcmem);
    [lia|apply init_consistent|done|done|].
  simpl in Hcmem.
  assert (Hlen : (2 ≤ length (access_order c))%nat).
  { rewrite <-(consistent_size c Hc). unfold cached_models in Hfull. lia. }
  destruct (evict_n_spec 1 c Hc) as (Hc1 & Hk1 & _ & _ & _ & _ & Hcached1 & Hmm1 & Hmem1);
    [lia|].
  destruct (evict_n_spec 2 c Hc) as (Hc2 & Hk2 & _ & _ & Hev2 & _ & Hcached2 & Hmm2 & Hmem2);
    [lia|].
  assert (Hlen1 : length (access_order (evict_n 1 c)) = pred (length (access_order c))).
  { rewrite <-!keys_length, Hk1, length_drop. lia. }
  split_and!; [|lia|lia|lia].
  unfold _ensure_cache_capacity.
  destruct (length (access_order c)) as [|n0] eqn:Hn0; [lia|].
  rewrite evict_by_count_unfold, bool_decide_eq_true_2 by lia.
  change (_evict_lru_model c) with (evict_n 1 c).
  rewrite evict_by_count_unfold, bool_decide_eq_false_2 by lia.
  rewrite Hlen1. simpl pred.
  destruct n0 as [|n1]; [lia|].
  rewrite evict_by_memory_unfold, bool_decide_eq_true_2 by lia.
  rewrite bool_decide_eq_false_2; cycle 1.
  { intros Hempty. unfold cached_models in *.
    rewrite Hempty, map_size_empty in Hcached1. lia. }
  change (_evict_lru_model (evict_n 1 c)) with (evict_n 2 c).
  rewrite evict_by_memory_unfold, bool_decide_eq_false_2; [done|].
  destruct (evict_lru_spec (evict_n 1 c) Hc1) as (_ & _ & Htot & _).
  { intros Hnil. rewrite Hnil in Hlen1. simpl in Hlen1. lia. }
  change (_evict_lru_model (evict_n 1 c)) with (evict_n 2 c) in Htot. lia.
Qed.

Lemma full_cache_evicts_one_model_too_many_witness :
  _ensure_cache_capacity (after 2 300 sample_full) 100 = Ok (evict_n 2 (after 2 300 sample_full))
  ∧ cached_models (evict_n 1 (after 2 300 sample_full)) < 2
  ∧ cached_models (evict_n 2 (after 2 300 sample_full)) = 2 - 2
  ∧ evictions (stats (evict_n 2 (after 2 300 sample_full)))
    = evictions (stats (after 2 300 sample_full)) + 2.
Proof.
  apply (full_cache_evicts_one_model_too_many 2 300 3600 sample_full).
  - lia.
  - vm_compute. reflexivity.
  - vm_compute. reflexivity.
  - vm_compute. reflexivity.
  - vm_compute. intros H. discriminate H.
Defined.




(** X17.  The global cache is made once and shared: the first
    get_cached_model of a process makes the cache from the settings and
    loads the model; a second call for the same model returns the same
    handle from the cache without calling the provider, whatever the
    settings say by then, and the cache has counted one miss, one load and
    one hit. *)
Theorem cached_model_is_loaded_once MODEL_CACHE MODEL_CACHE' k cfg env env' path h :
  0 < default 5 (cfg_max_models (default (mkCacheSettings None None None) MODEL_CACHE)) →
  file_path cfg = Some path → env_download env = Ok tt → env_load env = Ok h →
  ∃ c1 call,
    get_cached_model None MODEL_CACHE k cfg env = (Some c1, [call], Ok h)
    ∧ get_model_cache (Some c1) MODEL_CACHE' = c1
    ∧ ∃ c2, get_cached_model (Some c1) MODEL_CACHE' k cfg env' = (Some c2, [], Ok h)
            ∧ hits (stats c2) = 1 ∧ misses (stats c2) = 1 ∧ loads (stats c2) = 1.
Proof.
  intros Hmm Hpath Hdl Hload. unfold get_cached_model.
  set (c0 := get_model_cache None MODEL_CACHE).
  destruct (get_model_miss c0 k cfg env path h)
    as (c1 & call & Hg & Hc1 & Hk1 & _ & Hh1 & Hm1 & Hl1);
    [apply init_consistent|done|done|done|done|done|].
  exists c1, call. split; [done|]. split; [done|]. simpl.
  destruct (get_model_hit c1 k cfg env' h Hc1 Hk1)
    as (c2 & Hg2 & _ & _ & _ & Hh2 & Hm2 & Hl2).
  exists c2. split; [done|]. rewrite Hh2, Hm2, Hl2, Hh1, Hm1, Hl1. done.
Qed.

Lemma cached_model_is_loaded_once_witness :
  ∃ c1 call,
    get_cached_model None None "m1" (local_file "m1") (loading 1%nat 10)
    = (Some c1, [call], Ok 1%nat)
    ∧ get_model_cache (Some c1) (Some (mkCacheSettings (Some 0) None None)) = c1
    ∧ ∃ c2, get_cached_model (Some c1) (Some (mkCacheSettings (Some 0) None None)) "m1"
              (local_file "m1") (loading 2%nat 11) = (Some c2, [], Ok 1%nat)
            ∧ hits (stats c2) = 1 ∧ misses (stats c2) = 1 ∧ loads (stats c2) = 1.
Proof.
  apply (cached_model_is_loaded_once None (Some (mkCacheSettings (Some 0) None None)) "m1"
           (local_file "m1") (loading 1%nat 10) (loading 2%nat 11) "/models/m1" 1%nat);
    reflexivity.
Defined.

End EvictionFacts.

(** ** Sessions and the stream manager *)

Module SessionFacts.
Import StreamSession StreamSpec SessionSpec StreamFacts.
Local Open Scope Z_scope.

(** What one turn of the capture loop does to the frames of a session
    whose queue has a positive capacity: nothing, or the frame read is
    counted, buffered and queued, in the place of the oldest queued frame
    when the queue is full. *)
Lemma capture_step_cases s read now :
  0 < AsyncQueue.maxsize (frame_queue s) →
  AsyncQueue.qsize (frame_queue s) ≤ AsyncQueue.maxsize (frame_queue s) →
  capture_step s read now = s
  ∨ ∃ f, read = Some f ∧ is_active s = true ∧ cap_opened s = true
      ∧ is_active (capture_step s read now) = true
      ∧ cap_opened (capture_step s read now) = true
      ∧ reconnect_attempts (capture_step s read now) = reconnect_attempts s
      ∧ frame_buffer_maxlen (capture_step s read now) = frame_buffer_maxlen s
      ∧ AsyncQueue.maxsize (frame_queue (capture_step s read now))
        = AsyncQueue.maxsize (frame_queue s)
      ∧ frame_count (capture_step s read now) = frame_count s + 1
      ∧ frame_buffer (capture_step s read now)
        = deque_append (frame_buffer_maxlen s) (frame_buffer s) f
      ∧ ((AsyncQueue.qsize (frame_queue s) < AsyncQueue.maxsize (frame_queue s)
          ∧ AsyncQueue.items (frame_queue (capture_step s read now))
            = AsyncQueue.items (frame_queue s) ++ [(f, now)]
          ∧ dropped_frames (capture_step s read now) = dropped_frames s)
         ∨ (∃ oldest rest,
              AsyncQueue.items (frame_queue s) = oldest :: rest
              ∧ AsyncQueue.qsize (frame_queue s) = AsyncQueue.maxsize (frame_queue s)
              ∧ AsyncQueue.items (frame_queue (capture_step s read now))
                = rest ++ [(f, now)]
              ∧ dropped_frames (capture_step s read now) = dropped_frames s + 1)).
Proof.
  intros Hpos Hlen.
  destruct (is_active s) eqn:Hact; cycle 1.
  { left. unfold capture_step. by rewrite Hact. }
  destruct (cap_opened s) eqn:Hcap; cycle 1.
  { left. unfold capture_step, _read_frame_sync. by rewrite Hact, Hcap. }
  destruct read as [f|]; cycle 1.
  { left. unfold capture_step, _read_frame_sync. by rewrite Hact, Hcap. }
  right. exists f. split; [done|]. split; [done|]. split; [done|].
  destruct (decide (AsyncQueue.qsize (frame_queue s) < AsyncQueue.maxsize (frame_queue s)))
    as [Hroom|Hfull].
  - unfold capture_step, _read_frame_sync. rewrite Hact, Hcap. simpl.
    unfold AsyncQueue.put_nowait. rewrite full_false by done. simpl.
    split_and!; try done. left. done.
  - assert (Heq : AsyncQueue.maxsize (frame_queue s) = AsyncQueue.qsize (frame_queue s))
      by lia.
    destruct (AsyncQueue.items (frame_queue s)) as [|oldest rest] eqn:Hitems.
    { unfold AsyncQueue.qsize in Heq. rewrite Hitems in Heq. simpl in Heq. lia. }
    rewrite (capture_step_full s f now oldest rest) by done. simpl.
    split_and!; try done. right. exists oldest, rest. split_and!; try done; try lia.
Qed.


Lemma processing_step_cases s :
  processing_step s = (s, None)
  ∨ ∃ f now rest,
      AsyncQueue.items (frame_queue s) = (f, now) :: rest
      ∧ processing_step s
        = (mkSession (is_active s) (cap_opened s)
             (AsyncQueue.mkAsyncQueue (AsyncQueue.maxsize (frame_queue s)) rest)
             (frame_buffer_maxlen s) (frame_buffer s) (last_frame_time s)
             (reconnect_attempts s) (frame_count s) (dropped_frames s) (fps_counter s)
             (processing_times s), Some (f, now)).
Proof.
  unfold processing_step. destruct (is_active s); simpl; [|by left].
  unfold AsyncQueue.get_nowait.
  destruct (AsyncQueue.items (frame_queue s)) as [|[f now] rest]; [by left|].
  right. by exists f, now, rest.
Qed.

(** The methods of a session leave its frames alone. *)
Lemma methods_keep_frames s ev :
  match ev with Capture _ _ | Process => False | _ => True end →
  frame_queue (step s ev).1 = frame_queue s
  ∧ frame_buffer (step s ev).1 = frame_buffer s
  ∧ frame_buffer_maxlen (step s ev).1 = frame_buffer_maxlen s
  ∧ frame_count (step s ev).1 = frame_count s
  ∧ dropped_frames (step s ev).1 = dropped_frames s
  ∧ (step s ev).2 = None
  ∧ counted s ev = None.
Proof.
  destruct ev as [opened| |opened| |max opened|read now|]; try done; intros _; simpl.
  - unfold connect. by destruct opened.
  - unfold start_processing, connect. by destruct (is_active s), opened.
  - unfold reconnect, connect. case_bool_decide; [done|]. by destruct opened.
Qed.

Lemma trace_step_eq tr ev :
  trace_step tr ev
  = mkTrace (step (session tr) ev).1
      (captured tr ++ option_list (counted (session tr) ev))
      (processed tr ++ option_list (step (session tr) ev).2).
Proof. unfold trace_step. by destruct (step (session tr) ev). Qed.

(** What holds of the frames of a session along a run. *)
Lemma trace_step_inv tr ev :
  AsyncQueue.maxsize (frame_queue (session tr)) = 30 →
  AsyncQueue.qsize (frame_queue (session tr)) ≤ 30 →
  frame_count (session tr) = Z.of_nat (length (captured tr)) →
  Z.of_nat (length (captured tr))
  = dropped_frames (session tr) + Z.of_nat (length (processed tr))
    + AsyncQueue.qsize (frame_queue (session tr)) →
  0 ≤ dropped_frames (session tr) →
  sublist (processed tr ++ queued (session tr)) (captured tr) →
  AsyncQueue.maxsize (frame_queue (session (trace_step tr ev))) = 30
  ∧ AsyncQueue.qsize (frame_queue (session (trace_step tr ev))) ≤ 30
  ∧ frame_count (session (trace_step tr ev))
    = Z.of_nat (length (captured (trace_step tr ev)))
  ∧ Z.of_nat (length (captured (trace_step tr ev)))
    = dropped_frames (session (trace_step tr ev))
      + Z.of_nat (length (processed (trace_step tr ev)))
      + AsyncQueue.qsize (frame_queue (session (trace_step tr ev)))
  ∧ 0 ≤ dropped_frames (session (trace_step tr ev))
  ∧ sublist (processed (trace_step tr ev) ++ queued (session (trace_step tr ev)))
      (captured (trace_step tr ev)).
Proof.
  rewrite trace_step_eq. destruct tr as [s cap pro]. cbn [session captured processed].
  intros Hmax Hlen Hcount Hsum Hdrop Hsub.
  destruct ev as [opened| |opened| |max opened|read now|].
  1-5: match goal with |- context [step ?s0 ?ev] =>
         destruct (methods_keep_frames s0 ev I) as (Hq & _ & _ & Hc & Hd & Ht & Hn);
         rewrite Ht, Hn; cbn [option_list]; rewrite !app_nil_r; unfold queued;
         rewrite Hq, Hc, Hd; split_and!; try done; lia
       end.
  - change (step s (Capture read now)).1 with (capture_step s read now).
    change (step s (Capture read now)).2 with (@None Frame).
    cbn [option_list]. rewrite app_nil_r.
    destruct (capture_step_cases s read now) as [Hsame|(f & -> & _ & _ & _ & _ & _ & _ & Hmax'
      & Hc' & _ & Hq')]; [lia|lia| |].
    + assert (counted s (Capture read now) = None) as ->.
      { unfold counted. destruct read; [|done]. rewrite Hsame.
        by rewrite bool_decide_eq_false_2 by lia. }
      rewrite Hsame. cbn [option_list]. by rewrite !app_nil_r.
    + unfold counted. rewrite bool_decide_eq_true_2 by done. cbn [option_list].
      rewrite length_app. simpl length. unfold queued, AsyncQueue.qsize in *.
      destruct Hq' as [(Hroom & Hitems & Hd)|(oldest & rest & Hold & Hfull & Hitems & Hd)];
        rewrite Hitems, Hd, Hc', Hmax', ?length_app; simpl length.
      * split_and!; try lia. rewrite fmap_app, app_assoc. simpl.
        by apply sublist_app.
      * rewrite Hold in *. simpl in *.
        split_and!; try lia. rewrite fmap_app, app_assoc. simpl.
        apply sublist_app; [|done].
        etransitivity; [|exact Hsub]. apply sublist_app; [done|]. by apply sublist_cons.
  - change (counted s Process) with (@None Frame). cbn [option_list]. rewrite app_nil_r.
    change (step s Process) with (let '(s', item) := processing_step s in (s', fst <$> item)).
    destruct (processing_step_cases s) as [->|(f & now & rest & Hitems & ->)];
      cbn [fst snd fmap option_fmap option_map option_list].
    + by rewrite !app_nil_r.
    + rewrite length_app. simpl. unfold queued, AsyncQueue.qsize in *. simpl.
      rewrite Hitems in *. simpl in *. split_and!; try lia.
      by rewrite <-app_assoc.
Qed.

Lemma trace_run_inv evs : ∀ tr,
  AsyncQueue.maxsize (frame_queue (session tr)) = 30 →
  AsyncQueue.qsize (frame_queue (session tr)) ≤ 30 →
  frame_count (session tr) = Z.of_nat (length (captured tr)) →
  Z.of_nat (length (captured tr))
  = dropped_frames (session tr) + Z.of_nat (length (processed tr))
    + AsyncQueue.qsize (frame_queue (session tr)) →
  0 ≤ dropped_frames (session tr) →
  sublist (processed tr ++ queued (session tr)) (captured tr) →
  AsyncQueue.qsize (frame_queue (session (foldl trace_step tr evs))) ≤ 30
  ∧ frame_count (session (foldl trace_step tr evs))
    = Z.of_nat (length (captured (foldl trace_step tr evs)))
  ∧ Z.of_nat (length (captured (foldl trace_step tr evs)))
    = dropped_frames (session (foldl trace_step tr evs))
      + Z.of_nat (length (processed (foldl trace_step tr evs)))
      + AsyncQueue.qsize (frame_queue (session (foldl trace_step tr evs)))
  ∧ 0 ≤ dropped_frames (session (foldl trace_step tr evs))
  ∧ sublist (processed (foldl trace_step tr evs)
             ++ queued (session (foldl trace_step tr evs)))
      (captured (foldl trace_step tr evs)).
Proof.
  induction evs as [|ev evs IH]; intros tr H1 H2 H3 H4 H5 H6; [done|].
  destruct (trace_step_inv tr ev H1 H2 H3 H4 H5 H6) as (? & ? & ? & ? & ? & ?).
  simpl. by apply IH.
Qed.

(** X18.  Every frame is accounted for, in order.  Along any calls of the
    methods of a session and any turns of its capture and processing
    loops, frame_count is the number of frames the capture loop counted;
    each of them was dropped, was taken by the processing loop or waits in
    the queue (frame_count = dropped_frames + processed + queued); the
    queue never holds more than 30 frames; and the frames processed,
    followed by those queued, are in the order in which they were
    captured. *)
Theorem every_frame_is_accounted_for max_frame_buffer evs :
  frame_count (session (run (init max_frame_buffer) evs))
  = Z.of_nat (length (captured (run (init max_frame_buffer) evs)))
  ∧ frame_count (session (run (init max_frame_buffer) evs))
    = dropped_frames (session (run (init max_frame_buffer) evs))
      + Z.of_nat (length (processed (run (init max_frame_buffer) evs)))
      + AsyncQueue.qsize (frame_queue (session (run (init max_frame_buffer) evs)))
  ∧ 0 ≤ dropped_frames (session (run (init max_frame_buffer) evs))
  ∧ AsyncQueue.qsize (frame_queue (session (run (init max_frame_buffer) evs))) ≤ 30
  ∧ sublist (processed (run (init max_frame_buffer) evs)
             ++ queued (session (run (init max_frame_buffer) evs)))
      (captured (run (init max_frame_buffer) evs)).
Proof.
  destruct (trace_run_inv evs (mkTrace (init max_frame_buffer) [] [])) as (H1 & H2 & H3 & H4 & H5);
    try done.
  unfold run. split_and!; try done. by rewrite H2.
Qed.


Lemma last_deque_append {X} maxlen (d : list X) x :
  (0 < maxlen)%nat → last (deque_append maxlen d x) = Some x.
Proof.
  intros Hpos. unfold deque_append.
  rewrite drop_app_le by (rewrite length_app; simpl; lia).
  apply last_snoc.
Qed.

(** X19.  The frame queue keeps the newest frames.  When the capture loop
    of a connected session reads a run of frames while nothing is
    processed, the queue ends up holding the last frames of what it held
    followed by what was read, as many as its capacity allows, in order;
    every frame that does not fit is counted in dropped_frames, every
    frame read in frame_count; and get_latest_frame returns the last frame
    read, whether it is still queued or not. *)
Theorem frame_queue_keeps_the_newest_frames reads : ∀ s,
  is_active s = true → cap_opened s = true →
  0 < AsyncQueue.maxsize (frame_queue s) →
  AsyncQueue.qsize (frame_queue s) ≤ AsyncQueue.maxsize (frame_queue s) →
  AsyncQueue.items (frame_queue (capture_all s reads))
  = drop (length (AsyncQueue.items (frame_queue s) ++ reads)
          - Z.to_nat (AsyncQueue.maxsize (frame_queue s)))
      (AsyncQueue.items (frame_queue s) ++ reads)
  ∧ dropped_frames (capture_all s reads)
    = dropped_frames s
      + Z.of_nat (length (AsyncQueue.items (frame_queue s) ++ reads)
                  - Z.to_nat (AsyncQueue.maxsize (frame_queue s)))
  ∧ frame_count (capture_all s reads) = frame_count s + Z.of_nat (length reads)
  ∧ ((0 < frame_buffer_maxlen s)%nat → reads ≠ [] →
     get_latest_frame (capture_all s reads) = fst <$> last reads).
Proof.
  induction reads as [|[f now] reads IH]; intros s Hact Hcap Hpos Hlen.
  { simpl. rewrite app_nil_r.
    assert ((length (AsyncQueue.items (frame_queue s))
             - Z.to_nat (AsyncQueue.maxsize (frame_queue s)))%nat = 0%nat) as ->.
    { unfold AsyncQueue.qsize in Hlen. lia. }
    rewrite drop_0. split_and!; [done|lia|lia|done]. }
  simpl capture_all.
  destruct (capture_step_cases s (Some f) now Hpos Hlen)
    as [Hsame|(f' & [= <-] & _ & _ & Hact' & Hcap' & _ & Hml' & Hmax' & Hc' & Hbuf' & Hq')].
  { exfalso. unfold capture_step, _read_frame_sync in Hsame. rewrite Hact, Hcap in Hsame.
    simpl in Hsame. apply (f_equal frame_count) in Hsame.
    revert Hsame. repeat case_match; simpl; lia. }
  set (s1 := capture_step s (Some f) now) in *.
  assert (Hlen1 : AsyncQueue.qsize (frame_queue s1) ≤ AsyncQueue.maxsize (frame_queue s1)).
  { unfold AsyncQueue.qsize in *. rewrite Hmax'.
    destruct Hq' as [(Hroom & -> & _)|(oldest & rest & Hold & Hfull & -> & _)].
    - rewrite length_app. simpl. lia.
    - rewrite Hold in Hfull. rewrite length_app. simpl in *. lia. }
  destruct (IH s1 Hact' Hcap') as (Hitems & Hdropped & Hcount & Hlatest); [lia|done|].
  rewrite Hmax' in *.
  set (M := Z.to_nat (AsyncQueue.maxsize (frame_queue s))) in *.
  assert (HM : (0 < M)%nat) by (unfold M; lia).
  assert (Hstep : AsyncQueue.items (frame_queue s1)
                  = drop (length (AsyncQueue.items (frame_queue s) ++ [(f, now)]) - M)
                      (AsyncQueue.items (frame_queue s) ++ [(f, now)])
                  ∧ dropped_frames s1
                    = dropped_frames s
                      + Z.of_nat (length (AsyncQueue.items (frame_queue s) ++ [(f, now)]) - M)
                  ∧ (length (AsyncQueue.items (frame_queue s)) ≤ M)%nat).
  { unfold AsyncQueue.qsize in *. rewrite length_app. simpl.
    destruct Hq' as [(Hroom & -> & ->)|(oldest & rest & Hold & Hfull & -> & ->)].
    - assert ((length (AsyncQueue.items (frame_queue s)) + 1 - M)%nat = 0%nat) as ->
        by (unfold M; lia).
      split_and!; [done|lia|unfold M; lia].
    - rewrite Hold in *. simpl in *.
      assert ((S (length rest + 1) - M)%nat = 1%nat) as -> by (unfold M; lia).
      split_and!; [done|lia|unfold M; lia]. }
  destruct Hstep as (Hi1 & Hd1 & Hle).
  set (L := AsyncQueue.items (frame_queue s)) in *.
  replace (L ++ (f, now) :: reads) with ((L ++ [(f, now)]) ++ reads)
    by (by rewrite <-app_assoc).
  set (L1 := L ++ [(f, now)]) in *.
  assert (HL1 : length L1 = S (length L)) by (unfold L1; rewrite length_app; simpl; lia).
  split_and!.
  - rewrite Hitems, Hi1.
    rewrite <-(drop_app_le L1 reads) by lia.
    rewrite drop_drop. f_equal.
    rewrite length_drop, !length_app. lia.
  - rewrite Hdropped, Hd1, Hi1.
    rewrite length_app, length_drop, !length_app. lia.
  - rewrite Hcount, Hc'. simpl length. lia.
  - intros Hbuf _. destruct reads as [|r reads'].
    + simpl. unfold get_latest_frame. fold s1. rewrite Hbuf'. by apply last_deque_append.
    + rewrite Hlatest; [|by rewrite Hml'|done]. done.
Qed.

Lemma frame_queue_keeps_the_newest_frames_witness :
  AsyncQueue.items (frame_queue (capture_all (connect (init None) true).1 (frames 1 32)))
  = drop (length (AsyncQueue.items (frame_queue (connect (init None) true).1) ++ frames 1 32)
          - Z.to_nat (AsyncQueue.maxsize (frame_queue (connect (init None) true).1)))
      (AsyncQueue.items (frame_queue (connect (init None) true).1) ++ frames 1 32).
Proof.
  apply (frame_queue_keeps_the_newest_frames (frames 1 32) (connect (init None) true).1);
    reflexivity || (vm_compute; intros H; discriminate H).
Defined.






End SessionFacts.

Module ManagerFacts.
Import StreamManager ManagerSpec.

Lemma step_registry_ok m ev : registry_ok m → registry_ok (step m ev).
Proof.
  intros [Hdom Hall].
  destruct ev as [| |camera_id camera mfb opened|camera_id|camera_id]; simpl; try done.
  - unfold add_camera. case_bool_decide; [done|].
    destruct opened; simpl; [|done].
    split; simpl.
    + rewrite dom_insert_L, Hdom. done.
    + apply map_Forall_insert_2; [done|done].
  - unfold remove_camera. split; simpl.
    + by rewrite dom_delete_L, Hdom.
    + by apply map_Forall_delete.
Qed.

Lemma run_registry_ok evs : ∀ m, registry_ok m → registry_ok (run m evs).
Proof.
  induction evs as [|ev evs IH]; intros m Hm; [done|].
  simpl. apply IH. by apply step_registry_ok.
Qed.

Lemma init_registry_ok : registry_ok init.
Proof. split; [apply dom_empty_L|apply map_Forall_empty]. Qed.

(** X21.  The registry of the stream manager.  After any calls of start,
    stop, add_camera and remove_camera, a camera has a session exactly when
    it has a capture task, and every session of the registry is connected.
    add_camera for a camera that is registered returns False and changes
    nothing; for a camera that does not open it returns False and registers
    nothing; otherwise it returns True and get_session returns the new,
    connected session.  After remove_camera, get_session returns None. *)
Theorem manager_registry_round_trip evs camera_id camera max_frame_buffer :
  (is_Some (get_session (run init evs) camera_id)
   ↔ camera_id ∈ _capture_tasks (run init evs))
  ∧ (∀ session, get_session (run init evs) camera_id = Some session →
       StreamSession.is_active session = true ∧ StreamSession.cap_opened session = true)
  ∧ (∀ opened, is_Some (get_session (run init evs) camera_id) →
       add_camera (run init evs) camera_id camera max_frame_buffer opened
       = (run init evs, false))
  ∧ add_camera (run init evs) camera_id camera max_frame_buffer false = (run init evs, false)
  ∧ (get_session (run init evs) camera_id = None →
     (add_camera (run init evs) camera_id camera max_frame_buffer true).2 = true
     ∧ get_session (add_camera (run init evs) camera_id camera max_frame_buffer true).1
         camera_id
       = Some (StreamSession.connect (StreamSession.init max_frame_buffer) true).1
     ∧ ∀ other, other ≠ camera_id →
         get_session (add_camera (run init evs) camera_id camera max_frame_buffer true).1 other
         = get_session (run init evs) other)
  ∧ get_session (remove_camera (run init evs) camera_id) camera_id = None.
Proof.
  destruct (run_registry_ok evs init init_registry_ok) as [Hdom Hall].
  set (m := run init evs) in *.
  assert (Hsome : is_Some (get_session m camera_id) ↔ camera_id ∈ dom (_sessions m)).
  { unfold get_session. rewrite elem_of_dom, fmap_is_Some. done. }
  split_and!.
  - by rewrite Hsome, Hdom.
  - intros session. unfold get_session.
    destruct (_sessions m !! camera_id) as [[cam s]|] eqn:Hs; [|done].
    intros [= <-]. destruct (Hall _ _ Hs) as (? & ? & _). done.
  - intros opened Hin. unfold add_camera. by rewrite bool_decide_eq_true_2 by by apply Hsome.
  - unfold add_camera. by case_bool_decide.
  - intros Hnone. unfold add_camera.
    rewrite bool_decide_eq_false_2; cycle 1.
    { intros Hin. apply Hsome in Hin. rewrite Hnone in Hin. by destruct Hin. }
    simpl. split_and!; [done| |].
    + unfold get_session. simpl. by rewrite lookup_insert_eq.
    + intros other Hne. unfold get_session. simpl. by rewrite lookup_insert_ne.
  - unfold get_session, remove_camera. simpl. by rewrite lookup_delete_eq.
Qed.

(** X22.  The stream manager never shows a frame.  Its capture task calls
    session.read_frame(), which StreamSession does not define, so the task
    ends before it reads a frame, whatever default_fps is configured: it
    returns when the camera has no session or the manager is stopped, it
    ends with ZeroDivisionError when default_fps is 0, and it logs the
    AttributeError otherwise; it hands no frame to _process_frame, and
    add_camera only connects the session.  Hence in every state reached
    through the manager, no registered session has read a frame, and
    get_frame_jpeg returns None for every camera. *)
Theorem manager_never_shows_a_frame evs camera_id imencode default_fps :
  get_frame_jpeg (run init evs) camera_id imencode = None
  ∧ (_capture_loop (run init evs) camera_id default_fps).2 = []
  ∧ (_capture_loop (run init evs) camera_id default_fps).1
    = (if bool_decide (get_session (run init evs) camera_id = None) then TaskReturned
       else if bool_decide (default 30%Z default_fps = 0%Z) then TaskRaised ZeroDivisionError
       else if _running (run init evs) then TaskLogged AttributeError
       else TaskReturned)
  ∧ ∀ session, get_session (run init evs) camera_id = Some session →
      StreamSession.frame_count session = 0%Z
      ∧ StreamSession.get_latest_frame session = None.
Proof.
  destruct (run_registry_ok evs init init_registry_ok) as [Hdom Hall].
  set (m := run init evs) in *.
  assert (Hsess : ∀ session, get_session m camera_id = Some session →
            StreamSession.frame_count session = 0%Z
            ∧ StreamSession.get_latest_frame session = None).
  { intros session. unfold get_session.
    destruct (_sessions m !! camera_id) as [[cam s]|] eqn:Hs; [|done].
    intros [= <-]. destruct (Hall _ _ Hs) as (_ & _ & Hbuf & Hcount).
    split; [done|]. unfold StreamSession.get_latest_frame. simpl in *. by rewrite Hbuf. }
  split_and!; [| | |done].
  - unfold get_frame_jpeg. destruct (get_session m camera_id) as [session|] eqn:Hs; [|done].
    by destruct (Hsess session eq_refl) as [_ ->].
  - unfold _capture_loop. destruct (get_session m camera_id); [|done].
    case_bool_decide; [done|]. by destruct (_ && _).
  - unfold _capture_loop. destruct (get_session m camera_id) as [session|] eqn:Hs.
    + rewrite (bool_decide_eq_false_2 (Some session = None)) by done.
      case_bool_decide; [done|].
      rewrite (bool_decide_eq_true_2 (camera_id ∈ dom (_sessions m))); cycle 1.
      { apply elem_of_dom. unfold get_session in Hs.
        destruct (_sessions m !! camera_id); [by eexists|done]. }
      by destruct (_running m).
    + by rewrite bool_decide_eq_true_2.
Qed.

End ManagerFacts.
